(** * Royal Recipes: the generative-content orchestration layer

    A shallow embedding of [src/services/geminiService.ts],
    [src/components/RichInstruction.tsx] and the background image loop of
    [src/components/RecipeCard.tsx], with the properties of the
    specification stated over it; and of the handlers and effects of
    [App], [DishVisualizer], [LeftoverSuggestions], [CookMode] and
    [TutorialPlayer] that call the service, with properties read off the
    code.

    Conventions.
    - A JavaScript string is the list of its code units ([jsstring]); the
      regular expressions of the sources only ever distinguish the three
      characters [<], [>] and [|], and they are matched code unit by code
      unit (none carries the [u] flag).
    - A JavaScript number that the code uses as an integer (a loop counter,
      a delay in milliseconds, a byte, a sample rate) is a [Z].
    - An [async] function is a computation in the monad [M]: it threads the
      state of the outside world and a trace of the observable actions, and
      it either returns a value or throws. [await] is sequencing.
    - A thrown value is the record of the three properties that the retry
      policy reads. Its message is [undefined] or a primitive, so that the
      call of [includes] on a message that is no string is followed to the
      [TypeError] it throws. *)

From Stdlib Require Import ZArith List Ascii String Strings.Byte Lia Bool.
From stdpp Require Import base option list gmap.
From Equations Require Import Equations.
Import ListNotations.

Local Open Scope Z_scope.

(* ===================================================================== *)
(** * JavaScript strings *)
(* ===================================================================== *)

Module JS.

Definition jsstring : Type := list ascii.

(** A string literal of the source. *)
Definition str (s : string) : jsstring := list_ascii_of_string s.

(** The double quote, which a literal cannot hold. *)
Definition dquote : jsstring := [ascii_of_nat 34].

(** The line feed of a template literal that spans lines. *)
Definition newline : jsstring := [ascii_of_nat 10].

(** [s.startsWith(p)] *)
Fixpoint startsWith (s p : jsstring) {struct p} : bool :=
  match p, s with
  | [], _ => true
  | _ :: _, [] => false
  | c :: p', d :: s' => Ascii.eqb d c && startsWith s' p'
  end.

(** [s.endsWith(p)] *)
Definition endsWith (s p : jsstring) : bool :=
  startsWith (rev s) (rev p).

(** [s.includes(p)] *)
Fixpoint includes (s p : jsstring) : bool :=
  startsWith s p ||
  match s with
  | [] => false
  | _ :: s' => includes s' p
  end.

(** [s.slice(2, -2)]: from index [min 2 len] up to index [max (len - 2) 0],
    empty when the bounds cross. *)
Definition slice_2_m2 (s : jsstring) : jsstring :=
  firstn (List.length s - 2 - 2) (skipn 2 s).

(** [s.substring(0, n)] *)
Definition substring0 (n : nat) (s : jsstring) : jsstring := firstn n s.

(** [s.split(c)] for a one-character separator: the pieces between the
    occurrences of [c]; never the empty array. *)
Fixpoint split_on (c : ascii) (s : jsstring) : list jsstring :=
  match s with
  | [] => [[]]
  | d :: s' =>
      if Ascii.eqb d c then [] :: split_on c s'
      else match split_on c s' with
           | [] => [[d]]
           | p :: ps => (d :: p) :: ps
           end
  end.

(** [xs.join(sep)] *)
Fixpoint join (sep : jsstring) (xs : list jsstring) : jsstring :=
  match xs with
  | [] => []
  | [x] => x
  | x :: xs' => x ++ sep ++ join sep xs'
  end.

(** No character of [s] is [c]. *)
Definition lacks (c : ascii) (s : jsstring) : bool :=
  forallb (fun d => negb (Ascii.eqb d c)) s.

(** The longest prefix of [s] without [c], and the rest. *)
Fixpoint cut (c : ascii) (s : jsstring) : jsstring * jsstring :=
  match s with
  | [] => ([], [])
  | d :: s' =>
      if Ascii.eqb d c then ([], s)
      else let (body, rest) := cut c s' in (d :: body, rest)
  end.

(** Truthiness of a string: the empty string is falsy. *)
Definition truthy (s : jsstring) : bool :=
  match s with [] => false | _ :: _ => true end.

(** Truthiness of a possibly [undefined] string. *)
Definition truthy_opt (o : option jsstring) : bool :=
  match o with Some s => truthy s | None => false end.

End JS.
Import JS.

(* ===================================================================== *)
(** * Asynchronous computations *)
(* ===================================================================== *)

(** The value of a property that the code tests for truthiness and asks for
    a method: [undefined] (also when the property is absent) or another
    primitive; a number is an integer here. *)
Inductive js_value : Type :=
| JSUndefined
| JSNull
| JSBoolean (b : bool)
| JSNumber (n : Z)
| JSString (s : jsstring).

(** Truthiness of a primitive. *)
Definition truthy_value (v : js_value) : bool :=
  match v with
  | JSUndefined | JSNull => false
  | JSBoolean b => b
  | JSNumber n => negb (n =? 0)
  | JSString s => truthy s
  end.

(** The fields of a thrown value that the code inspects. [status] and
    [code] are only compared with the number 429 by [===], so that a field
    which is absent or holds no number is [None]. [new Error(m)] has only a
    message. *)
Record js_error : Type := mkError {
  status : option Z;
  code : option Z;
  message : js_value
}.

Definition new_Error (m : string) : js_error :=
  mkError None None (JSString (str m)).

(** What the code writes to the console. *)
Inductive console_line : Type :=
| WarnRateLimit (waitTime : Z)
| ErrorLeftovers (e : js_error)
| ErrorImage (e : js_error)
| ErrorStepImage (e : js_error)
| ErrorAudio (e : js_error)
| ErrorBackgroundVisual (i : nat) (e : js_error).

(** The observable actions, in the order they happen. *)
Inductive event : Type :=
| Called                      (* [withRetry] invokes the operation *)
| Waited (ms : Z)             (* the backoff timer of [withRetry] ran out *)
| Paced (ms : Z)              (* the pacing timer of the image loop ran out *)
| Console (l : console_line)
| Requested (model : jsstring) (prompt : jsstring)
                              (* a request goes to the endpoint *)
| Responded                   (* the pending request settles *)
| StepImageSet (i : nat) (url : jsstring).
                              (* [setStepImages] merges an image *)

Inductive outcome (A : Type) : Type :=
| Returned (a : A)
| Threw (e : js_error).
Arguments Returned {A} a.
Arguments Threw {A} e.

Record state (W : Type) : Type := mkState {
  world : W;
  trace : list event
}.
Arguments mkState {W} world trace.
Arguments world {W} s.
Arguments trace {W} s.

Definition M (W A : Type) : Type := state W -> outcome A * state W.

Definition ret {W A} (a : A) : M W A := fun s => (Returned a, s).

Definition throw {W A} (e : js_error) : M W A := fun s => (Threw e, s).

Definition bind {W A B} (m : M W A) (k : A -> M W B) : M W B :=
  fun s =>
    match m s with
    | (Returned a, s') => k a s'
    | (Threw e, s') => (Threw e, s')
    end.

(** [try { m } catch (e) { h e }] *)
Definition try_catch {W A} (m : M W A) (h : js_error -> M W A) : M W A :=
  fun s =>
    match m s with
    | (Returned a, s') => (Returned a, s')
    | (Threw e, s') => h e s'
    end.

Definition emit {W} (ev : event) : M W unit :=
  fun s => (Returned tt, mkState (world s) (trace s ++ [ev])).

(** An action of the outside world that cannot fail. *)
Definition act {W} (f : W -> W) : M W unit :=
  fun s => (Returned tt, mkState (f (world s)) (trace s)).

(** An operation of the outside world, which returns or throws. *)
Definition perform {W A} (op : W -> outcome A * W) : M W A :=
  fun s => let (r, w') := op (world s) in (r, mkState w' (trace s)).

Declare Scope async_scope.
Delimit Scope async_scope with async.
Notation "x <- m ;; k" := (bind m (fun x => k))
  (at level 100, m at next level, right associativity) : async_scope.
Notation "m ;;; k" := (bind m (fun _ => k))
  (at level 100, right associativity) : async_scope.
Local Open Scope async_scope.

(** What the environment does while the code sleeps on a timer. *)
Class Clock (W : Type) : Type := {
  sleep : Z -> W -> W
}.

(** [const delay = (ms) => new Promise(resolve => setTimeout(resolve, ms))] *)
Definition delay {W} `{Clock W} (ms : Z) : M W unit :=
  act (sleep ms) ;;; emit (Waited ms).

(* ===================================================================== *)
(** * The retry policy: [withRetry] *)
(* ===================================================================== *)

Module Retry.

(** Is a number field the number 429? *)
Definition is_429 (o : option Z) : bool :=
  match o with Some n => n =? 429 | None => false end.

(** What the engine throws when the code calls [error.message.includes]
    and the message has no such method. *)
Definition not_a_function : js_error :=
  new_Error "error.message.includes is not a function".

(** [error?.message && error.message.includes(p)], as a condition. A falsy
    message ends the [&&]; a string has the method [includes]; a truthy
    number or boolean has none, and the call throws a [TypeError]. *)
Definition message_includes (e : js_error) (p : string) : outcome bool :=
  match message e with
  | JSString m => Returned (truthy m && includes m (str p))
  | v => if truthy_value v then Threw not_a_function else Returned false
  end.

(** The condition [isRateLimit] of the [catch] block. [||] evaluates its
    operands from the left and stops at the first truthy one, and an
    operand that throws ends the evaluation. *)
Definition isRateLimit (e : js_error) : outcome bool :=
  if is_429 (status e) || is_429 (code e) then Returned true
  else match message_includes e "429" with
       | Returned false => message_includes e "quota"
       | decided => decided
       end.

Definition max_retries_exceeded : js_error := new_Error "Max retries exceeded".

Section WithRetry.
Context {W : Type} `{Clock W} {T : Type}.

(** The [for] loop from counter [i] on, followed by the statement [after].
    [n] counts the iterations that the guard [i < retries] still admits.
    An error thrown while the [catch] block evaluates its condition leaves
    the function: the block is outside its own [try]. [waitTime] is the
    exact product; the double of the source is that integer as long as it
    stays below 2^53, and the timer honours a delay from 0 up to
    2^31 - 1 ms. *)
Fixpoint retry_loop (after : M W T) (fn : M W T) (retries baseDelay : Z)
    (n : nat) (i : Z) : M W T :=
  match n with
  | O => after
  | S n' =>
      try_catch (emit Called ;;; fn)
        (fun error =>
           match isRateLimit error with
           | Returned rateLimit =>
               if rateLimit && (i <? retries - 1) then
                 let waitTime := baseDelay * 2 ^ i in
                 emit (Console (WarnRateLimit waitTime)) ;;;
                 delay waitTime ;;;
                 retry_loop after fn retries baseDelay n' (i + 1)
               else throw error
           | Threw typeError => throw typeError
           end)
  end.

Definition withRetry (fn : M W T) (retries baseDelay : Z) : M W T :=
  retry_loop (throw max_retries_exceeded) fn retries baseDelay
    (Z.to_nat retries) 0.

(** The state once [withRetry] has logged that it invokes the operation. *)
Definition called (s : state W) : state W :=
  mkState (world s) (trace s ++ [Called]).

(** The state once a backoff of [ms] milliseconds is over. *)
Definition backed_off (ms : Z) (s : state W) : state W :=
  mkState (sleep ms (world s))
    (trace s ++ [Console (WarnRateLimit ms); Waited ms]).

(** The attempts of a run that starts in [s], as the policy words them:
    attempt 0 starts in [s]; attempt [i + 1] starts when attempt [i] has
    thrown an error that is taken for a rate limit, after the backoff of
    [baseDelay * 2 ^ i] ms. [attempt fn baseDelay s i t] says that attempt
    [i] starts in [t]. *)
Inductive attempt (fn : M W T) (baseDelay : Z) (s : state W)
    : Z -> state W -> Prop :=
| attempt_first : attempt fn baseDelay s 0 s
| attempt_next (i : Z) (t : state W) (e : js_error) (t' : state W) :
    attempt fn baseDelay s i t ->
    fn (called t) = (Threw e, t') ->
    isRateLimit e = Returned true ->
    attempt fn baseDelay s (i + 1) (backed_off (baseDelay * 2 ^ i) t').

(** How attempt [i] of [retries] ends the run, given the result of its
    invocation: with a value; with an error of the operation that is not
    taken for a rate limit, or any error it classifies at the last counter;
    or with the error that the condition of the [catch] block throws. *)
Inductive ends (retries i : Z) : outcome T -> outcome T -> Prop :=
| ends_returned (v : T) : ends retries i (Returned v) (Returned v)
| ends_rethrown (e : js_error) (rateLimit : bool) :
    isRateLimit e = Returned rateLimit ->
    rateLimit && (i <? retries - 1) = false ->
    ends retries i (Threw e) (Threw e)
| ends_condition (e typeError : js_error) :
    isRateLimit e = Threw typeError ->
    ends retries i (Threw e) (Threw typeError).

End WithRetry.

End Retry.

(* ===================================================================== *)
(** * Regular expressions, [split] and [replace] *)
(* ===================================================================== *)

Module Regex.

(** The fragment of the regular expression syntax that the sources use. *)
Inductive re : Type :=
| Chr (c : ascii)           (* the character [c] *)
| NotChrPlus (c : ascii)    (* [[^c]+], greedy *)
| Seq (r1 r2 : re)          (* [r1 r2] *)
| Group (r : re).           (* [( r )], capturing *)

Section Matcher.
Context {R : Type}.

(** [[^c]+] before the continuation [k]: greedy, so the longer run is
    tried first, and a character is given back only when that fails. *)
Fixpoint greedy_not (c : ascii) (k : jsstring -> option R) (s : jsstring)
    : option R :=
  match s with
  | d :: s' =>
      if Ascii.eqb d c then None
      else match greedy_not c k s' with
           | Some res => Some res
           | None => k s'
           end
  | [] => None
  end.

(** The backtracking matcher, in continuation-passing style: [k] is what
    must still match after [r]. The captures are listed in the order of
    their groups (no group of the sources is nested in another). *)
Fixpoint run (r : re) (k : jsstring -> list jsstring -> option R)
    (s : jsstring) (caps : list jsstring) : option R :=
  match r with
  | Chr c =>
      match s with
      | d :: s' => if Ascii.eqb d c then k s' caps else None
      | [] => None
      end
  | NotChrPlus c => greedy_not c (fun s' => k s' caps) s
  | Seq r1 r2 => run r1 (fun s' caps' => run r2 k s' caps') s caps
  | Group r1 =>
      run r1
        (fun s' caps' =>
           k s' (caps' ++ [firstn (List.length s - List.length s') s]))
        s caps
  end.

End Matcher.

(** One attempt to match at the start of [s]: the number of characters the
    match takes and the captures. *)
Definition exec (r : re) (s : jsstring) : option (nat * list jsstring) :=
  run r (fun s' caps => Some ((List.length s - List.length s')%nat, caps)) s [].

(** [String.prototype.split] with a regular expression: the loop over the
    positions [q], with [acc] the characters since the end [p] of the last
    match, most recent first. A match is followed by its captures. *)
Equations? split_loop (r : re) (acc s : jsstring) : list jsstring
    by wf (List.length s) lt :=
  split_loop r acc [] := [rev acc];
  split_loop r acc (c :: s') with exec r (c :: s') => {
    | Some (S n, caps) =>
        rev acc :: caps ++ split_loop r [] (skipn n s')
    | Some (O, caps) =>
        match acc with
        | [] => split_loop r [c] s'
        | _ :: _ => rev acc :: caps ++ split_loop r [c] s'
        end
    | None => split_loop r (c :: acc) s' }.
Proof. all: try (simpl; lia). rewrite length_skipn. simpl. lia. Qed.

Definition split (r : re) (s : jsstring) : list jsstring :=
  match s with
  | [] => match exec r [] with Some _ => [] | None => [[]] end
  | _ :: _ => split_loop r [] s
  end.

(** The replacement patterns of [String.prototype.replace] that the sources
    use: [$n] for the [n]-th capture (one digit, for fewer than ten groups;
    kept as it stands when there is no such group), [$$] and [$&]. *)
Definition digit_of (c : ascii) : option nat :=
  let n := nat_of_ascii c in
  if (49 <=? n)%nat && (n <=? 57)%nat then Some (n - 48)%nat else None.

Fixpoint substitution (template matched : jsstring) (caps : list jsstring)
    : jsstring :=
  match template with
  | [] => []
  | c :: t =>
      if Ascii.eqb c "$" then
        match t with
        | d :: t' =>
            if Ascii.eqb d "$" then d :: substitution t' matched caps
            else if Ascii.eqb d "&" then matched ++ substitution t' matched caps
            else match digit_of d with
                 | Some n =>
                     match nth_error caps (n - 1) with
                     | Some cap => cap ++ substitution t' matched caps
                     | None => c :: d :: substitution t' matched caps
                     end
                 | None => c :: substitution t matched caps
                 end
        | [] => [c]
        end
      else c :: substitution t matched caps
  end.

(** [s.replace(r, template)] for a regular expression with the [g] flag:
    every match, leftmost first and without overlap, is replaced. *)
Equations? replace_loop (r : re) (template : jsstring) (s : jsstring)
    : jsstring by wf (List.length s) lt :=
  replace_loop r template [] :=
    match exec r [] with
    | Some (_, caps) => substitution template [] caps
    | None => []
    end;
  replace_loop r template (c :: s') with exec r (c :: s') => {
    | Some (S n, caps) =>
        substitution template (firstn (S n) (c :: s')) caps
          ++ replace_loop r template (skipn n s')
    | Some (O, caps) =>
        substitution template [] caps ++ c :: replace_loop r template s'
    | None => c :: replace_loop r template s' }.
Proof. all: try (simpl; lia). rewrite length_skipn. simpl. lia. Qed.

Definition replace (r : re) (template : string) (s : jsstring) : jsstring :=
  replace_loop r (str template) s.

(** A stretch [u], followed by [rest], none of whose positions starts a
    match: the loops pass over it. *)
Definition silent (r : re) (u rest : jsstring) : Prop :=
  forall u1 c u2, u = u1 ++ c :: u2 -> exec r (c :: u2 ++ rest) = None.

End Regex.

(* ===================================================================== *)
(** * The instruction markup: [<<name|quantity>>] *)
(* ===================================================================== *)

Module Markup.
Import Regex.

Local Open Scope char_scope.

(** [/(<<[^>]+>>)/g] of [RichInstruction] *)
Definition re_render : re :=
  Group (Seq (Chr "<") (Seq (Chr "<")
    (Seq (NotChrPlus ">") (Seq (Chr ">") (Chr ">"))))).

(** [/<<([^|]+)\|[^>]+>>/g] of [generateStepVisual] *)
Definition re_clean : re :=
  Seq (Chr "<") (Seq (Chr "<")
    (Seq (Group (NotChrPlus "|")) (Seq (Chr "|")
      (Seq (NotChrPlus ">") (Seq (Chr ">") (Chr ">")))))).

(** [/<<([^|]+)\|([^>]+)>>/g] of [generateStepAudio] *)
Definition re_speech : re :=
  Seq (Chr "<") (Seq (Chr "<")
    (Seq (Group (NotChrPlus "|")) (Seq (Chr "|")
      (Seq (Group (NotChrPlus ">")) (Seq (Chr ">") (Chr ">")))))).

Local Close Scope char_scope.

(** What [RichInstruction] renders for one part: a plain [<span>], or an
    [IngredientTooltip] that shows the name and discloses the quantity. *)
Inductive token : Type :=
| Text (part : jsstring)
| IngredientTooltip (name quantity : jsstring).

(** The callback of [parts.map]. *)
Definition render_part (part : jsstring) : token :=
  if startsWith part (str "<<") && endsWith part (str ">>") then
    let content := slice_2_m2 part in
    match split_on "|"%char content with
    | name :: quantity :: _ =>
        if truthy name && truthy quantity then IngredientTooltip name quantity
        else Text part
    | _ => Text part
    end
  else Text part.

Definition RichInstruction (text : jsstring) : list token :=
  map render_part (split re_render text).

(** The text a token shows inline; the quantity is only in the tooltip. *)
Definition visible (t : token) : jsstring :=
  match t with
  | Text part => part
  | IngredientTooltip name _ => name
  end.

Definition visible_text (ts : list token) : jsstring :=
  concat (map visible ts).

(** [cleanText] of [generateStepVisual] *)
Definition cleanText (text : jsstring) : jsstring :=
  replace re_clean "$1" text.

(** [spokenText] of [generateStepAudio] *)
Definition spokenText (text : jsstring) : jsstring :=
  replace re_speech "$2 of $1" text.

(** ** Texts with annotations

    A text seen as a leading literal stretch and then, for every
    annotation, its name, its quantity and the literal stretch that follows
    it. *)
Definition marked : Type := jsstring * list (jsstring * jsstring * jsstring).

(** [<<name|quantity>>] *)
Definition annotation (name quantity : jsstring) : jsstring :=
  str "<<" ++ name ++ str "|" ++ quantity ++ str ">>".

(** The text as written. *)
Definition source (m : marked) : jsstring :=
  fst m ++ flat_map (fun '(name, quantity, lit) =>
                       annotation name quantity ++ lit) (snd m).

(** The text with every annotation replaced by its name. *)
Definition with_names (m : marked) : jsstring :=
  fst m ++ flat_map (fun '(name, _, lit) => name ++ lit) (snd m).

(** The text with every annotation replaced by "quantity of name". *)
Definition with_phrases (m : marked) : jsstring :=
  fst m ++ flat_map (fun '(name, quantity, lit) =>
                       quantity ++ str " of " ++ name ++ lit) (snd m).

(** One token for every stretch and every annotation, in order. *)
Definition tokens_of (m : marked) : list token :=
  Text (fst m)
    :: flat_map (fun '(name, quantity, lit) =>
                   [IngredientTooltip name quantity; Text lit]) (snd m).

(** All stretches and annotations as plain tokens. *)
Definition literal_tokens_of (m : marked) : list token :=
  Text (fst m)
    :: flat_map (fun '(name, quantity, lit) =>
                   [Text (annotation name quantity); Text lit]) (snd m).

(** A literal stretch in which every [<] is followed by a character other
    than [<]: no [<<] in it, and no [<] at its end. *)
Fixpoint plain (s : jsstring) : bool :=
  match s with
  | [] => true
  | c :: s' =>
      (if Ascii.eqb c "<"
       then match s' with
            | d :: _ => negb (Ascii.eqb d "<")
            | [] => false
            end
       else true)
      && plain s'
  end.

(** A name or a quantity as the three expressions all read it: not empty,
    and without [|] and [>]. *)
Definition field_ok (x : jsstring) : bool :=
  truthy x && lacks "|" x && lacks ">" x.

Definition well_formed (m : marked) : bool :=
  plain (fst m)
  && forallb (fun '(name, quantity, lit) =>
                field_ok name && field_ok quantity && plain lit) (snd m).

(** A name or a quantity as the specification words it: not empty, and
    without [|] and without [>>]. *)
Definition field_as_specified (x : jsstring) : bool :=
  truthy x && lacks "|" x && negb (includes x (str ">>")).

Definition well_formed_as_specified (m : marked) : bool :=
  plain (fst m)
  && forallb (fun '(name, quantity, lit) =>
                field_as_specified name && field_as_specified quantity
                && plain lit) (snd m).

(** A word without any of the three characters of the markup. *)
Definition bare (x : jsstring) : bool :=
  lacks "<" x && lacks ">" x && lacks "|" x.

(** Delimited spans whose name or whose quantity is empty, between plain
    stretches. *)
Definition malformed (m : marked) : bool :=
  plain (fst m)
  && forallb (fun '(name, quantity, lit) =>
                (negb (truthy name) || negb (truthy quantity))
                && bare name && bare quantity && plain lit) (snd m).

(** No [>>] comes after the first [<<] of the text: every [<<] of it is
    unterminated. *)
Fixpoint unterminated (s : jsstring) : bool :=
  if startsWith s (str "<<") then negb (includes (skipn 2 s) (str ">>"))
  else match s with
       | [] => true
       | _ :: s' => unterminated s'
       end.

End Markup.

(* ===================================================================== *)
(** * The audio transcoder: [pcmToWav] *)
(* ===================================================================== *)

Module Wav.

(** The low eight bits of an integer, as [setUint8] stores them. *)
Definition byte_of_Z (v : Z) : byte :=
  byte_of_ascii (ascii_of_N (Z.to_N (v mod 256))).

Definition Z_of_byte (b : byte) : Z := Z.of_N (Byte.to_N b).

(** [string.charCodeAt(i)], stored in a [Uint8Array]. *)
Definition charCode (c : ascii) : byte := byte_of_ascii c.

(** [new ArrayBuffer(n)]: [n] zero bytes. *)
Definition ArrayBuffer (n : nat) : list byte := repeat Byte.x00 n.

(** The [DataView] setters. Each checks its whole range first and throws a
    [RangeError] ([None]) without writing when it does not fit. *)
Definition setUint8 (view : list byte) (offset : nat) (v : Z)
    : option (list byte) :=
  if (offset + 1 <=? List.length view)%nat
  then Some (<[offset := byte_of_Z v]> view)
  else None.

(** [view.setUint16(offset, v, true)]: little-endian *)
Definition setUint16 (view : list byte) (offset : nat) (v : Z)
    : option (list byte) :=
  if (offset + 2 <=? List.length view)%nat
  then Some (<[S offset := byte_of_Z (v / 256)]>
              (<[offset := byte_of_Z v]> view))
  else None.

(** [view.setUint32(offset, v, true)]: little-endian *)
Definition setUint32 (view : list byte) (offset : nat) (v : Z)
    : option (list byte) :=
  if (offset + 4 <=? List.length view)%nat
  then Some (<[S (S (S offset)) := byte_of_Z (v / 16777216)]>
              (<[S (S offset) := byte_of_Z (v / 65536)]>
                (<[S offset := byte_of_Z (v / 256)]>
                  (<[offset := byte_of_Z v]> view))))
  else None.

(** The matching getters, to read a header field back. *)
Definition getUint16 (view : list byte) (offset : nat) : option Z :=
  b0 ← view !! offset;
  b1 ← view !! S offset;
  Some (Z_of_byte b0 + 256 * Z_of_byte b1).

Definition getUint32 (view : list byte) (offset : nat) : option Z :=
  b0 ← view !! offset;
  b1 ← view !! S offset;
  b2 ← view !! S (S offset);
  b3 ← view !! S (S (S offset));
  Some (Z_of_byte b0 + 256 * Z_of_byte b1 + 65536 * Z_of_byte b2
        + 16777216 * Z_of_byte b3).

(** [function writeString(view, offset, string)] *)
Fixpoint writeString (view : list byte) (offset : nat) (string : jsstring)
    : option (list byte) :=
  match string with
  | [] => Some view
  | c :: rest =>
      view' ← setUint8 view offset (Z_of_byte (charCode c));
      writeString view' (S offset) rest
  end.

(** [new Uint8Array(buffer, offset).set(source)]: a [RangeError] when the
    source is longer than the room after [offset]. *)
Definition set_at (buffer : list byte) (offset : nat) (source : list byte)
    : option (list byte) :=
  if (offset + List.length source <=? List.length buffer)%nat
  then Some (firstn offset buffer ++ source
               ++ skipn (offset + List.length source) buffer)
  else None.

(** The little-endian bytes of a 16-bit and of a 32-bit field. *)
Definition le16 (v : Z) : list byte :=
  [byte_of_Z v; byte_of_Z (v / 256)].

Definition le32 (v : Z) : list byte :=
  [byte_of_Z v; byte_of_Z (v / 256); byte_of_Z (v / 65536);
   byte_of_Z (v / 16777216)].

(** The 44 bytes of the canonical RIFF/WAVE header of [dataSize] bytes of
    mono 16-bit linear PCM: the layout that the writes of [pcmToWav] are
    compared with. *)
Definition header (sampleRate dataSize : Z) : list byte :=
  map charCode (str "RIFF") ++ le32 (36 + dataSize)
  ++ map charCode (str "WAVE")
  ++ map charCode (str "fmt ") ++ le32 16          (* size of the fmt chunk *)
  ++ le16 1                                        (* format tag: PCM *)
  ++ le16 1                                        (* channels *)
  ++ le32 sampleRate
  ++ le32 (sampleRate * 1 * 16 / 8)                (* byte rate *)
  ++ le16 (1 * 16 / 8)                             (* block align *)
  ++ le16 16                                       (* bits per sample *)
  ++ map charCode (str "data") ++ le32 dataSize.

Record Blob : Type := mkBlob {
  blob_bytes : list byte;
  blob_type : jsstring
}.

Definition pcmToWav (pcmData : list byte) (sampleRate : Z) : option Blob :=
  let numChannels := 1 in
  let bitsPerSample := 16 in
  let byteRate := (sampleRate * numChannels * bitsPerSample) / 8 in
  let blockAlign := (numChannels * bitsPerSample) / 8 in
  let dataSize := Z.of_nat (List.length pcmData) in
  let buffer := ArrayBuffer (44 + List.length pcmData) in
  (* RIFF chunk descriptor *)
  view ← writeString buffer 0 (str "RIFF");
  view ← setUint32 view 4 (36 + dataSize);
  view ← writeString view 8 (str "WAVE");
  (* fmt sub-chunk *)
  view ← writeString view 12 (str "fmt ");
  view ← setUint32 view 16 16;
  view ← setUint16 view 20 1;
  view ← setUint16 view 22 numChannels;
  view ← setUint32 view 24 sampleRate;
  view ← setUint32 view 28 byteRate;
  view ← setUint16 view 32 blockAlign;
  view ← setUint16 view 34 bitsPerSample;
  (* data sub-chunk *)
  view ← writeString view 36 (str "data");
  view ← setUint32 view 40 dataSize;
  (* the PCM data *)
  buffer ← set_at view 44 pcmData;
  Some (mkBlob buffer (str "audio/wav")).

End Wav.

(* ===================================================================== *)
(** * JSON values and response schemas *)
(* ===================================================================== *)

Module Json.

Local Unset Elimination Schemes.

(** What [JSON.parse] returns. A number keeps its lexeme. *)
Inductive json : Type :=
| JNull
| JBool (b : bool)
| JNumber (lexeme : jsstring)
| JString (s : jsstring)
| JArray (items : list json)
| JObject (fields : list (jsstring * json)).

(** [obj[k]]: of two fields with one key, [JSON.parse] keeps the later. *)
Fixpoint get (k : jsstring) (fields : list (jsstring * json)) : option json :=
  match fields with
  | [] => None
  | (k', v) :: rest =>
      match get k rest with
      | Some v' => Some v'
      | None => if bool_decide (k = k') then Some v else None
      end
  end.

(** The part of [Schema] of [@google/genai] that the two schemas use. *)
Inductive schema : Type :=
| SString (enum : option (list jsstring)) (nullable : bool)
| SArray (items : schema)
| SObject (properties : list (jsstring * schema)) (required : list jsstring).

Local Set Elimination Schemes.

(** Does a value have the shape of a schema: the required fields are
    there, and every declared field that is there has its shape. *)
Fixpoint conforms (sc : schema) (v : json) {struct sc} : bool :=
  match sc, v with
  | SString enum _, JString s =>
      match enum with
      | Some allowed => bool_decide (s ∈ allowed)
      | None => true
      end
  | SString _ nullable, JNull => nullable
  | SArray items, JArray xs => forallb (conforms items) xs
  | SObject properties required, JObject fields =>
      forallb (fun k => bool_decide (is_Some (get k fields))) required &&
      forallb (fun p =>
                 match p with
                 | (k, sc') =>
                     match get k fields with
                     | Some v' => conforms sc' v'
                     | None => true
                     end
                 end) properties
  | _, _ => false
  end.

(** [recipeSchema] *)
Definition recipeSchema : schema :=
  SObject
    [ (str "title", SString None false);
      (str "description", SString None false);
      (str "ingredients", SArray (SString None false));
      (str "steps",
        SArray
          (SObject
             [ (str "instruction", SString None false);
               (str "type",
                 SString (Some [str "PREP"; str "COOK"; str "TIMING"]) false);
               (str "insight", SString None true) ]
             [str "instruction"; str "type"])) ]
    [str "title"; str "description"; str "ingredients"; str "steps"].

(** [leftoverSchema] *)
Definition leftoverSchema : schema :=
  SArray
    (SObject
       [ (str "title", SString None false);
         (str "description", SString None false);
         (str "matchingIngredients", SArray (SString None false)) ]
       [str "title"; str "description"; str "matchingIngredients"]).

(** ** A parser for JSON texts

    The grammar of ECMA-404 over texts of 8-bit code units; an escape
    [\uXXXX] above [\u00ff] names a code unit that [jsstring] does not
    have and is refused. [fuel] bounds the depth of the recursion; a value
    takes at least one character, and the entry point gives two units for
    every character of the text. *)

Local Open Scope char_scope.

Definition is_ws (c : ascii) : bool :=
  Ascii.eqb c " " || Ascii.eqb c (ascii_of_nat 9)
  || Ascii.eqb c (ascii_of_nat 10) || Ascii.eqb c (ascii_of_nat 13).

Fixpoint skip_ws (s : jsstring) : jsstring :=
  match s with
  | c :: s' => if is_ws c then skip_ws s' else s
  | [] => []
  end.

Definition is_digit (c : ascii) : bool :=
  (48 <=? nat_of_ascii c)%nat && (nat_of_ascii c <=? 57)%nat.

Fixpoint span_digits (s : jsstring) : jsstring * jsstring :=
  match s with
  | c :: s' =>
      if is_digit c then let (ds, r) := span_digits s' in (c :: ds, r)
      else ([], s)
  | [] => ([], [])
  end.

Definition hex_value (c : ascii) : option nat :=
  let n := nat_of_ascii c in
  if is_digit c then Some (n - 48)%nat
  else if (65 <=? n)%nat && (n <=? 70)%nat then Some (n - 55)%nat
  else if (97 <=? n)%nat && (n <=? 102)%nat then Some (n - 87)%nat
  else None.

(** The code unit of [\u h1 h2 h3 h4], when it is below 256. *)
Definition unicode_escape (h1 h2 h3 h4 : ascii) : option ascii :=
  a ← hex_value h1; b ← hex_value h2; c ← hex_value h3; d ← hex_value h4;
  if ((a =? 0) && (b =? 0))%nat then Some (ascii_of_nat (16 * c + d))
  else None.

Definition simple_escape (e : ascii) : option ascii :=
  if Ascii.eqb e (ascii_of_nat 34) then Some e
  else if Ascii.eqb e "\" then Some e
  else if Ascii.eqb e "/" then Some e
  else if Ascii.eqb e "b" then Some (ascii_of_nat 8)
  else if Ascii.eqb e "f" then Some (ascii_of_nat 12)
  else if Ascii.eqb e "n" then Some (ascii_of_nat 10)
  else if Ascii.eqb e "r" then Some (ascii_of_nat 13)
  else if Ascii.eqb e "t" then Some (ascii_of_nat 9)
  else None.

(** The characters of a string after its opening quote, and what follows
    the closing one. *)
Fixpoint parse_string_body (s : jsstring) : option (jsstring * jsstring) :=
  match s with
  | [] => None
  | c :: s' =>
      if Ascii.eqb c (ascii_of_nat 34) then Some ([], s')
      else if Ascii.eqb c "\" then
        match s' with
        | e :: s'' =>
            if Ascii.eqb e "u" then
              match s'' with
              | h1 :: h2 :: h3 :: h4 :: s3 =>
                  ch ← unicode_escape h1 h2 h3 h4;
                  '(body, r) ← parse_string_body s3;
                  Some (ch :: body, r)
              | _ => None
              end
            else
              ch ← simple_escape e;
              '(body, r) ← parse_string_body s'';
              Some (ch :: body, r)
        | [] => None
        end
      else if (nat_of_ascii c <? 32)%nat then None
      else '(body, r) ← parse_string_body s'; Some (c :: body, r)
  end.

(** A number: an optional minus sign; a zero, or a digit from 1 to 9 and
    any digits; an optional fraction, a point and at least one digit; an
    optional exponent, [e] or [E], an optional sign and at least one
    digit. *)
Definition parse_number (s : jsstring) : option (jsstring * jsstring) :=
  let (sign, s1) :=
    match s with
    | c :: r => if Ascii.eqb c "-" then ([c], r) else ([], s)
    | [] => ([], s)
    end in
  '(int, s2) ←
    match s1 with
    | c :: r =>
        if Ascii.eqb c "0" then Some ([c], r)
        else if is_digit c then
          let (ds, r') := span_digits r in Some (c :: ds, r')
        else None
    | [] => None
    end;
  '(frac, s3) ←
    match s2 with
    | c :: r =>
        if Ascii.eqb c "." then
          let (ds, r') := span_digits r in
          match ds with [] => None | _ :: _ => Some (c :: ds, r') end
        else Some ([], s2)
    | [] => Some ([], s2)
    end;
  '(exp, s4) ←
    match s3 with
    | c :: r =>
        if Ascii.eqb c "e" || Ascii.eqb c "E" then
          let (sg, r1) :=
            match r with
            | d :: r0 =>
                if Ascii.eqb d "+" || Ascii.eqb d "-" then ([d], r0)
                else ([], r)
            | [] => ([], r)
            end in
          let (ds, r') := span_digits r1 in
          match ds with [] => None | _ :: _ => Some (c :: sg ++ ds, r') end
        else Some ([], s3)
    | [] => Some ([], s3)
    end;
  Some (sign ++ int ++ frac ++ exp, s4).

(** The rest of [s] after the literal [lit], when [s] starts with it. *)
Definition expect (lit : string) (s : jsstring) : option jsstring :=
  if startsWith s (str lit) then Some (skipn (List.length (str lit)) s)
  else None.

Fixpoint parse_value (fuel : nat) (s : jsstring) {struct fuel}
    : option (json * jsstring) :=
  match fuel with
  | O => None
  | S fuel' =>
      match skip_ws s with
      | [] => None
      | c :: r =>
          if Ascii.eqb c "{" then
            match skip_ws r with
            | d :: r' =>
                if Ascii.eqb d "}" then Some (JObject [], r')
                else '(fs, r'') ← parse_members fuel' (d :: r');
                     Some (JObject fs, r'')
            | [] => None
            end
          else if Ascii.eqb c "[" then
            match skip_ws r with
            | d :: r' =>
                if Ascii.eqb d "]" then Some (JArray [], r')
                else '(xs, r'') ← parse_elements fuel' (d :: r');
                     Some (JArray xs, r'')
            | [] => None
            end
          else if Ascii.eqb c (ascii_of_nat 34) then
            '(body, r') ← parse_string_body r; Some (JString body, r')
          else if Ascii.eqb c "t" then
            r' ← expect "true" (c :: r); Some (JBool true, r')
          else if Ascii.eqb c "f" then
            r' ← expect "false" (c :: r); Some (JBool false, r')
          else if Ascii.eqb c "n" then
            r' ← expect "null" (c :: r); Some (JNull, r')
          else '(lexeme, r') ← parse_number (c :: r);
               Some (JNumber lexeme, r')
      end
  end
with parse_elements (fuel : nat) (s : jsstring) {struct fuel}
    : option (list json * jsstring) :=
  match fuel with
  | O => None
  | S fuel' =>
      '(v, r) ← parse_value fuel' s;
      match skip_ws r with
      | c :: r' =>
          if Ascii.eqb c "," then
            '(vs, r'') ← parse_elements fuel' r'; Some (v :: vs, r'')
          else if Ascii.eqb c "]" then Some ([v], r')
          else None
      | [] => None
      end
  end
with parse_members (fuel : nat) (s : jsstring) {struct fuel}
    : option (list (jsstring * json) * jsstring) :=
  match fuel with
  | O => None
  | S fuel' =>
      match skip_ws s with
      | q :: r0 =>
          if Ascii.eqb q (ascii_of_nat 34) then
            '(k, r1) ← parse_string_body r0;
            match skip_ws r1 with
            | colon :: r2 =>
                if Ascii.eqb colon ":" then
                  '(v, r3) ← parse_value fuel' r2;
                  match skip_ws r3 with
                  | c :: r' =>
                      if Ascii.eqb c "," then
                        '(fs, r'') ← parse_members fuel' r';
                        Some ((k, v) :: fs, r'')
                      else if Ascii.eqb c "}" then Some ([(k, v)], r')
                      else None
                  | [] => None
                  end
                else None
            | [] => None
            end
          else None
      | [] => None
      end
  end.

Local Close Scope char_scope.

Definition SyntaxError : js_error := new_Error "Unexpected token in JSON".

(** [JSON.parse(text)]: one value, with nothing but white space after. *)
Definition parse (text : jsstring) : outcome json :=
  match parse_value (2 * List.length text + 2) text with
  | Some (v, r) =>
      match skip_ws r with
      | [] => Returned v
      | _ :: _ => Threw SyntaxError
      end
  | None => Threw SyntaxError
  end.

End Json.

(* ===================================================================== *)
(** * The content generation client *)
(* ===================================================================== *)

Module Client.
Import Retry Markup Wav Json.

(** The [config] of a request. *)
Inductive config : Type :=
| NoConfig
| JsonConfig (responseSchema : schema) (temperature : string)
| SpeechConfig (voiceName : jsstring).

Record request : Type := mkRequest {
  model : jsstring;
  contents : jsstring;
  req_config : config
}.

Record inlineData : Type := mkInlineData {
  mimeType : jsstring;
  data : jsstring
}.

Record part : Type := mkPart {
  part_inlineData : option inlineData
}.

Record content : Type := mkContent {
  parts : option (list part)
}.

Record candidate : Type := mkCandidate {
  candidate_content : option content
}.

Record response : Type := mkResponse {
  text : option jsstring;
  candidates : option (list candidate)
}.

(** The generation endpoint: [ai.models.generateContent], which answers or
    throws, and changes the world as it does. *)
Class Endpoint (W : Type) : Type := {
  endpoint_clock :: Clock W;
  generateContent : request -> W -> outcome response * W
}.

(** [JSON.parse]: a value, or a [SyntaxError] whose message is up to the
    engine. *)
Class JsonParser : Type := {
  JSON_parse : jsstring -> outcome json
}.

(** The browser functions of the audio path: [atob], which throws on a
    string that is not base64, and [URL.createObjectURL]. *)
Class Browser (W : Type) : Type := {
  atob : jsstring -> outcome jsstring;
  createObjectURL : Blob -> W -> jsstring * W
}.

(** The [isMounted] flag of the effect that runs the background loop. The
    cleanup of the effect clears it while the loop is suspended. *)
Class Component (W : Type) : Type := {
  isMounted : W -> bool
}.

(** [xs.join(sep)] of the lines of a template literal. *)
Definition lines (xs : list jsstring) : jsstring := join newline xs.

(** [response.candidates?.[0]?.content?.parts] *)
Definition first_parts (r : response) : option (list part) :=
  cs ← candidates r;
  c ← head cs;
  ct ← candidate_content c;
  parts ct.

(** The loop over the parts that returns the first inline image as a data
    URI, [null] when there is none. *)
Fixpoint first_inline_image (ps : list part) : option jsstring :=
  match ps with
  | [] => None
  | p :: ps' =>
      match part_inlineData p with
      | Some d =>
          Some (str "data:" ++ mimeType d ++ str ";base64," ++ data d)
      | None => first_inline_image ps'
      end
  end.

Definition RangeError : js_error := new_Error "Offset is outside the bounds of the DataView".

Section Operations.
Context {W : Type} `{Endpoint W} `{JsonParser} `{Browser W}.

(** [await ai.models.generateContent(req)], with the request and its
    settling on the trace. *)
Definition call_api (req : request) : M W response :=
  emit (Requested (model req) (contents req)) ;;;
  try_catch
    (r <- perform (generateContent req) ;; emit Responded ;;; ret r)
    (fun e => emit Responded ;;; throw e).

Definition recipe_prompt (query : jsstring) : jsstring :=
  lines
    [ str "Create a detailed cooking recipe based on this request: "
        ++ dquote ++ query ++ dquote ++ str ". ";
      str "  Classify each step accurately as PREP, COOK, or TIMING. ";
      str "  Include helpful, short insights for complex steps.";
      str "  ";
      str "  CRITICAL INSTRUCTION FORMATTING:";
      str "  When an ingredient is mentioned in a step, you MUST wrap it in double angle brackets like this: <<Ingredient Name|Specific Quantity For This Step>>.";
      str "  If the recipe calls for " ++ dquote ++ str "1 cup sugar" ++ dquote
        ++ str " but this step only uses half, write: " ++ dquote
        ++ str "Add <<sugar|1/2 cup>>..." ++ dquote ++ str ".";
      str "  Example: " ++ dquote
        ++ str "Whisk the <<eggs|2>> and <<vanilla|1 tsp>> together." ++ dquote;
      str "  " ].

(** The operation that [generateRecipe] hands to [withRetry]. *)
Definition recipe_attempt (query : jsstring) : M W json :=
  response <- call_api
    (mkRequest (str "gemini-2.5-flash") (recipe_prompt query)
       (JsonConfig recipeSchema "0.3")) ;;
  let text := text response in
  if negb (truthy_opt text) then throw (new_Error "No content generated")
  else match text with
       | Some t => fun s => (JSON_parse t, s)     (* [as Recipe]: no check *)
       | None => throw (new_Error "No content generated")
       end.

Definition generateRecipe (query : jsstring) : M W json :=
  withRetry (recipe_attempt query) 3 2000.

(** The request that [generateRecipe] sends. *)
Definition recipe_request (query : jsstring) : request :=
  mkRequest (str "gemini-2.5-flash") (recipe_prompt query)
    (JsonConfig recipeSchema "0.3").

(** A response whose body is empty, or is not a JSON text. *)
Definition unusable_body (r : response) : Prop :=
  truthy_opt (text r) = false
  \/ exists t e, text r = Some t /\ JSON_parse t = Threw e.

(** An endpoint that refuses every request. *)
Definition always_refuses : Prop :=
  forall req w, exists e w', generateContent req w = (Threw e, w').

Definition leftover_prompt (ingredients : list jsstring)
    (currentTitle : jsstring) : jsstring :=
  lines
    [ str "I just made " ++ dquote ++ currentTitle ++ dquote
        ++ str " using these ingredients: " ++ join (str ", ") ingredients
        ++ str ".";
      str "  Suggest 3 distinct, creative, and simple recipes I could make with the potential leftovers or remaining ingredients from this list.";
      str "  Focus on minimizing food waste." ].

Definition leftover_attempt (ingredients : list jsstring)
    (currentTitle : jsstring) : M W json :=
  response <- call_api
    (mkRequest (str "gemini-2.5-flash")
       (leftover_prompt ingredients currentTitle)
       (JsonConfig leftoverSchema "0.5")) ;;
  match text response with
  | Some t => if truthy t then fun s => (JSON_parse t, s) else ret (JArray [])
  | None => ret (JArray [])
  end.

Definition generateLeftoverSuggestions (ingredients : list jsstring)
    (currentTitle : jsstring) : M W json :=
  try_catch (withRetry (leftover_attempt ingredients currentTitle) 3 2000)
    (fun error => emit (Console (ErrorLeftovers error)) ;;; ret (JArray [])).

Definition visual_prompt (title description : jsstring) : jsstring :=
  lines
    [ str "A minimalistic, artistic, shape-based vector style illustration of "
        ++ title ++ str ". ";
      str "  Description: " ++ description ++ str ". ";
      str "  Style: Flat design, abstract food art, appetizing colors, creamy background. ";
      str "  Not photorealistic. No text in image." ].

(** The operation of the two image requests. *)
Definition image_attempt (prompt : jsstring) : M W (option jsstring) :=
  response <- call_api
    (mkRequest (str "gemini-2.5-flash-image") prompt NoConfig) ;;
  ret (first_inline_image (default [] (first_parts response))).

Definition generateRecipeVisual (title description : jsstring)
    : M W (option jsstring) :=
  try_catch (withRetry (image_attempt (visual_prompt title description)) 3 2000)
    (fun error => emit (Console (ErrorImage error)) ;;; ret None).

(** [contextStr] *)
Definition contextStr (cleanPrevious : list jsstring) : jsstring :=
  if (0 <? Z.of_nat (List.length cleanPrevious))
  then str "PREVIOUS STEPS CONTEXT (The dish state so far): "
         ++ join (str "; ") cleanPrevious ++ str "."
  else str "Start of recipe.".

(** [shortInstruction] *)
Definition shortInstruction (cleanInstruction : jsstring) : jsstring :=
  if (150 <? Z.of_nat (List.length cleanInstruction))
  then substring0 150 cleanInstruction ++ str "..."
  else cleanInstruction.

(** The template of the step prompt around its two holes. *)
Definition step_prompt_of (action context : jsstring) : jsstring :=
  lines
    [ str "Create a simple, flat vector art illustration for this cooking step.";
      str "    ";
      str "    CURRENT ACTION: " ++ dquote ++ action ++ dquote;
      str "    ";
      str "    " ++ context;
      str "    ";
      str "    IMPORTANT VISUAL RULES:";
      str "    1. Depict the CURRENT ACTION.";
      str "    2. VISUAL CONTINUITY: You MUST include the state of the dish from the PREVIOUS STEPS CONTEXT. For example, if beef was added to a pan in a previous step, show the pan WITH beef in it for this step.";
      str "    3. Style: Minimalist, clean lines, pastel colors, instructional diagram style. ";
      str "    4. NO TEXT in the image." ].

Definition step_prompt (instruction : jsstring)
    (previousInstructions : list jsstring) : jsstring :=
  let cleanInstruction := cleanText instruction in
  let cleanPrevious := map cleanText previousInstructions in
  step_prompt_of (shortInstruction cleanInstruction) (contextStr cleanPrevious).

Definition generateStepVisual (instruction : jsstring)
    (previousInstructions : list jsstring) : M W (option jsstring) :=
  try_catch
    (withRetry (image_attempt (step_prompt instruction previousInstructions))
       3 2000)
    (fun error => emit (Console (ErrorStepImage error)) ;;; ret None).

(** [response.candidates?.[0]?.content?.parts?.[0]?.inlineData?.data] *)
Definition first_audio (r : response) : option jsstring :=
  ps ← first_parts r;
  p ← head ps;
  d ← part_inlineData p;
  Some (data d).

Definition audio_attempt (spoken : jsstring) : M W (option jsstring) :=
  response <- call_api
    (mkRequest (str "gemini-2.5-flash-preview-tts") spoken
       (SpeechConfig (str "Kore"))) ;;
  let base64Audio := first_audio response in
  if truthy_opt base64Audio then
    binaryString <- (fun s => (atob (default [] base64Audio), s)) ;;
    let bytes := map charCode binaryString in
    match pcmToWav bytes 24000 with
    | Some wavBlob =>
        url <- perform (fun w =>
                 let (u, w') := createObjectURL wavBlob w in (Returned u, w')) ;;
        ret (Some url)
    | None => throw RangeError
    end
  else ret None.

Definition generateStepAudio (text : jsstring) : M W (option jsstring) :=
  let spoken := spokenText text in
  try_catch (withRetry (audio_attempt spoken) 3 2000)
    (fun error => emit (Console (ErrorAudio error)) ;;; ret None).

End Operations.

End Client.

(* ===================================================================== *)
(** * The background image loop of [RecipeCard] *)
(* ===================================================================== *)

Module RecipeCard.
Import Client.

Inductive StepType : Type := PREP | COOK | TIMING.

Record RecipeStep : Type := mkStep {
  instruction : jsstring;
  type : StepType;
  insight : option jsstring
}.

Record Recipe : Type := mkRecipe {
  title : jsstring;
  description : jsstring;
  ingredients : list jsstring;
  steps : list RecipeStep
}.

Definition TypeError : js_error :=
  new_Error "Cannot read properties of undefined".

Section Loop.
Context {W : Type} `{Endpoint W} `{Component W}.

(** One turn of the [try] block for step [i]. *)
Definition request_step_image (recipe : Recipe) (i : nat) : M W unit :=
  let previousInstructions := map instruction (firstn i (steps recipe)) in
  try_catch
    (match steps recipe !! i with
     | Some step =>
         url <- generateStepVisual (instruction step) previousInstructions ;;
         mounted <- (fun s => (Returned (isMounted (world s)), s)) ;;
         match url with
         | Some u =>
             if mounted && truthy u then emit (StepImageSet i u) else ret tt
         | None => ret tt
         end
     | None => throw TypeError
     end)
    (fun e => emit (Console (ErrorBackgroundVisual i e))).

(** The [for] loop of [generateAllStepImages] from counter [i] on; [n]
    counts the iterations the guard [i < recipe.steps.length] still admits.
    [stepImages] is the value the state had in the render whose effect
    started the loop: the closure never sees a later one. *)
Fixpoint image_loop (recipe : Recipe) (stepImages : gmap nat jsstring)
    (n i : nat) : M W unit :=
  match n with
  | O => ret tt
  | S n' =>
      fun s =>
        if negb (isMounted (world s)) then (Returned tt, s)       (* break *)
        else if truthy_opt (stepImages !! i)
        then image_loop recipe stepImages n' (S i) s              (* continue *)
        else
          (request_step_image recipe i ;;;
           (fun s' =>
              if isMounted (world s')
                 && (Z.of_nat i <? Z.of_nat (List.length (steps recipe)) - 1)
              then (act (sleep 4000) ;;; emit (Paced 4000)) s'
              else (Returned tt, s')) ;;;
           image_loop recipe stepImages n' (S i)) s
  end.

Definition generateAllStepImages (recipe : Recipe)
    (stepImages : gmap nat jsstring) : M W unit :=
  image_loop recipe stepImages (List.length (steps recipe)) 0.

End Loop.

(** ** What the loop does on the wire

    The traffic of a trace: the requests to the endpoint, their settling,
    and the pacing timers, in order. *)
Definition is_traffic (ev : event) : bool :=
  match ev with
  | Requested _ _ | Responded | Paced _ => true
  | _ => false
  end.

Definition traffic (tr : list event) : list event :=
  List.filter is_traffic tr.

(** A request and its settling. *)
Definition exchange (prompt : jsstring) : list event :=
  [Requested (str "gemini-2.5-flash-image") prompt; Responded].

(** The instructions of the steps before step [i]. *)
Definition instructions_before (recipe : Recipe) (i : nat) : list jsstring :=
  map instruction (firstn i (steps recipe)).

(** The prompt of the request for step [i]. *)
Definition step_prompt_at (recipe : Recipe) (i : nat) : jsstring :=
  match steps recipe !! i with
  | Some step => step_prompt (instruction step) (instructions_before recipe i)
  | None => []
  end.

(** The context clause of the prompt for step [i], in the words of the
    specification: the instructions of the steps before it, each with every
    annotation replaced by its name, joined by "; ", or the start-of-recipe
    clause. [ms] are the instructions of the recipe, each seen as its
    literal stretches and its annotations. *)
Definition context_clause (ms : list Markup.marked) (i : nat) : jsstring :=
  match i with
  | O => str "Start of recipe."
  | S _ =>
      str "PREVIOUS STEPS CONTEXT (The dish state so far): "
        ++ join (str "; ") (map Markup.with_names (firstn i ms))
        ++ str "."
  end.

(** The requests of iteration [i] when it sends [k] of them (the first and
    its retries): nothing when an image is cached for [i]. *)
Definition step_requests (recipe : Recipe) (stepImages : gmap nat jsstring)
    (i k : nat) : list event :=
  if truthy_opt (stepImages !! i) then []
  else concat (repeat (exchange (step_prompt_at recipe i)) k).

(** The traffic of iteration [i]: its requests and, unless an image is
    cached for [i] or [i] is the last index, the pacing timer. *)
Definition step_traffic (recipe : Recipe) (stepImages : gmap nat jsstring)
    (i k : nat) : list event :=
  if truthy_opt (stepImages !! i) then []
  else concat (repeat (exchange (step_prompt_at recipe i)) k)
       ++ (if Z.of_nat i <? Z.of_nat (List.length (steps recipe)) - 1
           then [Paced 4000] else []).

(** The requests of a trace. *)
Definition is_exchange (ev : event) : bool :=
  match ev with
  | Requested _ _ | Responded => true
  | _ => false
  end.

Definition exchanges (tr : list event) : list event :=
  List.filter is_exchange tr.

(** A component that is never unmounted while the loop runs. *)
Definition stays_mounted {W : Type} `{Component W} : Prop :=
  forall w : W, isMounted w = true.

End RecipeCard.

(* ===================================================================== *)
(** * Sample environments *)
(* ===================================================================== *)

(** Small worlds on which the definitions run: the world is the number of
    calls the outside has answered so far. *)
Module Samples.
Import Retry Json Client RecipeCard.

#[export] Instance counting_clock : Clock nat := {| sleep := fun _ w => w |}.

(** An operation that is rate limited twice and then succeeds. *)
Definition third_time_lucky (w : nat) : outcome nat * nat :=
  match w with
  | O | S O => (Threw (mkError (Some 429) None JSUndefined), S w)
  | _ => (Returned 7%nat, S w)
  end.


(** An operation that rejects with [{ message: 429 }]. *)
Definition numbered_message (w : nat) : outcome nat * nat :=
  (Threw (mkError None None (JSNumber 429)), S w).

(** An endpoint that answers every request with the same text, and one that
    refuses every request. *)
Definition answering (body : string) : Endpoint nat :=
  {| generateContent := fun _ w =>
       (Returned (mkResponse (Some (str body)) None), S w) |}.

Definition refusing (e : js_error) : Endpoint nat :=
  {| generateContent := fun _ w => (Threw e, S w) |}.

(** An endpoint that is rate limited on the first request and answers every
    later one with the same text. *)
Definition limited_then (body : string) : Endpoint nat :=
  {| generateContent := fun _ w =>
       match w with
       | O => (Threw (mkError (Some 429) None JSUndefined), S w)
       | S _ => (Returned (mkResponse (Some (str body)) None), S w)
       end |}.

(** The parser of the [Json] module as the engine's [JSON.parse]. *)
#[export] Instance ecma404 : JsonParser := {| JSON_parse := Json.parse |}.

(** An endpoint that answers every request with one inline image. *)
Definition picturing : Endpoint nat :=
  {| generateContent := fun _ w =>
       (Returned
          (mkResponse None
             (Some [mkCandidate
                      (Some (mkContent
                               (Some [mkPart
                                        (Some (mkInlineData (str "image/png")
                                                 (str "iVBORw0KGgo=")))])))])),
        S w) |}.

(** Base64 for canonical, padded texts, as the browser's [atob]. *)
Definition sextet (c : ascii) : option N :=
  let n := N_of_ascii c in
  if ((65 <=? n) && (n <=? 90))%N then Some (n - 65)%N
  else if ((97 <=? n) && (n <=? 122))%N then Some (n - 71)%N
  else if ((48 <=? n) && (n <=? 57))%N then Some (n + 4)%N
  else if (n =? 43)%N then Some 62%N
  else if (n =? 47)%N then Some 63%N
  else None.

Fixpoint decode64 (s : jsstring) : option jsstring :=
  match s with
  | [] => Some []
  | c1 :: c2 :: c3 :: c4 :: rest =>
      v1 ← sextet c1;
      v2 ← sextet c2;
      if Ascii.eqb c3 "=" then
        if Ascii.eqb c4 "=" then
          match rest with
          | [] => Some [ascii_of_N (v1 * 4 + v2 / 16)]
          | _ :: _ => None
          end
        else None
      else
        v3 ← sextet c3;
        if Ascii.eqb c4 "=" then
          match rest with
          | [] => Some [ascii_of_N (v1 * 4 + v2 / 16);
                        ascii_of_N ((v2 mod 16) * 16 + v3 / 4)]
          | _ :: _ => None
          end
        else
          v4 ← sextet c4;
          tail ← decode64 rest;
          Some (ascii_of_N (v1 * 4 + v2 / 16)
                  :: ascii_of_N ((v2 mod 16) * 16 + v3 / 4)
                  :: ascii_of_N ((v3 mod 4) * 64 + v4) :: tail)
  | _ => None
  end.

Definition InvalidCharacterError : js_error :=
  new_Error "The string to be decoded is not correctly encoded.".

(** A browser that decodes base64 and hands out an object URL. *)
#[export] Instance browser : Browser nat :=
  {| atob := fun s =>
       match decode64 s with
       | Some b => Returned b
       | None => Threw InvalidCharacterError
       end;
     createObjectURL := fun _ w => (str "blob:royal-recipes/audio", S w) |}.

(** An endpoint that answers every request with three bytes of audio. *)
Definition speaking : Endpoint nat :=
  {| generateContent := fun _ w =>
       (Returned
          (mkResponse None
             (Some [mkCandidate
                      (Some (mkContent
                               (Some [mkPart
                                        (Some (mkInlineData (str "audio/L16")
                                                 (str "AQID")))])))])),
        S w) |}.

(** A component that stays mounted, and one that is unmounted once the
    endpoint has answered [n] requests. *)
Definition mounted : Component nat := {| isMounted := fun _ => true |}.

Definition unmounted_after (n : nat) : Component nat :=
  {| isMounted := fun w => (w <? n)%nat |}.

(** A recipe of two steps. *)
Definition omelette : Recipe :=
  mkRecipe (str "Omelette") (str "A plain omelette.")
    [str "2 eggs"; str "10g butter"]
    [ mkStep (str "Whisk the <<eggs|2>>.") PREP None;
      mkStep (str "Fry in <<butter|10g>>.") COOK None ].

(** Its two instructions, as stretches and annotations. *)
Definition omelette_marked : list Markup.marked :=
  [ (str "Whisk the ", [(str "eggs", str "2", str ".")]);
    (str "Fry in ", [(str "butter", str "10g", str ".")]) ].

(** A recipe whose first instruction has a quantity that holds a [>]. *)
Definition salted : Recipe :=
  mkRecipe (str "Salted water") (str "Water, salted.")
    [str "3 tsp salt"]
    [ mkStep (str "Add <<salt|1>2 tsp>> now.") PREP None;
      mkStep (str "Stir.") PREP None ].

Definition salted_marked : list Markup.marked :=
  [ (str "Add ", [(str "salt", str "1>2 tsp", str " now.")]);
    (str "Stir.", []) ].

End Samples.

(* ===================================================================== *)
(** * Schedules and budgets: what a trace says about a run *)
(* ===================================================================== *)

Module Schedule.
Import Retry Json Client.

(** The events of [k] attempts in a row that hit a rate limit, the first of
    them being attempt [i]: the invocation, what the operation itself puts
    on the trace ([X]), the warning, and the backoff of
    [baseDelay * 2 ^ i] ms. *)
Fixpoint backoffs (X : list event) (baseDelay i : Z) (k : nat) : list event :=
  match k with
  | O => []
  | S k' =>
      Called :: X
        ++ [Console (WarnRateLimit (baseDelay * 2 ^ i));
            Waited (baseDelay * 2 ^ i)]
        ++ backoffs X baseDelay (i + 1) k'
  end.

(** The milliseconds that a trace spends in backoff. *)
Fixpoint waited (tr : list event) : Z :=
  match tr with
  | [] => 0
  | Waited ms :: tr' => ms + waited tr'
  | _ :: tr' => waited tr'
  end.

(** The number of requests and of pacing timers on a trace. *)
Definition is_request (ev : event) : bool :=
  match ev with Requested _ _ => true | _ => false end.

Definition is_pacing (ev : event) : bool :=
  match ev with Paced _ => true | _ => false end.

Definition requests (tr : list event) : nat :=
  List.length (List.filter is_request tr).

Definition pacings (tr : list event) : nat :=
  List.length (List.filter is_pacing tr).

(** The images that [setStepImages] merged, in the order of the merges. *)
Fixpoint images_set (tr : list event) : list (nat * jsstring) :=
  match tr with
  | [] => []
  | StepImageSet i url :: tr' => (i, url) :: images_set tr'
  | _ :: tr' => images_set tr'
  end.

(** Indexes that go strictly up, from [i] or above. *)
Fixpoint ascending_from (i : nat) (l : list (nat * jsstring)) : Prop :=
  match l with
  | [] => True
  | (j, _) :: l' => (i <= j)%nat /\ ascending_from (S j) l'
  end.

(** The lines that the [catch] of the image loop writes. *)
Definition is_background_error (ev : event) : bool :=
  match ev with
  | Console (ErrorBackgroundVisual _ _) => true
  | _ => false
  end.

Definition background_errors (tr : list event) : list event :=
  List.filter is_background_error tr.

(** A request as it shows on the trace, with its settling. *)
Definition exchange_of (req : request) : list event :=
  [Requested (model req) (contents req); Responded].

(** The requests of the operations other than [generateRecipe]. *)
Definition leftover_request (ingredients : list jsstring)
    (currentTitle : jsstring) : request :=
  mkRequest (str "gemini-2.5-flash") (leftover_prompt ingredients currentTitle)
    (JsonConfig leftoverSchema "0.5").

Definition image_request (prompt : jsstring) : request :=
  mkRequest (str "gemini-2.5-flash-image") prompt NoConfig.

Definition audio_request (spoken : jsstring) : request :=
  mkRequest (str "gemini-2.5-flash-preview-tts") spoken
    (SpeechConfig (str "Kore")).

(** The trace of a request that [withRetry] sends with its default
    arguments: [k] attempts that are backed off, and one more. *)
Definition attempts (req : request) (k : nat) : list event :=
  backoffs (exchange_of req) 2000 0 k ++ Called :: exchange_of req.

(** A data URI: [data:<mimeType>;base64,<data>]. *)
Definition data_uri (mimeType data : jsstring) : jsstring :=
  str "data:" ++ mimeType ++ str ";base64," ++ data.

(** An operation that every time fails with a rate limit. *)
Definition always_rate_limited {W T : Type} (op : W -> outcome T * W) : Prop :=
  forall w, exists e w', op w = (Threw e, w') /\ isRateLimit e = Returned true.

(** An endpoint that answers every request with a rate limit. *)
Definition throttling {W : Type} `{Endpoint W} : Prop :=
  forall req, always_rate_limited (generateContent req).

End Schedule.

(* ===================================================================== *)
(** * The annotations that the two replacements find *)
(* ===================================================================== *)

Module Annotations.
Import Markup.

(** The fields of an annotation as the expressions of [cleanText] and of
    [spokenText] capture them: a name that is not empty and holds no [|],
    a quantity that is not empty and holds no [>]. *)
Definition captured (m : marked) : bool :=
  forallb (fun '(name, quantity, _) =>
             truthy name && lacks "|" name
             && truthy quantity && lacks ">" quantity) (snd m).

End Annotations.

(* ===================================================================== *)
(** * The components that call the client *)
(* ===================================================================== *)

(** A handler or an effect of a component is a computation that takes the
    state of the component as its run finds it and returns it with the
    updates of the run: [setX(v)] sets a field, and
    [setX(prev => f(prev))] applies [f] to the field as the run left it.
    What a closure captured at render time is an argument (the props,
    [currentStep]) or is read off the state as the run finds it. A flag that the cleanup of an effect clears while the run
    is suspended ([isMounted], [active], [isMountedRef.current]) is the
    [isMounted] of the world. What other runs do to the state meanwhile is
    not part of the run, and a run that throws keeps only its error. *)
Module Views.
Import Json Client RecipeCard.

(** What the components write to the console; the world keeps it. *)
Inductive view_line : Type :=
| SearchError (err : js_error)          (* App *)
| FetchLeftoversError (e : js_error)    (* LeftoverSuggestions *)
| PreloadWarning (e : js_error).        (* TutorialPlayer *)

Class DevConsole (W : Type) : Type := {
  console_write : view_line -> W -> W
}.

(** Reading the flag. *)
Definition mounted_now {W : Type} `{Component W} : M W bool :=
  fun s => (Returned (isMounted (world s)), s).

(** The white space and the line terminators of ECMAScript among the code
    units below 256: tab, line feed, vertical tab, form feed, carriage
    return, space and no-break space. *)
Definition isWhiteSpace (c : ascii) : bool :=
  let n := nat_of_ascii c in
  (n =? 9)%nat || (n =? 10)%nat || (n =? 11)%nat || (n =? 12)%nat
  || (n =? 13)%nat || (n =? 32)%nat || (n =? 160)%nat.

Fixpoint trimStart (s : jsstring) : jsstring :=
  match s with
  | c :: s' => if isWhiteSpace c then trimStart s' else s
  | [] => []
  end.

Definition trimEnd (s : jsstring) : jsstring := rev (trimStart (rev s)).

(** [s.trim()] *)
Definition trim (s : jsstring) : jsstring := trimEnd (trimStart s).

(** [xs[i]] for a number [i] that is an integer: [undefined] below 0 and
    from the length on. *)
Definition at_index {A : Type} (xs : list A) (i : Z) : option A :=
  if i <? 0 then None else xs !! Z.to_nat i.

(** [xs.slice(0, e)] for an integer [e]: a negative [e] counts from the
    end. *)
Definition slice0 {A : Type} (xs : list A) (e : Z) : list A :=
  if e <? 0 then firstn (List.length xs - Z.to_nat (- e)) xs
  else firstn (Z.to_nat e) xs.

(** [preloadedImages[i]]: the images of [RecipeCard] are keyed by the
    indexes of its loop. *)
Definition preloaded_at (preloadedImages : gmap nat jsstring) (i : Z)
    : option jsstring :=
  if i <? 0 then None else preloadedImages !! Z.to_nat i.

(** [a || b] on strings that may be [undefined]. *)
Definition or_else (a b : option jsstring) : option jsstring :=
  if truthy_opt a then a else b.

End Views.

(** ** [App]: the search *)
Module App.
Import Json Client Views.

Record AppState : Type := mkApp {
  query : jsstring;
  recipe : json;                  (* [JNull] is [null] *)
  loading : bool;
  error : option jsstring;
  hasSearched : bool
}.

Definition search_failed : jsstring :=
  str "Sorry, we couldn't cook up a recipe for that. Please try a different request.".

Section Handlers.
Context {W : Type} `{Endpoint W} `{JsonParser} `{DevConsole W}.

(** [handleSearch], after [e.preventDefault()]. *)
Definition handleSearch (st : AppState) : M W AppState :=
  if negb (truthy (trim (query st))) then ret st
  else
    let st := mkApp (query st) (recipe st) true (error st) (hasSearched st) in
    let st := mkApp (query st) (recipe st) (loading st) None (hasSearched st) in
    let st := mkApp (query st) JNull (loading st) (error st) (hasSearched st) in
    let st := mkApp (query st) (recipe st) (loading st) (error st) true in
    st <- try_catch
            (result <- generateRecipe (query st) ;;
             ret (mkApp (query st) result (loading st) (error st)
                    (hasSearched st)))
            (fun err =>
               act (console_write (SearchError err)) ;;;
               ret (mkApp (query st) (recipe st) (loading st)
                      (Some search_failed) (hasSearched st))) ;;
    (* finally *)
    ret (mkApp (query st) (recipe st) false (error st) (hasSearched st)).

End Handlers.

End App.

(** ** [DishVisualizer]: the picture of the dish *)
Module DishVisualizer.
Import Client Views.

Record DishState : Type := mkDish {
  imageUrl : option jsstring;
  loading : bool
}.

Section Effect.
Context {W : Type} `{Endpoint W} `{Component W}.

Definition fetchImage (title description : jsstring) (st : DishState)
    : M W DishState :=
  let st := mkDish (imageUrl st) true in
  let st := mkDish None (loading st) in
  url <- generateRecipeVisual title description ;;
  mounted <- mounted_now ;;
  let st := if mounted && truthy_opt url then mkDish url (loading st)
            else st in
  mounted <- mounted_now ;;
  ret (if mounted then mkDish (imageUrl st) false else st).

(** The effect on [title] and [description]. *)
Definition image_effect (title description : jsstring) (st : DishState)
    : M W DishState :=
  if truthy title then fetchImage title description st else ret st.

End Effect.

(** The three blocks of the render, each under its own condition. *)
Inductive block : Type :=
| Spinner
| Picture (src alt : jsstring)
| Placeholder (initial : jsstring).

Definition render (title : jsstring) (st : DishState) : list block :=
  (if loading st && negb (truthy_opt (imageUrl st)) then [Spinner] else [])
  ++ (if truthy_opt (imageUrl st)
      then [Picture (default [] (imageUrl st)) title] else [])
  ++ (if negb (loading st) && negb (truthy_opt (imageUrl st))
      then [Placeholder (firstn 1 title)] else []).

End DishVisualizer.

(** ** [LeftoverSuggestions] *)
Module LeftoverSuggestions.
Import Json Client Views.

Record LeftoverState : Type := mkLeftovers {
  suggestions : json;
  loading : bool
}.

Section Effect.
Context {W : Type} `{Endpoint W} `{JsonParser} `{Component W} `{DevConsole W}.

Definition fetchSuggestions (ingredients : list jsstring)
    (recipeTitle : jsstring) (st : LeftoverState) : M W LeftoverState :=
  let st := mkLeftovers (suggestions st) true in
  st <- try_catch
          (results <- generateLeftoverSuggestions ingredients recipeTitle ;;
           mounted <- mounted_now ;;
           ret (if mounted then mkLeftovers results (loading st) else st))
          (fun e => act (console_write (FetchLeftoversError e)) ;;; ret st) ;;
  (* finally *)
  mounted <- mounted_now ;;
  ret (if mounted then mkLeftovers (suggestions st) false else st).

(** The effect on [ingredients] and [recipeTitle]. *)
Definition suggestions_effect (ingredients : list jsstring)
    (recipeTitle : jsstring) (st : LeftoverState) : M W LeftoverState :=
  if 0 <? Z.of_nat (List.length ingredients)
  then fetchSuggestions ingredients recipeTitle st
  else ret st.

End Effect.

End LeftoverSuggestions.

(** ** [CookMode]: one step at a time *)
Module CookMode.
Import Client RecipeCard Views.

Record CookState : Type := mkCook {
  currentIndex : Z;
  localImages : gmap Z jsstring;
  loadingImage : bool
}.

(** [images[i]] of [const images = { ...preloadedImages, ...localImages }]:
    a key of [localImages] wins. *)
Definition images (preloadedImages : gmap nat jsstring) (st : CookState)
    (i : Z) : option jsstring :=
  match localImages st !! i with
  | Some url => Some url
  | None => preloaded_at preloadedImages i
  end.

Definition isLastStep (steps : list RecipeStep) (st : CookState) : bool :=
  currentIndex st =? Z.of_nat (List.length steps) - 1.

Definition isFirstStep (st : CookState) : bool := currentIndex st =? 0.

Definition handleNext (steps : list RecipeStep) (st : CookState) : CookState :=
  if negb (isLastStep steps st)
  then mkCook (currentIndex st + 1) (localImages st) (loadingImage st)
  else st.

Definition handlePrev (st : CookState) : CookState :=
  if negb (isFirstStep st)
  then mkCook (currentIndex st - 1) (localImages st) (loadingImage st)
  else st.

(** The two buttons of the footer that move. *)
Inductive press : Type := Next | Prev.

Definition pressed (steps : list RecipeStep) (st : CookState) (p : press)
    : CookState :=
  match p with
  | Next => handleNext steps st
  | Prev => handlePrev st
  end.

Section Effect.
Context {W : Type} `{Endpoint W} `{Component W}.

(** [loadImages], with [currentStep] as the render computed it: the render
    reads [currentStep.type], so the effect only ever runs with a step. *)
Definition loadImages (steps : list RecipeStep)
    (preloadedImages : gmap nat jsstring) (currentStep : RecipeStep)
    (st : CookState) : M W CookState :=
  if negb (truthy_opt (images preloadedImages st (currentIndex st))) then
    let st := mkCook (currentIndex st) (localImages st) true in
    let previousInstructions :=
      map instruction (slice0 steps (currentIndex st)) in
    url <- generateStepVisual (instruction currentStep) previousInstructions ;;
    mounted <- mounted_now ;;
    let st :=
      if mounted && truthy_opt url
      then mkCook (currentIndex st)
             (<[currentIndex st := default [] url]> (localImages st))
             (loadingImage st)
      else st in
    mounted <- mounted_now ;;
    ret (if mounted
         then mkCook (currentIndex st) (localImages st) false
         else st)
  else ret st.

End Effect.

End CookMode.

(** ** [TutorialPlayer]: the steps as a film *)
Module TutorialPlayer.
Import Client RecipeCard Views.

Record TutorialState : Type := mkTutorial {
  currentIndex : Z;
  audioUrl : option jsstring;
  imageUrl : option jsstring;
  isPlaying : bool;
  isLoading : bool;
  localImageCache : gmap Z jsstring
}.

(** The [<audio>] element behind [audioRef], when there is one. *)
Class AudioElement (W : Type) : Type := {
  pause : W -> W
}.

Section Effects.
Context {W : Type} `{Endpoint W} `{Browser W} `{Component W}
  `{DevConsole W} `{AudioElement W}.

(** [preloadNext] *)
Definition preloadNext (steps : list RecipeStep)
    (preloadedImages : gmap nat jsstring) (st : TutorialState)
    : M W TutorialState :=
  let nextIndex := currentIndex st + 1 in
  if nextIndex <? Z.of_nat (List.length steps) then
    if truthy_opt (preloaded_at preloadedImages nextIndex)
       || truthy_opt (localImageCache st !! nextIndex)
    then ret st
    else
      let prevContext := map instruction (slice0 steps nextIndex) in
      try_catch
        (match at_index steps nextIndex with
         | Some step =>
             url <- generateStepVisual (instruction step) prevContext ;;
             mounted <- mounted_now ;;
             ret (if truthy_opt url && mounted
                  then mkTutorial (currentIndex st) (audioUrl st) (imageUrl st)
                         (isPlaying st) (isLoading st)
                         (<[nextIndex := default [] url]> (localImageCache st))
                  else st)
         | None => throw TypeError
         end)
        (fun e => act (console_write (PreloadWarning e)) ;;; ret st)
  else ret st.

(** [currentStep.instruction], a [TypeError] when there is no such step. *)
Definition instruction_of (currentStep : option RecipeStep) : M W jsstring :=
  match currentStep with
  | Some step => ret (instruction step)
  | None => throw TypeError
  end.

(** The effect that loads the content of the current step: its
    synchronous part and then [loadContent]. The render that precedes it
    shows the spinner and does not read [currentStep], which may be
    [undefined]. *)
Definition content_effect (steps : list RecipeStep)
    (preloadedImages : gmap nat jsstring) (st : TutorialState)
    : M W TutorialState :=
  let currentStep := at_index steps (currentIndex st) in
  let st := mkTutorial (currentIndex st) (audioUrl st) (imageUrl st)
              (isPlaying st) true (localImageCache st) in
  let st := mkTutorial (currentIndex st) None (imageUrl st)
              (isPlaying st) (isLoading st) (localImageCache st) in
  let st := mkTutorial (currentIndex st) (audioUrl st) None
              (isPlaying st) (isLoading st) (localImageCache st) in
  act pause ;;;
  (* loadContent *)
  let cached := or_else (preloaded_at preloadedImages (currentIndex st))
                  (localImageCache st !! currentIndex st) in
  url <- (if negb (truthy_opt cached) then
            let previousInstructions :=
              map instruction (slice0 steps (currentIndex st)) in
            text <- instruction_of currentStep ;;
            fetched <- generateStepVisual text previousInstructions ;;
            ret (default [] (or_else fetched (Some [])))
          else ret (default [] cached)) ;;
  active <- mounted_now ;;
  let st := if active
            then mkTutorial (currentIndex st) (audioUrl st) (Some url)
                   (isPlaying st) (isLoading st) (localImageCache st)
            else st in
  text <- instruction_of currentStep ;;
  audio <- generateStepAudio text ;;
  active <- mounted_now ;;
  ret (if active
       then mkTutorial (currentIndex st) audio (imageUrl st)
              (isPlaying st) false (localImageCache st)
       else st).

Definition isLastStep (steps : list RecipeStep) (st : TutorialState) : bool :=
  currentIndex st =? Z.of_nat (List.length steps) - 1.

(** [handleAudioEnded], with [isLastStep] and [isPlaying] as the render
    that set the handler had them. What it returns is the update that it
    hands to a setter, to be applied to the state as it is when React
    takes it up: for [setCurrentIndex(prev => prev + 1)] that is 1500 ms
    after the audio ended. *)
Definition handleAudioEnded (steps : list RecipeStep) (st : TutorialState)
    : M W (TutorialState -> TutorialState) :=
  if negb (isLastStep steps st) && isPlaying st then
    act (sleep 1500) ;;;
    mounted <- mounted_now ;;
    ret (if mounted
         then fun prev =>
                mkTutorial (currentIndex prev + 1) (audioUrl prev)
                  (imageUrl prev) (isPlaying prev) (isLoading prev)
                  (localImageCache prev)
         else fun prev => prev)
  else
    ret (fun prev =>
           mkTutorial (currentIndex prev) (audioUrl prev) (imageUrl prev)
             false (isLoading prev) (localImageCache prev)).

End Effects.

End TutorialPlayer.

(* ===================================================================== *)
(** * More sample environments *)
(* ===================================================================== *)

Module MoreSamples.
Import Retry Json Client RecipeCard Samples.

(** An operation that is rate limited every time. *)
Definition throttled (w : nat) : outcome nat * nat :=
  (Threw (mkError (Some 429) None JSUndefined), S w).

(** An endpoint that is rate limited every time. *)
Definition throttle : Endpoint nat :=
  {| generateContent := fun _ w =>
       (Threw (mkError None None (JSString (str "429 Too Many Requests"))), S w) |}.

(** A console that keeps nothing, and a page without an audio element. *)
#[export] Instance silent_console : Views.DevConsole nat :=
  {| Views.console_write := fun _ w => w |}.

#[export] Instance no_audio : TutorialPlayer.AudioElement nat :=
  {| TutorialPlayer.pause := fun w => w |}.

End MoreSamples.

(* ===================================================================== *)
(** * Properties of the retry policy *)
(* ===================================================================== *)

Module RetryFacts.
Import Retry Samples.

Section Steps.
Context {W : Type} `{Clock W} {T : Type}.
Implicit Types (fn after : M W T) (s : state W).

Lemma retry_loop_returned after fn retries baseDelay n i s v s' :
  fn (called s) = (Returned v, s') ->
  retry_loop after fn retries baseDelay (S n) i s = (Returned v, s').
Proof.
  intros Hfn. cbn [retry_loop]. unfold try_catch, bind, emit. cbn.
  fold (called s). rewrite Hfn. reflexivity.
Qed.

Lemma retry_loop_rethrown after fn retries baseDelay n i s e s'
    {rateLimit : bool} :
  fn (called s) = (Threw e, s') ->
  isRateLimit e = Returned rateLimit ->
  rateLimit && (i <? retries - 1) = false ->
  retry_loop after fn retries baseDelay (S n) i s = (Threw e, s').
Proof.
  intros Hfn Hrl Hno. cbn [retry_loop]. unfold try_catch, bind, emit. cbn.
  fold (called s). rewrite Hfn, Hrl, Hno. reflexivity.
Qed.

(** The condition of the [catch] block throws: its error leaves the loop. *)
Lemma retry_loop_condition_throws after fn retries baseDelay n i s e s'
    typeError :
  fn (called s) = (Threw e, s') ->
  isRateLimit e = Threw typeError ->
  retry_loop after fn retries baseDelay (S n) i s = (Threw typeError, s').
Proof.
  intros Hfn Hrl. cbn [retry_loop]. unfold try_catch, bind, emit. cbn.
  fold (called s). rewrite Hfn, Hrl. reflexivity.
Qed.

Lemma retry_loop_backoff after fn retries baseDelay n i s e s' :
  fn (called s) = (Threw e, s') ->
  isRateLimit e = Returned true -> i < retries - 1 ->
  retry_loop after fn retries baseDelay (S n) i s
  = retry_loop after fn retries baseDelay n (i + 1)
      (backed_off (baseDelay * 2 ^ i) s').
Proof.
  intros Hfn Hrl Hi. cbn [retry_loop]. unfold try_catch at 1.
  unfold bind at 1. unfold emit at 1. cbn. fold (called s). rewrite Hfn, Hrl.
  apply Z.ltb_lt in Hi. rewrite Hi. cbn.
  unfold bind, emit, delay, act, bind, emit, backed_off. cbn.
  rewrite <- app_assoc. reflexivity.
Qed.

(** An iteration whose invocation ends the run. *)
Lemma retry_loop_ends after fn retries baseDelay n i s r r' s' :
  fn (called s) = (r, s') -> ends retries i r r' ->
  retry_loop after fn retries baseDelay (S n) i s = (r', s').
Proof.
  intros Hfn Hends. destruct Hends as [v | e rateLimit Hrl Hno | e typeError Hrl].
  - exact (retry_loop_returned _ _ _ _ _ _ _ _ _ Hfn).
  - exact (retry_loop_rethrown _ _ _ _ _ _ _ _ _ Hfn Hrl Hno).
  - exact (retry_loop_condition_throws _ _ _ _ _ _ _ _ _ _ Hfn Hrl).
Qed.

(** What an iteration does with an error: it ends the run, or backs off. *)
Lemma caught_cases (retries i : Z) (e : js_error) :
  (exists r' : outcome T, ends retries i (Threw e) r')
  \/ (isRateLimit e = Returned true /\ i < retries - 1).
Proof.
  destruct (isRateLimit e) as [rateLimit|typeError] eqn:Hrl.
  - destruct (rateLimit && (i <? retries - 1)) eqn:Hg.
    + right. apply andb_true_iff in Hg as [-> Hi]. apply Z.ltb_lt in Hi.
      split; [reflexivity | exact Hi].
    + left. eexists. exact (ends_rethrown _ _ _ _ Hrl Hg).
  - left. eexists. exact (ends_condition _ _ _ _ Hrl).
Qed.

Lemma attempt_index fn baseDelay s i t :
  attempt fn baseDelay s i t -> 0 <= i.
Proof. induction 1; lia. Qed.

(** The loop reaches every attempt of the run whose index is below
    [retries]. *)
Lemma retry_loop_reaches after fn retries baseDelay s i t :
  attempt fn baseDelay s i t -> i < retries ->
  retry_loop after fn retries baseDelay (Z.to_nat retries) 0 s
  = retry_loop after fn retries baseDelay (Z.to_nat (retries - i)) i t.
Proof.
  induction 1 as [|i t e t' Hat IH Hfn Hrl]; intros Hi.
  - rewrite Z.sub_0_r. reflexivity.
  - pose proof (attempt_index _ _ _ _ _ Hat) as H0.
    rewrite IH by lia.
    replace (Z.to_nat (retries - i)) with (S (Z.to_nat (retries - (i + 1))))
      by lia.
    apply (retry_loop_backoff _ _ _ _ _ _ _ _ _ Hfn Hrl). lia.
Qed.

(** Whenever an attempt of the run ends it, the run has that result. *)
Lemma attempt_ends after fn retries baseDelay s i t r r' t' :
  attempt fn baseDelay s i t -> i < retries ->
  fn (called t) = (r, t') -> ends retries i r r' ->
  retry_loop after fn retries baseDelay (Z.to_nat retries) 0 s = (r', t').
Proof.
  intros Hat Hi Hfn Hends.
  rewrite (retry_loop_reaches after _ _ _ _ _ _ Hat Hi).
  replace (Z.to_nat (retries - i)) with (S (Z.to_nat (retries - i - 1)))
    by lia.
  exact (retry_loop_ends _ _ _ _ _ _ _ _ _ _ Hfn Hends).
Qed.

(** From an attempt on, with at least one iteration left, the loop ends
    inside an iteration, at an attempt of the run: what follows the loop
    does not matter. *)
Lemma retry_loop_run fn retries baseDelay s n :
  forall i t,
    attempt fn baseDelay s i t ->
    n = Z.to_nat (retries - i) -> (0 < n)%nat ->
    exists j u r r' u',
      attempt fn baseDelay s j u /\ i <= j < retries
      /\ fn (called u) = (r, u') /\ ends retries j r r'
      /\ forall after,
           retry_loop after fn retries baseDelay n i t = (r', u').
Proof.
  induction n as [|n IH]; intros i t Hat Hn Hpos; [lia|].
  destruct (fn (called t)) as [[v|e] t'] eqn:Hfn.
  - exists i, t, (Returned v), (Returned v), t'.
    repeat split; [exact Hat | lia | lia | exact Hfn | constructor |].
    intros after. exact (retry_loop_returned _ _ _ _ _ _ _ _ _ Hfn).
  - destruct (caught_cases retries i e) as [[r' Hends] | [Hrl Hi]].
    + exists i, t, (Threw e), r', t'.
      repeat split; [exact Hat | lia | lia | exact Hfn | exact Hends |].
      intros after. exact (retry_loop_ends _ _ _ _ _ _ _ _ _ _ Hfn Hends).
    + destruct (IH (i + 1) (backed_off (baseDelay * 2 ^ i) t')
                  (attempt_next _ _ _ _ _ _ _ Hat Hfn Hrl))
        as (j & u & r & r' & u' & Hj & Hij & Hu & Hends & Hrun); [lia | lia |].
      exists j, u, r, r', u'.
      repeat split; [exact Hj | lia | lia | exact Hu | exact Hends |].
      intros after. rewrite (retry_loop_backoff _ _ _ _ _ _ _ _ _ Hfn Hrl Hi).
      apply Hrun.
Qed.

(** With at least one attempt, a run of [withRetry] ends at one of its
    attempts, and the statement after the loop is not reached. *)
Lemma withRetry_run fn retries baseDelay s :
  1 <= retries ->
  exists i t r r' t',
    attempt fn baseDelay s i t /\ 0 <= i < retries
    /\ fn (called t) = (r, t') /\ ends retries i r r'
    /\ forall after,
         retry_loop after fn retries baseDelay (Z.to_nat retries) 0 s
         = (r', t').
Proof.
  intros Hr.
  apply (retry_loop_run fn retries baseDelay s (Z.to_nat retries) 0 s);
    [constructor | f_equal; lia | lia].
Qed.

(** A value that [withRetry] returns is a value that an invocation of the
    operation returned. *)
Lemma withRetry_returned fn retries baseDelay s v s' :
  1 <= retries ->
  withRetry fn retries baseDelay s = (Returned v, s') ->
  exists s1, fn s1 = (Returned v, s').
Proof.
  intros Hr Hrun.
  destruct (withRetry_run fn retries baseDelay s Hr)
    as (i & t & r & r' & t' & _ & _ & Hfn & Hends & Hloop).
  unfold withRetry in Hrun. rewrite Hloop in Hrun.
  injection Hrun as -> ->. inversion Hends; subst. eauto.
Qed.

End Steps.

Example isRateLimit_status :
  isRateLimit (mkError (Some 429) None JSUndefined) = Returned true.
Proof. reflexivity. Qed.

Example isRateLimit_quota :
  isRateLimit (new_Error "You exceeded your current quota") = Returned true.
Proof. reflexivity. Qed.

Example isRateLimit_other :
  isRateLimit (new_Error "404 Not Found") = Returned false.
Proof. reflexivity. Qed.

Example isRateLimit_max_retries :
  isRateLimit max_retries_exceeded = Returned false.
Proof. reflexivity. Qed.

(** A status of 429 is a rate limit before the message is looked at; a
    message that is a number other than 0 makes the condition throw. *)
Example isRateLimit_number :
  isRateLimit (mkError (Some 429) None (JSNumber 429)) = Returned true
  /\ isRateLimit (mkError None None (JSNumber 0)) = Returned false
  /\ isRateLimit (mkError None None (JSNumber 429)) = Threw not_a_function.
Proof. repeat split; reflexivity. Qed.



(** A thrown value whose message is falsy or a string is classified: the
    condition of the [catch] block does not throw on it. *)
Lemma isRateLimit_classifies (e : js_error) :
  truthy_value (message e) = false \/ (exists m, message e = JSString m) ->
  exists rateLimit, isRateLimit e = Returned rateLimit.
Proof.
  intros Hm. unfold isRateLimit, message_includes.
  destruct (is_429 (status e) || is_429 (code e)); [eauto|].
  destruct (message e) as [| |b|n|m]; cbn [truthy_value] in *.
  1-2: eauto.
  - destruct Hm as [-> | [m Hm]]; [eauto | discriminate].
  - destruct Hm as [-> | [m Hm]]; [eauto | discriminate].
  - destruct (truthy m && includes m (str "429")); eauto.
Qed.

(** C10, as the code has it. For every operation and every
    [retries >= 1], [withRetry] ends inside an iteration of its loop: the
    statement after the loop, [throw new Error("Max retries exceeded")], is
    never reached, and replacing it by any other statement changes nothing.
    Its result is the result of one invocation of the operation, value or
    error, or else the error that the condition of the [catch] block throws
    on the error of that invocation; it is the result of an invocation
    whenever the condition classifies every error the operation throws, and
    it classifies every error whose message is falsy or a string. *)
Theorem withRetry_trailing_throw_unreachable {W : Type} `{Clock W} {T : Type}
    (fn : M W T) (retries baseDelay : Z) (s : state W) :
  1 <= retries ->
  (forall after,
      retry_loop after fn retries baseDelay (Z.to_nat retries) 0 s
      = withRetry fn retries baseDelay s)
  /\ (exists s1 r s',
        fn s1 = (r, s')
        /\ (withRetry fn retries baseDelay s = (r, s')
            \/ exists e typeError,
                 r = Threw e /\ isRateLimit e = Threw typeError
                 /\ withRetry fn retries baseDelay s = (Threw typeError, s')))
  /\ ((forall s0 e s', fn s0 = (Threw e, s') ->
                       exists rateLimit, isRateLimit e = Returned rateLimit) ->
      exists s1, withRetry fn retries baseDelay s = fn s1)
  /\ (forall e,
        truthy_value (message e) = false \/ (exists m, message e = JSString m) ->
        exists rateLimit, isRateLimit e = Returned rateLimit).
Proof.
  intros Hr.
  destruct (withRetry_run fn retries baseDelay s Hr)
    as (i & t & r & r' & t' & _ & _ & Hfn & Hends & Hloop).
  unfold withRetry. repeat split.
  - intros after. rewrite !Hloop. reflexivity.
  - exists (called t), r, t'. split; [exact Hfn|]. rewrite Hloop.
    destruct Hends as [v | e rateLimit Hrl Hno | e typeError Hrl];
      [left; reflexivity | left; reflexivity |].
    right. exists e, typeError. repeat split. exact Hrl.
  - intros Hclass. exists (called t). rewrite Hloop, Hfn.
    destruct Hends as [v | e rateLimit Hrl Hno | e typeError Hrl];
      [reflexivity | reflexivity |].
    destruct (Hclass _ _ _ Hfn) as [rateLimit Hrl']. congruence.
  - apply isRateLimit_classifies.
Qed.

Lemma withRetry_trailing_throw_unreachable_witness :
  (forall after,
      retry_loop after (perform third_time_lucky) 3 2000 (Z.to_nat 3) 0
        (mkState 0%nat [])
      = withRetry (perform third_time_lucky) 3 2000 (mkState 0%nat []))
  /\ (exists s1 r s',
        perform third_time_lucky s1 = (r, s')
        /\ (withRetry (perform third_time_lucky) 3 2000 (mkState 0%nat [])
            = (r, s')
            \/ exists e typeError,
                 r = Threw e /\ isRateLimit e = Threw typeError
                 /\ withRetry (perform third_time_lucky) 3 2000
                      (mkState 0%nat [])
                    = (Threw typeError, s')))
  /\ ((forall s0 e s', perform third_time_lucky s0 = (Threw e, s') ->
                       exists rateLimit, isRateLimit e = Returned rateLimit) ->
      exists s1,
        withRetry (perform third_time_lucky) 3 2000 (mkState 0%nat [])
        = perform third_time_lucky s1)
  /\ (forall e,
        truthy_value (message e) = false \/ (exists m, message e = JSString m) ->
        exists rateLimit, isRateLimit e = Returned rateLimit).
Proof.
  apply (withRetry_trailing_throw_unreachable (perform third_time_lucky) 3 2000
           (mkState 0%nat [])).
  lia.
Defined.

(** C10 as it is worded fails for an operation that rejects with a value
    whose message is the number 429: the [catch] block calls
    [error.message.includes], which a number does not have, and [withRetry]
    throws a [TypeError] after one invocation, an error that no invocation
    of the operation throws. *)
Lemma withRetry_type_error :
  withRetry (perform numbered_message) 3 2000 (mkState 0%nat [])
  = (Threw not_a_function, mkState 1%nat [Called])
  /\ (forall s1,
        fst (perform numbered_message s1)
        = Threw (mkError None None (JSNumber 429)))
  /\ not_a_function <> mkError None None (JSNumber 429).
Proof. repeat split; discriminate. Qed.

End RetryFacts.

(* ===================================================================== *)
(** * Properties of the content generation client *)
(* ===================================================================== *)

Module ClientFacts.
Import Retry RetryFacts Json Client Samples.

Section Generic.
Context {W : Type} `{Clock W} {T : Type}.

(** With at least one attempt, [withRetry] of an operation that always
    throws also throws. *)
Lemma withRetry_throws (fn : M W T) (retries baseDelay : Z) :
  1 <= retries ->
  (forall s, exists e s', fn s = (Threw e, s')) ->
  forall s, exists e s', withRetry fn retries baseDelay s = (Threw e, s').
Proof.
  intros Hr Hfn s.
  destruct (withRetry_run fn retries baseDelay s Hr)
    as (i & t & r & r' & t' & _ & _ & Hrun & Hends & Hloop).
  unfold withRetry. rewrite Hloop.
  destruct (Hfn (called t)) as (e & s' & He). rewrite He in Hrun.
  injection Hrun as <- <-. inversion Hends; subst; eauto.
Qed.

(** A call wrapped in [try] with a handler that logs and returns a
    fallback always returns, and returns the fallback when the call threw. *)
Lemma best_effort (inner : M W T) (line : js_error -> console_line)
    (fallback : T) (s : state W) :
  exists v s',
    try_catch inner (fun error => emit (Console (line error)) ;;; ret fallback) s
    = (Returned v, s')
    /\ (forall e s1, inner s = (Threw e, s1) -> v = fallback).
Proof.
  unfold try_catch. destruct (inner s) as [[v|e] s1].
  - exists v, s1. split; [reflexivity | intros; discriminate].
  - eexists _, _. split; [reflexivity | reflexivity].
Qed.

End Generic.

Section Operations.
Context {W : Type} `{Endpoint W} `{JsonParser} `{Browser W}.

(** A request adds itself and its settling to the trace, whatever the
    endpoint does with it. *)
Lemma call_api_run (req : request) (s : state W) :
  call_api req s
  = (fst (generateContent req (world s)),
     mkState (snd (generateContent req (world s)))
       (trace s ++ [Requested (model req) (contents req); Responded])).
Proof.
  unfold call_api, bind, try_catch, perform, emit, ret, throw. cbn.
  destruct (generateContent req (world s)) as [[r|e] w']; cbn;
    rewrite <- app_assoc; reflexivity.
Qed.

Lemma call_api_refused (req : request) :
  always_refuses -> forall s, exists e s', call_api req s = (Threw e, s').
Proof.
  intros Href s. rewrite call_api_run.
  destruct (Href req (world s)) as (e & w' & ->). cbn. eauto.
Qed.

Lemma bind_throws {A B} (m : M W A) (k : A -> M W B) :
  (forall s, exists e s', m s = (Threw e, s')) ->
  forall s, exists e s', bind m k s = (Threw e, s').
Proof.
  intros Hm s. unfold bind. destruct (Hm s) as (e & s' & ->). eauto.
Qed.

Lemma recipe_attempt_run (query : jsstring) (s : state W) :
  recipe_attempt query s
  = match generateContent (recipe_request query) (world s) with
    | (Returned r, w') =>
        let s' := mkState w' (trace s ++ [Requested (str "gemini-2.5-flash")
                                            (recipe_prompt query); Responded]) in
        match text r with
        | Some t =>
            if truthy t then (JSON_parse t, s')
            else (Threw (new_Error "No content generated"), s')
        | None => (Threw (new_Error "No content generated"), s')
        end
    | (Threw e, w') =>
        (Threw e,
         mkState w' (trace s ++ [Requested (str "gemini-2.5-flash")
                                   (recipe_prompt query); Responded]))
    end.
Proof.
  unfold recipe_attempt, bind. rewrite call_api_run.
  fold (recipe_request query).
  destruct (generateContent (recipe_request query) (world s)) as [[r|e] w'];
    cbn; [|reflexivity].
  destruct (text r) as [t|]; cbn; [|reflexivity].
  destruct (truthy t); reflexivity.
Qed.

Lemma recipe_attempt_unusable (query : jsstring) :
  (forall req w r w', generateContent req w = (Returned r, w') ->
                      unusable_body r) ->
  forall s, exists e s', recipe_attempt query s = (Threw e, s').
Proof.
  intros Hbad s. rewrite recipe_attempt_run.
  destruct (generateContent (recipe_request query) (world s))
    as [[r|e] w'] eqn:Hg; [|eauto].
  destruct (Hbad _ _ _ _ Hg) as [Hempty | (t & e & Ht & He)].
  - destruct (text r) as [t|]; cbn in *; [rewrite Hempty|]; eauto.
  - rewrite Ht. destruct (truthy t); [rewrite He|]; eauto.
Qed.

(** The attempt of [generateRecipe] that starts in [t], by what the endpoint
    answers. *)
Lemma recipe_attempt_called (query : jsstring) (t : state W) :
  recipe_attempt query (called t)
  = match generateContent (recipe_request query) (world t) with
    | (Returned r, w') =>
        let s' := mkState w'
                    (trace t ++ [Called; Requested (str "gemini-2.5-flash")
                                           (recipe_prompt query); Responded]) in
        match text r with
        | Some b =>
            if truthy b then (JSON_parse b, s')
            else (Threw (new_Error "No content generated"), s')
        | None => (Threw (new_Error "No content generated"), s')
        end
    | (Threw e, w') =>
        (Threw e,
         mkState w'
           (trace t ++ [Called; Requested (str "gemini-2.5-flash")
                                  (recipe_prompt query); Responded]))
    end.
Proof.
  rewrite recipe_attempt_run. unfold called. cbn [world trace].
  rewrite <- app_assoc. reflexivity.
Qed.

(** C3, as the code has it. Take any attempt of a call of [generateRecipe]:
    the first, or a retry after rate limits. When the body of its response
    is empty ([undefined] or the empty string), the call fails at once with
    "No content generated". When the body is not a JSON text, the call
    fails at once with the error of [JSON.parse], unless that error is taken
    for a rate limit: then the call fails with it if the attempt is the
    third, and sends the request again after the backoff if not; when the
    error cannot be classified, the call fails with the error of the
    classification. The call fails in any case when every response has an
    empty body or one that is not a JSON text. A body that is a JSON text is
    returned as [JSON.parse] gives it, whatever its shape: the cast
    [as Recipe] checks nothing; and nothing is returned that is not the
    parsed body of the response to an attempt. *)
Theorem generateRecipe_fails_on_empty_or_unparsable (query : jsstring)
    (s : state W) (i : Z) (t : state W) :
  attempt (recipe_attempt query) 2000 s i t -> i < 3 ->
  let s_after w' :=
    mkState w' (trace t ++ [Called; Requested (str "gemini-2.5-flash")
                                      (recipe_prompt query); Responded]) in
  (forall r w',
      generateContent (recipe_request query) (world t) = (Returned r, w') ->
      truthy_opt (text r) = false ->
      generateRecipe query s
      = (Threw (new_Error "No content generated"), s_after w'))
  /\ (forall r w' b e,
        generateContent (recipe_request query) (world t) = (Returned r, w') ->
        text r = Some b -> truthy b = true ->
        JSON_parse b = Threw e ->
        (isRateLimit e = Returned false ->
         generateRecipe query s = (Threw e, s_after w'))
        /\ (isRateLimit e = Returned true -> i = 2 ->
            generateRecipe query s = (Threw e, s_after w'))
        /\ (isRateLimit e = Returned true -> i < 2 ->
            attempt (recipe_attempt query) 2000 s (i + 1)
              (backed_off (2000 * 2 ^ i) (s_after w')))
        /\ (forall typeError,
              isRateLimit e = Threw typeError ->
              generateRecipe query s = (Threw typeError, s_after w')))
  /\ ((forall req w r w', generateContent req w = (Returned r, w') ->
                          unusable_body r) ->
      exists e s', generateRecipe query s = (Threw e, s'))
  /\ (forall r w' b v,
        generateContent (recipe_request query) (world t) = (Returned r, w') ->
        text r = Some b -> truthy b = true ->
        JSON_parse b = Returned v ->
        generateRecipe query s = (Returned v, s_after w'))
  /\ (forall v s',
        generateRecipe query s = (Returned v, s') ->
        exists j u r w' b,
          attempt (recipe_attempt query) 2000 s j u
          /\ generateContent (recipe_request query) (world u) = (Returned r, w')
          /\ text r = Some b /\ truthy b = true
          /\ JSON_parse b = Returned v).
Proof.
  intros Hat Hi s_after. unfold generateRecipe, withRetry.
  change (Z.to_nat 3) with 3%nat.
  assert (Hend : forall r r' t',
             recipe_attempt query (called t) = (r, t') -> ends 3 i r r' ->
             retry_loop (throw max_retries_exceeded) (recipe_attempt query)
               3 2000 3 0 s = (r', t'))
    by (intros r r' t'; exact (attempt_ends _ _ 3 2000 s i t r r' t' Hat Hi)).
  repeat apply conj.
  - intros r w' Hg Hempty.
    apply (Hend (Threw (new_Error "No content generated"))).
    + rewrite recipe_attempt_called, Hg. subst s_after. cbn.
      destruct (text r) as [b|]; cbn in *; [rewrite Hempty|]; reflexivity.
    + apply (ends_rethrown _ _ _ false); reflexivity.
  - intros r w' b e Hg Hb Htr He.
    assert (Hrun : recipe_attempt query (called t) = (Threw e, s_after w'))
      by (rewrite recipe_attempt_called, Hg; cbn; rewrite Hb, Htr, He;
          reflexivity).
    repeat apply conj.
    + intros Hrl. apply (Hend (Threw e)); [exact Hrun |].
      apply (ends_rethrown _ _ _ false Hrl); reflexivity.
    + intros Hrl ->. apply (Hend (Threw e)); [exact Hrun |].
      apply (ends_rethrown _ _ _ true Hrl); reflexivity.
    + intros Hrl _. exact (attempt_next _ _ _ _ _ _ _ Hat Hrun Hrl).
    + intros typeError Hrl.
      apply (Hend (Threw e)); [exact Hrun |].
      exact (ends_condition _ _ _ _ Hrl).
  - intros Hbad.
    apply (withRetry_throws (recipe_attempt query) 3 2000); [lia|].
    apply recipe_attempt_unusable, Hbad.
  - intros r w' b v Hg Hb Htr Hv.
    apply (Hend (Returned v)); [| constructor].
    rewrite recipe_attempt_called, Hg. cbn. rewrite Hb, Htr, Hv. reflexivity.
  - intros v s' Hrun.
    destruct (withRetry_run (recipe_attempt query) 3 2000 s ltac:(lia))
      as (j & u & r & r' & u' & Hj & _ & Hfn & Hends & Hloop).
    change (Z.to_nat 3) with 3%nat in Hloop. rewrite Hloop in Hrun.
    injection Hrun as -> ->. inversion Hends; subst.
    rewrite recipe_attempt_called in Hfn.
    destruct (generateContent (recipe_request query) (world u))
      as [[r|e] w'] eqn:Hg; [|discriminate].
    cbn in Hfn. destruct (text r) as [b|] eqn:Hb; [|discriminate].
    destruct (truthy b) eqn:Htr; [|discriminate].
    exists j, u, r, w', b. injection Hfn as Hv _.
    repeat split; assumption.
Qed.

(** C8. The best-effort operations never throw. Each returns a value in
    every world and from every state; when the retried call inside it
    throws, for whatever reason (an error of the endpoint that is not a rate
    limit, a rate limit on the last attempt, a body that does not parse, a
    payload that does not decode), [generateLeftoverSuggestions] returns the
    empty array and [generateRecipeVisual] and [generateStepAudio] return
    [null]; so they do when the endpoint refuses every request. *)
Theorem best_effort_operations_degrade (ingredients : list jsstring)
    (currentTitle title description text : jsstring) (s : state W) :
  (exists v s',
      generateLeftoverSuggestions ingredients currentTitle s = (Returned v, s')
      /\ (forall e s1,
            withRetry (leftover_attempt ingredients currentTitle) 3 2000 s
            = (Threw e, s1) -> v = JArray [])
      /\ (always_refuses -> v = JArray []))
  /\ (exists v s',
        generateRecipeVisual title description s = (Returned v, s')
        /\ (forall e s1,
              withRetry (image_attempt (visual_prompt title description))
                3 2000 s = (Threw e, s1) -> v = None)
        /\ (always_refuses -> v = None))
  /\ (exists v s',
        generateStepAudio text s = (Returned v, s')
        /\ (forall e s1,
              withRetry (audio_attempt (Markup.spokenText text)) 3 2000 s
              = (Threw e, s1) -> v = None)
        /\ (always_refuses -> v = None)).
Proof.
  repeat apply conj.
  - unfold generateLeftoverSuggestions.
    destruct (best_effort
                (withRetry (leftover_attempt ingredients currentTitle) 3 2000)
                ErrorLeftovers (JArray []) s) as (v & s' & Hrun & Hfall).
    exists v, s'. repeat split; [exact Hrun | exact Hfall |].
    intros Href.
    destruct (withRetry_throws (leftover_attempt ingredients currentTitle)
                3 2000 ltac:(lia)
                (bind_throws _ _ (call_api_refused _ Href)) s)
      as (e & s1 & Hthrow).
    exact (Hfall _ _ Hthrow).
  - unfold generateRecipeVisual.
    destruct (best_effort
                (withRetry (image_attempt (visual_prompt title description))
                   3 2000)
                ErrorImage None s) as (v & s' & Hrun & Hfall).
    exists v, s'. repeat split; [exact Hrun | exact Hfall |].
    intros Href.
    destruct (withRetry_throws
                (image_attempt (visual_prompt title description))
                3 2000 ltac:(lia)
                (bind_throws _ _ (call_api_refused _ Href)) s)
      as (e & s1 & Hthrow).
    exact (Hfall _ _ Hthrow).
  - unfold generateStepAudio.
    destruct (best_effort
                (withRetry (audio_attempt (Markup.spokenText text)) 3 2000)
                ErrorAudio None s) as (v & s' & Hrun & Hfall).
    exists v, s'. repeat split; [exact Hrun | exact Hfall |].
    intros Href.
    destruct (withRetry_throws (audio_attempt (Markup.spokenText text))
                3 2000 ltac:(lia)
                (bind_throws _ _ (call_api_refused _ Href)) s)
      as (e & s1 & Hthrow).
    exact (Hfall _ _ Hthrow).
Qed.

End Operations.

Lemma generateRecipe_fails_on_empty_or_unparsable_witness :
  @generateRecipe nat (limited_then "") ecma404 (str "spicy chicken")
    (mkState 0%nat [])
  = (Threw (new_Error "No content generated"),
     mkState 2%nat
       [Called;
        Requested (str "gemini-2.5-flash") (recipe_prompt (str "spicy chicken"));
        Responded; Console (WarnRateLimit 2000); Waited 2000; Called;
        Requested (str "gemini-2.5-flash") (recipe_prompt (str "spicy chicken"));
        Responded])
  /\ @generateRecipe nat (answering "<html>") ecma404 (str "spicy chicken")
       (mkState 0%nat [])
     = (Threw SyntaxError,
        mkState 1%nat
          [Called;
           Requested (str "gemini-2.5-flash")
             (recipe_prompt (str "spicy chicken"));
           Responded]).
Proof.
  split.
  - refine (proj1 (@generateRecipe_fails_on_empty_or_unparsable nat
                     (limited_then "") ecma404 (str "spicy chicken")
                     (mkState 0%nat []) 1
                     (backed_off 2000
                        (mkState 1%nat
                           [Called;
                            Requested (str "gemini-2.5-flash")
                              (recipe_prompt (str "spicy chicken"));
                            Responded])) _ _)
              (mkResponse (Some []) None) 2%nat _ _).
    + exact (attempt_next _ 2000 _ 0 (mkState 0%nat [])
               (mkError (Some 429) None JSUndefined)
               (mkState 1%nat
                  [Called;
                   Requested (str "gemini-2.5-flash")
                     (recipe_prompt (str "spicy chicken"));
                   Responded])
               (attempt_first _ _ _) eq_refl eq_refl).
    + lia.
    + reflexivity.
    + reflexivity.
  - apply (proj1 (proj1 (proj2 (@generateRecipe_fails_on_empty_or_unparsable nat
                                  (answering "<html>") ecma404
                                  (str "spicy chicken") (mkState 0%nat []) 0 _
                                  (attempt_first _ _ _) ltac:(lia)))
                    (mkResponse (Some (str "<html>")) None) 1%nat (str "<html>")
                    SyntaxError eq_refl eq_refl eq_refl eq_refl));
      reflexivity.
Defined.

(** C3 as the specification words it fails on a body that is a JSON text of
    another shape: [{}] has none of the required fields, and
    [generateRecipe] returns it as the recipe. *)
Lemma generateRecipe_returns_shapeless_json :
  Json.parse (str "{}") = Returned (JObject [])
  /\ conforms recipeSchema (JObject []) = false
  /\ @generateRecipe nat (answering "{}") ecma404 (str "spicy chicken")
       (mkState 0%nat [])
     = (Returned (JObject []),
        mkState 1%nat
          [Called;
           Requested (str "gemini-2.5-flash")
             (recipe_prompt (str "spicy chicken"));
           Responded]).
Proof. repeat split; reflexivity. Qed.

(** The three best-effort operations against an endpoint that refuses with
    an error that is no rate limit, and the audio path on three bytes. *)
Example best_effort_refused :
  let e := new_Error "503 Service Unavailable" in
  fst (@generateLeftoverSuggestions nat (refusing e) ecma404
         [str "eggs"] (str "Omelette") (mkState 0%nat []))
  = Returned (JArray [])
  /\ fst (@generateRecipeVisual nat (refusing e) (str "Omelette") (str "Plain.")
            (mkState 0%nat []))
     = Returned None
  /\ fst (@generateStepAudio nat (refusing e) browser (str "Whisk.")
            (mkState 0%nat []))
     = Returned None.
Proof. repeat split; reflexivity. Qed.

Example generateStepAudio_speaks :
  @generateStepAudio nat speaking browser (str "Whisk the <<eggs|2>>.")
    (mkState 0%nat [])
  = (Returned (Some (str "blob:royal-recipes/audio")),
     mkState 2%nat
       [Called;
        Requested (str "gemini-2.5-flash-preview-tts")
          (str "Whisk the 2 of eggs.");
        Responded]).
Proof. reflexivity. Qed.

End ClientFacts.

(* ===================================================================== *)
(** * Properties of the audio transcoder *)
(* ===================================================================== *)

Module WavFacts.
Import Wav.

Lemma Z_of_byte_of_Z (v : Z) : Z_of_byte (byte_of_Z v) = v mod 256.
Proof.
  unfold Z_of_byte, byte_of_Z.
  pose proof (Z.mod_pos_bound v 256 ltac:(lia)) as Hb.
  rewrite (Byte.to_of_N (N_of_ascii (ascii_of_N (Z.to_N (v mod 256)))))
    by (symmetry; apply byte_of_ascii_via_N).
  rewrite N_ascii_embedding by lia. lia.
Qed.

(** Four little-endian bytes read back give the value modulo 2^32. *)
Lemma le32_value (v : Z) :
  Z_of_byte (byte_of_Z v) + 256 * Z_of_byte (byte_of_Z (v / 256))
  + 65536 * Z_of_byte (byte_of_Z (v / 65536))
  + 16777216 * Z_of_byte (byte_of_Z (v / 16777216))
  = v mod 4294967296.
Proof.
  rewrite !Z_of_byte_of_Z.
  replace (v / 65536) with (v / 256 / 256)
    by (rewrite Z.div_div by lia; reflexivity).
  replace (v / 16777216) with (v / 256 / 256 / 256)
    by (rewrite !Z.div_div by lia; reflexivity).
  pose proof (Z.div_mod v 256 ltac:(lia)).
  pose proof (Z.div_mod (v / 256) 256 ltac:(lia)).
  pose proof (Z.div_mod (v / 256 / 256) 256 ltac:(lia)).
  pose proof (Z.div_mod (v / 256 / 256 / 256) 256 ltac:(lia)).
  pose proof (Z.mod_pos_bound v 256 ltac:(lia)).
  pose proof (Z.mod_pos_bound (v / 256) 256 ltac:(lia)).
  pose proof (Z.mod_pos_bound (v / 256 / 256) 256 ltac:(lia)).
  pose proof (Z.mod_pos_bound (v / 256 / 256 / 256) 256 ltac:(lia)).
  apply (Z.mod_unique_pos _ _ (v / 256 / 256 / 256 / 256)); lia.
Qed.

(** [pcmToWav] never throws: it returns the canonical header followed by the
    payload as it stands. *)
Lemma pcmToWav_layout (pcmData : list byte) (sampleRate : Z) :
  pcmToWav pcmData sampleRate
  = Some (mkBlob (header sampleRate (Z.of_nat (List.length pcmData)) ++ pcmData)
            (str "audio/wav")).
Proof.
  unfold pcmToWav, ArrayBuffer.
  remember (Z.of_nat (List.length pcmData)) as dataSize.
  cbn [repeat writeString str list_ascii_of_string setUint8 setUint16 setUint32
       List.length Nat.add Nat.leb mbind option_bind list_insert insert].
  unfold set_at. cbn [List.length]. rewrite repeat_length.
  replace (44 + List.length pcmData <=? _)%nat with true
    by (symmetry; apply Nat.leb_le; lia).
  cbn [firstn skipn Nat.add mbind option_bind].
  rewrite skipn_all2 by (rewrite repeat_length; lia).
  rewrite app_nil_r. reflexivity.
Qed.

Lemma header_length (sampleRate dataSize : Z) :
  List.length (header sampleRate dataSize) = 44%nat.
Proof. reflexivity. Qed.

(** The fields of the header, read back at their offsets. *)
Lemma header_fields (sampleRate dataSize : Z) (payload : list byte) :
  getUint32 (header sampleRate dataSize ++ payload) 24
  = Some (sampleRate mod 4294967296)
  /\ getUint32 (header sampleRate dataSize ++ payload) 28
     = Some ((sampleRate * 1 * 16 / 8) mod 4294967296)
  /\ getUint16 (header sampleRate dataSize ++ payload) 32 = Some 2
  /\ getUint16 (header sampleRate dataSize ++ payload) 34 = Some 16
  /\ getUint32 (header sampleRate dataSize ++ payload) 40
     = Some (dataSize mod 4294967296).
Proof.
  unfold header. cbn [map str list_ascii_of_string app le16 le32].
  unfold getUint32, getUint16. cbn [lookup list_lookup mbind option_bind].
  rewrite !le32_value. repeat split; reflexivity.
Qed.

(** C7. [pcmToWav] is a function of its arguments alone, and it throws on
    none: for every payload, a multiple of the block align or not, and every
    sample rate it returns a container of 44 + the payload length bytes,
    with the byte rate [sampleRate * 1 * 16 / 8] in the four little-endian
    bytes at offset 28, the block align 2 in the two at offset 32, and the
    payload as it stands from offset 44 on. For 8000 bytes at 24000 Hz the
    container has 44 + 8000 bytes and the byte rate reads 48000. *)
Theorem pcmToWav_container :
  (forall (pcmData : list byte) (sampleRate : Z),
      exists wav,
        pcmToWav pcmData sampleRate = Some wav
        /\ Z.of_nat (List.length (blob_bytes wav))
           = 44 + Z.of_nat (List.length pcmData)
        /\ getUint32 (blob_bytes wav) 28
           = Some ((sampleRate * 1 * 16 / 8) mod 4294967296)
        /\ getUint16 (blob_bytes wav) 32 = Some 2
        /\ skipn 44 (blob_bytes wav) = pcmData)
  /\ (forall pcmData : list byte,
        Z.of_nat (List.length pcmData) = 8000 ->
        exists wav,
          pcmToWav pcmData 24000 = Some wav
          /\ Z.of_nat (List.length (blob_bytes wav)) = 44 + 8000
          /\ getUint32 (blob_bytes wav) 28 = Some 48000
          /\ getUint16 (blob_bytes wav) 32 = Some 2
          /\ skipn 44 (blob_bytes wav) = pcmData).
Proof.
  split.
  - intros pcmData sampleRate. eexists. split; [apply pcmToWav_layout|].
    cbn [blob_bytes].
    destruct (header_fields sampleRate (Z.of_nat (List.length pcmData))
                pcmData) as (_ & Hrate & Halign & _).
    split; [|split; [exact Hrate | split; [exact Halign | reflexivity]]].
    rewrite length_app, header_length. lia.
  - intros pcmData Hlen. eexists. split; [apply pcmToWav_layout|].
    cbn [blob_bytes].
    destruct (header_fields 24000 (Z.of_nat (List.length pcmData))
                pcmData) as (_ & Hrate & Halign & _).
    split; [|split; [exact Hrate | split; [exact Halign | reflexivity]]].
    rewrite length_app, header_length. lia.
Qed.

Lemma pcmToWav_container_witness :
  exists wav,
    pcmToWav (repeat Byte.x7f (Z.to_nat 8000)) 24000 = Some wav
    /\ Z.of_nat (List.length (blob_bytes wav)) = 44 + 8000
    /\ getUint32 (blob_bytes wav) 28 = Some 48000
    /\ getUint16 (blob_bytes wav) 32 = Some 2
    /\ skipn 44 (blob_bytes wav) = repeat Byte.x7f (Z.to_nat 8000).
Proof.
  apply (proj2 pcmToWav_container (repeat Byte.x7f (Z.to_nat 8000))).
  rewrite repeat_length. apply Z2Nat.id. lia.
Defined.

(** A payload of three bytes, which is no multiple of the block align. *)
Example pcmToWav_odd_payload :
  blob_bytes <$> pcmToWav [Byte.x01; Byte.x02; Byte.x03] 24000
  = Some (map charCode (str "RIFF") ++ le32 39 ++ map charCode (str "WAVEfmt ")
          ++ le32 16 ++ le16 1 ++ le16 1 ++ le32 24000 ++ le32 48000
          ++ le16 2 ++ le16 16 ++ map charCode (str "data") ++ le32 3
          ++ [Byte.x01; Byte.x02; Byte.x03]).
Proof. reflexivity. Qed.

End WavFacts.

(* ===================================================================== *)
(** * Properties of the instruction markup *)
(* ===================================================================== *)

Module StringFacts.

Lemma startsWith_app (p t : jsstring) : startsWith (p ++ t) p = true.
Proof.
  induction p as [|c p IH]; [destruct t; reflexivity|].
  cbn. rewrite Ascii.eqb_refl. exact IH.
Qed.

Lemma startsWith_split (s p : jsstring) :
  startsWith s p = true -> s = p ++ skipn (List.length p) s.
Proof.
  revert s. induction p as [|c p IH]; intros s Hs; [reflexivity|].
  destruct s as [|d s]; [discriminate|]. cbn in Hs.
  apply andb_true_iff in Hs as [Hd Hs]. apply Ascii.eqb_eq in Hd. subst d.
  cbn. f_equal. apply IH, Hs.
Qed.

Lemma lacks_app (c : ascii) (a b : jsstring) :
  lacks c (a ++ b) = lacks c a && lacks c b.
Proof. apply forallb_app. Qed.

Lemma cut_app (c : ascii) (s : jsstring) : fst (cut c s) ++ snd (cut c s) = s.
Proof.
  induction s as [|d s IH]; [reflexivity|]. cbn.
  destruct (Ascii.eqb d c); [reflexivity|].
  destruct (cut c s) as [body rest]. cbn in *. f_equal. exact IH.
Qed.

(** The cut of a text that starts with a stretch without [c] that either
    ends the text or is followed by [c]. *)
Lemma cut_stretch (c : ascii) (body rest : jsstring) :
  lacks c body = true ->
  cut c (body ++ c :: rest) = (body, c :: rest).
Proof.
  induction body as [|d body IH]; intros Hb; cbn.
  - rewrite Ascii.eqb_refl. reflexivity.
  - cbn in Hb. apply andb_true_iff in Hb as [Hd Hb].
    apply negb_true_iff in Hd. rewrite Hd, (IH Hb). reflexivity.
Qed.

(** What is left after a cut is a suffix of the text that is empty or
    starts with [c]. *)
Lemma cut_rest (c : ascii) (s : jsstring) :
  snd (cut c s) = [] \/ exists r, snd (cut c s) = c :: r.
Proof.
  induction s as [|d s IH]; [left; reflexivity|]. cbn.
  destruct (Ascii.eqb d c) eqn:Hd.
  - apply Ascii.eqb_eq in Hd. subst d. right. eexists. reflexivity.
  - destruct (cut c s) as [body rest]. exact IH.
Qed.

Lemma cut_empty (c : ascii) (s : jsstring) :
  fst (cut c s) = [] -> snd (cut c s) = s.
Proof.
  intros Hf. rewrite <- (cut_app c s) at 2. rewrite Hf. reflexivity.
Qed.

Lemma cut_head (c d : ascii) (body rest s : jsstring) :
  cut c s = (d :: body, rest) -> d <> c.
Proof.
  destruct s as [|x s]; cbn; [discriminate|].
  destruct (Ascii.eqb x c) eqn:Hx; [discriminate|].
  destruct (cut c s). intros [= <- _ _]. apply Ascii.eqb_neq, Hx.
Qed.

Lemma lookup_map {A B : Type} (f : A -> B) (l : list A) (i : nat) :
  map f l !! i = f <$> l !! i.
Proof.
  revert i. induction l as [|x l IH]; intros [|i]; cbn; auto.
Qed.

Lemma includes_startsWith (s p : jsstring) :
  startsWith s p = true -> includes s p = true.
Proof. destruct s; cbn; intros ->; reflexivity. Qed.

Lemma includes_later (a t p : jsstring) :
  includes t p = true -> includes (a ++ t) p = true.
Proof.
  intros Ht. induction a as [|c a IH]; [exact Ht|].
  cbn. rewrite IH. apply orb_true_r.
Qed.

Lemma includes_suffix_false (a t p : jsstring) :
  includes (a ++ t) p = false -> includes t p = false.
Proof.
  intros Hf. destruct (includes t p) eqn:Ht; [|reflexivity].
  rewrite (includes_later a t p Ht) in Hf. discriminate.
Qed.

End StringFacts.

Module RegexFacts.
Import Regex StringFacts.

(** The greedy run [[^c]+] before a continuation that cannot start on a
    character other than [c]: it takes the whole stretch without [c], and
    giving characters back never helps. *)
Lemma greedy_not_cut {R : Type} (c : ascii) (k : jsstring -> option R) :
  (forall d s', d <> c -> k (d :: s') = None) ->
  forall s,
    greedy_not c k s
    = match cut c s with
      | ([], _) => None
      | (_ :: _, rest) => k rest
      end.
Proof.
  intros Hk. induction s as [|d s IH]; [reflexivity|].
  cbn in *. destruct (Ascii.eqb d c) eqn:Hd; [reflexivity|].
  rewrite IH. destruct (cut c s) as [[|b body] rest] eqn:Hcut.
  - pose proof (cut_empty c s) as He. rewrite Hcut in He. cbn in He.
    rewrite He by reflexivity. reflexivity.
  - destruct (k rest) eqn:Hrest; [reflexivity|].
    pose proof (cut_app c s) as Happ. rewrite Hcut in Happ. cbn in Happ.
    rewrite <- Happ. apply Hk. eapply cut_head, Hcut.
Qed.

(** ** The two loops, one position at a time *)

Lemma split_loop_miss (r : re) (acc : jsstring) (c : ascii) (s' : jsstring) :
  exec r (c :: s') = None ->
  split_loop r acc (c :: s') = split_loop r (c :: acc) s'.
Proof.
  intros He. rewrite split_loop_equation_2, He.
  apply split_loop_clause_2_equation_3.
Qed.

Lemma split_loop_hit (r : re) (acc : jsstring) (c : ascii) (s' : jsstring)
    (n : nat) (caps : list jsstring) :
  exec r (c :: s') = Some (S n, caps) ->
  split_loop r acc (c :: s')
  = rev acc :: caps ++ split_loop r [] (skipn n s').
Proof.
  intros He. rewrite split_loop_equation_2, He.
  apply split_loop_clause_2_equation_2.
Qed.

Lemma replace_loop_miss (r : re) (tpl : jsstring) (c : ascii) (s' : jsstring) :
  exec r (c :: s') = None ->
  replace_loop r tpl (c :: s') = c :: replace_loop r tpl s'.
Proof.
  intros He. rewrite replace_loop_equation_2, He.
  apply replace_loop_clause_2_equation_3.
Qed.

Lemma replace_loop_hit (r : re) (tpl : jsstring) (c : ascii) (s' : jsstring)
    (n : nat) (caps : list jsstring) :
  exec r (c :: s') = Some (S n, caps) ->
  replace_loop r tpl (c :: s')
  = substitution tpl (firstn (S n) (c :: s')) caps
      ++ replace_loop r tpl (skipn n s').
Proof.
  intros He. rewrite replace_loop_equation_2, He.
  apply replace_loop_clause_2_equation_2.
Qed.

Lemma silent_tail (r : re) (c : ascii) (u rest : jsstring) :
  silent r (c :: u) rest -> silent r u rest.
Proof. intros Hs u1 d u2 ->. apply (Hs (c :: u1) d u2). reflexivity. Qed.

Lemma split_loop_silent (r : re) (u rest : jsstring) :
  silent r u rest ->
  forall acc, split_loop r acc (u ++ rest) = split_loop r (rev u ++ acc) rest.
Proof.
  induction u as [|c u IH]; intros Hs acc; [reflexivity|].
  cbn [app]. rewrite split_loop_miss by (apply (Hs [] c u); reflexivity).
  rewrite (IH (silent_tail _ _ _ _ Hs)). cbn [rev]. rewrite <- app_assoc.
  reflexivity.
Qed.

Lemma replace_loop_silent (r : re) (tpl u rest : jsstring) :
  silent r u rest ->
  replace_loop r tpl (u ++ rest) = u ++ replace_loop r tpl rest.
Proof.
  induction u as [|c u IH]; intros Hs; [reflexivity|].
  cbn [app]. rewrite replace_loop_miss by (apply (Hs [] c u); reflexivity).
  rewrite (IH (silent_tail _ _ _ _ Hs)). reflexivity.
Qed.

(** A stretch [u] that is one match is emitted, or replaced, as a whole. *)
Lemma split_loop_span (r : re) (u rest : jsstring) (caps : list jsstring) :
  u <> [] -> exec r (u ++ rest) = Some (List.length u, caps) ->
  forall acc,
    split_loop r acc (u ++ rest) = rev acc :: caps ++ split_loop r [] rest.
Proof.
  intros Hu He acc. destruct u as [|c u]; [congruence|].
  cbn [app List.length] in *. rewrite (split_loop_hit _ _ _ _ _ _ He).
  rewrite skipn_app, skipn_all, Nat.sub_diag. reflexivity.
Qed.

Lemma replace_loop_span (r : re) (tpl u rest : jsstring)
    (caps : list jsstring) :
  u <> [] -> exec r (u ++ rest) = Some (List.length u, caps) ->
  replace_loop r tpl (u ++ rest)
  = substitution tpl u caps ++ replace_loop r tpl rest.
Proof.
  intros Hu He. destruct u as [|c u]; [congruence|].
  cbn [app List.length] in *. rewrite (replace_loop_hit _ _ _ _ _ _ He).
  rewrite skipn_app, skipn_all, Nat.sub_diag.
  change (firstn (S (List.length u)) (c :: u ++ rest))
    with (c :: firstn (List.length u) (u ++ rest)).
  rewrite firstn_app, Nat.sub_diag, firstn_all. cbn. rewrite app_nil_r.
  reflexivity.
Qed.

End RegexFacts.

Module MarkupFacts.
Import Regex Markup StringFacts RegexFacts.

(** None of the three expressions matches where the text does not start
    with [<<]. *)
Lemma exec_needs_open (r : re) (s : jsstring) :
  r = re_render \/ r = re_clean \/ r = re_speech ->
  startsWith s (str "<<") = false -> exec r s = None.
Proof.
  intros Hr Hs. destruct s as [|a [|b t]];
    destruct Hr as [-> | [-> | ->]]; cbn in *; try reflexivity;
    destruct (Ascii.eqb a "<"); cbn in *; try reflexivity;
    destruct (Ascii.eqb b "<"); cbn in *; try reflexivity; discriminate.
Qed.

(** [<<[^>]+>>] at a [<<]: the stretch up to the next [>] must not be
    empty and must be followed by [>>]; the one capture is the match. *)
Lemma exec_render_open (t : jsstring) :
  exec re_render (str "<<" ++ t)
  = match cut ">" t with
    | (b :: body, rest) =>
        if startsWith rest (str ">>")
        then Some ((List.length (b :: body) + 4)%nat,
                   [str "<<" ++ (b :: body) ++ str ">>"])
        else None
    | ([], _) => None
    end.
Proof.
  unfold exec, re_render. cbn [run str list_ascii_of_string app].
  cbn [Ascii.eqb Bool.eqb]. rewrite greedy_not_cut.
  2:{ intros d s' Hd. cbn. apply Ascii.eqb_neq in Hd. rewrite Hd.
      reflexivity. }
  pose proof (cut_app ">" t) as Happ.
  destruct (cut ">" t) as [[|b body] rest]; [reflexivity|].
  cbn [fst snd] in Happ.
  destruct rest as [|x [|y rest]]; cbn; try reflexivity.
  - destruct (Ascii.eqb x ">"); reflexivity.
  - destruct (Ascii.eqb x ">") eqn:Hx; [|reflexivity].
    destruct (Ascii.eqb y ">") eqn:Hy; [|reflexivity].
    apply Ascii.eqb_eq in Hx, Hy. subst x y. cbn.
    rewrite <- Happ. cbn. rewrite !length_app. cbn.
    replace (S (S (S (List.length body + S (S (List.length rest)))))
             - List.length rest)%nat
      with (S (S (S (List.length body + 2)))) by lia.
    f_equal. f_equal; [lia|]. f_equal. cbn. do 3 f_equal.
    rewrite firstn_app.
    replace (List.length body + 2 - List.length body)%nat with 2%nat by lia.
    rewrite firstn_all2 by lia. reflexivity.
Qed.

(** What is left after the cut at [c] starts with [c]. *)
Lemma cut_sep (c sep : ascii) (s body t2 : jsstring) :
  cut c s = (body, sep :: t2) -> sep = c.
Proof.
  intros Hcut. destruct (cut_rest c s) as [He | [r He]];
    rewrite Hcut in He; cbn in He; congruence.
Qed.

Lemma firstn_length_app (a b : jsstring) :
  firstn (List.length (a ++ b) - List.length b) (a ++ b) = a.
Proof.
  rewrite length_app.
  replace (List.length a + List.length b - List.length b)%nat
    with (List.length a) by lia.
  rewrite firstn_app, Nat.sub_diag, firstn_all. cbn. apply app_nil_r.
Qed.

(** [<<([^|]+)\|[^>]+>>] at a [<<]: a name up to the first [|], which must
    be there, and a quantity up to the next [>], which must start [>>];
    neither is empty. The capture is the name. *)
Lemma exec_clean_open (t : jsstring) :
  exec re_clean (str "<<" ++ t)
  = match cut "|" t with
    | (n :: name, _ :: t2) =>
        match cut ">" t2 with
        | (q :: quantity, rest) =>
            if startsWith rest (str ">>")
            then Some ((List.length (n :: name) + List.length (q :: quantity)
                        + 5)%nat,
                       [n :: name])
            else None
        | ([], _) => None
        end
    | _ => None
    end.
Proof.
  unfold exec, re_clean. cbn [run str list_ascii_of_string app].
  cbn [Ascii.eqb Bool.eqb]. rewrite greedy_not_cut.
  2:{ intros d s' Hd. cbn. apply Ascii.eqb_neq in Hd. rewrite Hd.
      reflexivity. }
  pose proof (cut_app "|" t) as Happ.
  destruct (cut "|" t) as [[|n name] [|sep t2]] eqn:Hcut; try reflexivity.
  cbn [fst snd] in Happ.
  pose proof (cut_sep _ _ _ _ _ Hcut) as ->.
  cbn [Ascii.eqb Bool.eqb]. rewrite greedy_not_cut.
  2:{ intros d s' Hd. cbn. apply Ascii.eqb_neq in Hd. rewrite Hd.
      reflexivity. }
  pose proof (cut_app ">" t2) as Happ2.
  destruct (cut ">" t2) as [[|q quantity] rest]; [reflexivity|].
  cbn [fst snd] in Happ2.
  destruct rest as [|x [|y rest]]; cbn; try reflexivity.
  - destruct (Ascii.eqb x ">"); reflexivity.
  - destruct (Ascii.eqb x ">") eqn:Hx; [|reflexivity].
    destruct (Ascii.eqb y ">") eqn:Hy; [|reflexivity].
    apply Ascii.eqb_eq in Hx, Hy. subst x y. cbn.
    f_equal. f_equal.
    + rewrite <- Happ, <- Happ2. cbn. rewrite !length_app. cbn.
      rewrite !length_app. cbn. lia.
    + f_equal. rewrite <- Happ at 2. rewrite <- Happ at 1.
      apply (firstn_length_app (n :: name)).
Qed.

(** [<<([^|]+)\|([^>]+)>>]: the same match, with the name and the quantity
    as captures. *)
Lemma exec_speech_open (t : jsstring) :
  exec re_speech (str "<<" ++ t)
  = match cut "|" t with
    | (n :: name, _ :: t2) =>
        match cut ">" t2 with
        | (q :: quantity, rest) =>
            if startsWith rest (str ">>")
            then Some ((List.length (n :: name) + List.length (q :: quantity)
                        + 5)%nat,
                       [n :: name; q :: quantity])
            else None
        | ([], _) => None
        end
    | _ => None
    end.
Proof.
  unfold exec, re_speech. cbn [run str list_ascii_of_string app].
  cbn [Ascii.eqb Bool.eqb]. rewrite greedy_not_cut.
  2:{ intros d s' Hd. cbn. apply Ascii.eqb_neq in Hd. rewrite Hd.
      reflexivity. }
  pose proof (cut_app "|" t) as Happ.
  destruct (cut "|" t) as [[|n name] [|sep t2]] eqn:Hcut; try reflexivity.
  cbn [fst snd] in Happ.
  pose proof (cut_sep _ _ _ _ _ Hcut) as ->.
  cbn [Ascii.eqb Bool.eqb]. rewrite greedy_not_cut.
  2:{ intros d s' Hd. cbn. apply Ascii.eqb_neq in Hd. rewrite Hd.
      reflexivity. }
  pose proof (cut_app ">" t2) as Happ2.
  destruct (cut ">" t2) as [[|q quantity] rest]; [reflexivity|].
  cbn [fst snd] in Happ2.
  destruct rest as [|x [|y rest]]; cbn; try reflexivity.
  - destruct (Ascii.eqb x ">"); reflexivity.
  - destruct (Ascii.eqb x ">") eqn:Hx; [|reflexivity].
    destruct (Ascii.eqb y ">") eqn:Hy; [|reflexivity].
    apply Ascii.eqb_eq in Hx, Hy. subst x y. cbn.
    f_equal. f_equal.
    + rewrite <- Happ, <- Happ2. cbn. rewrite !length_app. cbn.
      rewrite !length_app. cbn. lia.
    + f_equal.
      * rewrite <- Happ at 2. rewrite <- Happ at 1.
        apply (firstn_length_app (n :: name)).
      * f_equal. rewrite <- Happ2 at 2. rewrite <- Happ2 at 1.
        apply (firstn_length_app (q :: quantity)).
Qed.

(** ** Plain stretches *)

Lemma plain_tail (c : ascii) (s : jsstring) : plain (c :: s) = true -> plain s = true.
Proof. cbn. intros H. apply andb_true_iff in H. tauto. Qed.

Lemma plain_suffix (a b : jsstring) : plain (a ++ b) = true -> plain b = true.
Proof.
  induction a as [|c a IH]; [tauto|]. intros H. apply IH.
  exact (plain_tail _ _ H).
Qed.

(** A plain stretch does not start with [<<], whatever follows it. *)
Lemma plain_no_open (lit rest : jsstring) :
  plain lit = true -> lit <> [] ->
  startsWith (lit ++ rest) (str "<<") = false.
Proof.
  intros Hp Hne. destruct lit as [|c [|d lit]]; [congruence| |]; cbn in *.
  - destruct (Ascii.eqb c "<"); [discriminate | reflexivity].
  - destruct (Ascii.eqb c "<"); [|reflexivity]. cbn.
    destruct (Ascii.eqb d "<"); [discriminate | reflexivity].
Qed.

Lemma plain_starts (lit : jsstring) :
  plain lit = true -> startsWith lit (str "<<") = false.
Proof.
  intros Hp. destruct lit as [|c lit]; [reflexivity|].
  rewrite <- (app_nil_r (c :: lit)). apply plain_no_open; [exact Hp | discriminate].
Qed.

Lemma lacks_plain (s : jsstring) : lacks "<" s = true -> plain s = true.
Proof.
  induction s as [|c s IH]; [reflexivity|]. cbn. intros H.
  apply andb_true_iff in H as [Hc H]. apply negb_true_iff in Hc.
  rewrite Hc, (IH H). reflexivity.
Qed.

Lemma plain_silent (r : re) (lit rest : jsstring) :
  r = re_render \/ r = re_clean \/ r = re_speech ->
  plain lit = true -> silent r lit rest.
Proof.
  intros Hr Hp u1 c u2 ->. apply (exec_needs_open r _ Hr).
  apply (plain_no_open (c :: u2) rest); [|discriminate].
  exact (plain_suffix _ _ Hp).
Qed.

(** ** One part of [RichInstruction] *)

Lemma render_part_no_open (part : jsstring) :
  startsWith part (str "<<") = false -> render_part part = Text part.
Proof. intros H. unfold render_part. rewrite H. reflexivity. Qed.

Lemma endsWith_app (a p : jsstring) : endsWith (a ++ p) p = true.
Proof. unfold endsWith. rewrite rev_app_distr. apply startsWith_app. Qed.

Lemma slice_span (content : jsstring) :
  slice_2_m2 (str "<<" ++ content ++ str ">>") = content.
Proof.
  unfold slice_2_m2. cbn [str list_ascii_of_string app skipn List.length].
  rewrite length_app. cbn [List.length].
  replace (S (S (List.length content + 2)) - 2 - 2)%nat
    with (List.length content) by lia.
  rewrite skipn_O, firstn_app, Nat.sub_diag, firstn_all. cbn.
  apply app_nil_r.
Qed.

(** A delimited span is rendered by the first two pieces of its content. *)
Lemma render_part_span (content : jsstring) :
  render_part (str "<<" ++ content ++ str ">>")
  = match split_on "|" content with
    | name :: quantity :: _ =>
        if truthy name && truthy quantity
        then IngredientTooltip name quantity
        else Text (str "<<" ++ content ++ str ">>")
    | _ => Text (str "<<" ++ content ++ str ">>")
    end.
Proof.
  unfold render_part. rewrite startsWith_app.
  rewrite (app_assoc (str "<<") content (str ">>")), endsWith_app.
  rewrite <- app_assoc, slice_span. reflexivity.
Qed.

Lemma split_on_lacks (c : ascii) (x : jsstring) :
  lacks c x = true -> split_on c x = [x].
Proof.
  induction x as [|d x IH]; [reflexivity|]. cbn. intros H.
  apply andb_true_iff in H as [Hd H]. apply negb_true_iff in Hd.
  rewrite Hd, (IH H). reflexivity.
Qed.

Lemma split_on_sep (c : ascii) (x t : jsstring) :
  lacks c x = true -> split_on c (x ++ c :: t) = x :: split_on c t.
Proof.
  induction x as [|d x IH]; cbn; intros H.
  - rewrite Ascii.eqb_refl. reflexivity.
  - apply andb_true_iff in H as [Hd H]. apply negb_true_iff in Hd.
    rewrite Hd, (IH H). reflexivity.
Qed.

(** ** The three expressions on a delimited span *)

Lemma truthy_cons (x : jsstring) : truthy x = true -> exists c x', x = c :: x'.
Proof. destruct x as [|c x']; [discriminate | eauto]. Qed.

Lemma annotation_app (name quantity rest : jsstring) :
  annotation name quantity ++ rest
  = str "<<" ++ name ++ "|"%char :: quantity ++ ">"%char :: ">"%char :: rest.
Proof.
  unfold annotation. cbn [str list_ascii_of_string app].
  rewrite <- !app_assoc. cbn [app]. rewrite <- app_assoc. reflexivity.
Qed.

Lemma annotation_length (name quantity : jsstring) :
  List.length (annotation name quantity)
  = (List.length name + List.length quantity + 5)%nat.
Proof.
  unfold annotation. cbn [str list_ascii_of_string app List.length].
  rewrite !length_app. cbn. rewrite length_app. cbn. lia.
Qed.

Lemma annotation_content (name quantity : jsstring) :
  annotation name quantity
  = str "<<" ++ (name ++ "|"%char :: quantity) ++ str ">>".
Proof.
  unfold annotation. cbn [str list_ascii_of_string app].
  rewrite <- !app_assoc. reflexivity.
Qed.

Lemma exec_render_span (content rest : jsstring) :
  content <> [] -> lacks ">" content = true ->
  exec re_render ((str "<<" ++ content ++ str ">>") ++ rest)
  = Some (List.length (str "<<" ++ content ++ str ">>"),
          [str "<<" ++ content ++ str ">>"]).
Proof.
  intros Hne Hl. rewrite <- !app_assoc. rewrite exec_render_open.
  cbn [str list_ascii_of_string app]. rewrite (cut_stretch _ _ _ Hl).
  destruct content as [|c content]; [congruence|]. cbn.
  rewrite !length_app. cbn. do 2 f_equal. lia.
Qed.

Lemma exec_clean_annotation (name quantity rest : jsstring) :
  truthy name = true -> lacks "|" name = true ->
  truthy quantity = true -> lacks ">" quantity = true ->
  exec re_clean (annotation name quantity ++ rest)
  = Some (List.length (annotation name quantity), [name]).
Proof.
  intros Hn Hln Hq Hlq. rewrite annotation_app, exec_clean_open.
  rewrite (cut_stretch _ _ _ Hln).
  apply truthy_cons in Hn as (n & name' & ->). cbv iota beta.
  rewrite (cut_stretch _ _ _ Hlq).
  apply truthy_cons in Hq as (q & quantity' & ->). cbv iota beta.
  cbn [startsWith str list_ascii_of_string Ascii.eqb Bool.eqb andb].
  rewrite annotation_length. reflexivity.
Qed.

Lemma exec_speech_annotation (name quantity rest : jsstring) :
  truthy name = true -> lacks "|" name = true ->
  truthy quantity = true -> lacks ">" quantity = true ->
  exec re_speech (annotation name quantity ++ rest)
  = Some (List.length (annotation name quantity), [name; quantity]).
Proof.
  intros Hn Hln Hq Hlq. rewrite annotation_app, exec_speech_open.
  rewrite (cut_stretch _ _ _ Hln).
  apply truthy_cons in Hn as (n & name' & ->). cbv iota beta.
  rewrite (cut_stretch _ _ _ Hlq).
  apply truthy_cons in Hq as (q & quantity' & ->). cbv iota beta.
  cbn [startsWith str list_ascii_of_string Ascii.eqb Bool.eqb andb].
  rewrite annotation_length. reflexivity.
Qed.

Lemma annotation_not_nil (name quantity : jsstring) :
  annotation name quantity <> [].
Proof. unfold annotation. cbn. discriminate. Qed.

Lemma field_ok_parts (x : jsstring) :
  field_ok x = true ->
  truthy x = true /\ lacks "|" x = true /\ lacks ">" x = true.
Proof.
  unfold field_ok. intros H. apply andb_true_iff in H as [H H3].
  apply andb_true_iff in H as [H1 H2]. auto.
Qed.

Lemma bare_parts (x : jsstring) :
  bare x = true ->
  lacks "<" x = true /\ lacks ">" x = true /\ lacks "|" x = true.
Proof.
  unfold bare. intros H. apply andb_true_iff in H as [H H3].
  apply andb_true_iff in H as [H1 H2]. auto.
Qed.

Lemma substitution_name (u name : jsstring) :
  substitution (str "$1") u [name] = name.
Proof.
  cbn. change (digit_of "1") with (Some 1%nat). cbn. apply app_nil_r.
Qed.

Lemma substitution_phrase (u name quantity : jsstring) :
  substitution (str "$2 of $1") u [name; quantity]
  = quantity ++ str " of " ++ name.
Proof.
  cbn. change (digit_of "2") with (Some 2%nat). cbn.
  change (digit_of "1") with (Some 1%nat). cbn. rewrite app_nil_r.
  reflexivity.
Qed.

Lemma split_from_start (r : re) (s : jsstring) :
  exec r [] = None -> split r s = split_loop r [] s.
Proof.
  intros He. destruct s; [|reflexivity]. cbn. rewrite He.
  rewrite split_loop_equation_1. reflexivity.
Qed.

Lemma replace_loop_end (r : re) (tpl : jsstring) :
  exec r [] = None -> replace_loop r tpl [] = [].
Proof. intros He. rewrite replace_loop_equation_1, He. reflexivity. Qed.

(** ** The spans that [RichInstruction] finds *)

Lemma cut_lacks (c : ascii) (s : jsstring) : lacks c (fst (cut c s)) = true.
Proof.
  induction s as [|d s IH]; [reflexivity|]. cbn.
  destruct (Ascii.eqb d c) eqn:Hd; [reflexivity|].
  destruct (cut c s) as [body rest]. cbn in *. rewrite Hd, IH. reflexivity.
Qed.

(** Every match of the expression of [RichInstruction] is a delimited span
    whose content is not empty and holds no [>]. *)
Lemma exec_render_shape (s : jsstring) (n : nat) (caps : list jsstring) :
  exec re_render s = Some (n, caps) ->
  exists content,
    content <> [] /\ lacks ">" content = true
    /\ caps = [str "<<" ++ content ++ str ">>"]
    /\ n = (List.length content + 4)%nat.
Proof.
  intros He. destruct (startsWith s (str "<<")) eqn:Hs.
  - apply startsWith_split in Hs. rewrite Hs, exec_render_open in He.
    pose proof (cut_lacks ">" (skipn (List.length (str "<<")) s)) as Hl.
    destruct (cut ">" _) as [[|b body] rest]; [discriminate|].
    destruct (startsWith rest (str ">>")); [|discriminate].
    injection He as <- <-. exists (b :: body).
    repeat split; [discriminate | exact Hl].
  - rewrite (exec_needs_open re_render s) in He by auto. discriminate.
Qed.

(** The parts at the odd positions of the split are the matched spans. *)
Lemma split_loop_odd (s : jsstring) :
  forall acc i part,
    split_loop re_render acc s !! i = Some part -> Nat.odd i = true ->
    exists content,
      content <> [] /\ lacks ">" content = true
      /\ part = str "<<" ++ content ++ str ">>".
Proof.
  remember (List.length s) as len eqn:Hlen. revert s Hlen.
  induction len as [len IH] using lt_wf_ind. intros s Hlen acc i part Hi Hodd.
  destruct s as [|c s'].
  - rewrite split_loop_equation_1 in Hi. destruct i as [|i]; discriminate.
  - destruct (exec re_render (c :: s')) as [[n caps]|] eqn:He.
    + destruct (exec_render_shape _ _ _ He) as (content & Hne & Hl & -> & ->).
      replace (List.length content + 4)%nat
        with (S (List.length content + 3)) in He by lia.
      rewrite (split_loop_hit _ _ _ _ _ _ He) in Hi.
      destruct i as [|[|i]]; [discriminate | |].
      * cbn in Hi. injection Hi as <-. eauto.
      * cbn [app lookup list_lookup] in Hi.
        apply (IH (List.length (skipn (List.length content + 3) s'))
                 ltac:(rewrite length_skipn; cbn in Hlen; lia)
                 _ eq_refl [] i part Hi).
        exact Hodd.
    + rewrite (split_loop_miss _ _ _ _ He) in Hi.
      apply (IH (List.length s') ltac:(cbn in Hlen; lia) s' eq_refl
               (c :: acc) i part Hi Hodd).
Qed.

Lemma split_odd (text : jsstring) (i : nat) (part : jsstring) :
  split re_render text !! i = Some part -> Nat.odd i = true ->
  exists content,
    content <> [] /\ lacks ">" content = true
    /\ part = str "<<" ++ content ++ str ">>".
Proof.
  rewrite split_from_start by reflexivity. apply split_loop_odd.
Qed.

(** C4, as the code has it. In [RichInstruction] the matched spans are the
    parts at the odd positions of the split, and every one of them is a
    delimited span [<<content>>] with a content that is not empty and holds
    no [>]. Such a span is rendered by the first two pieces of
    [content.split('|')]: it is re-emitted unchanged as plain text when the
    first piece is empty, or there is no second piece, or the second piece
    is empty; otherwise it becomes an annotation token of these two pieces,
    also when more pieces follow. The transform is a total function: it
    throws on no text. *)
Theorem RichInstruction_span_token (text : jsstring) (i : nat)
    (part : jsstring) :
  split re_render text !! i = Some part -> Nat.odd i = true ->
  exists content,
    part = str "<<" ++ content ++ str ">>"
    /\ content <> [] /\ lacks ">" content = true
    /\ RichInstruction text !! i
       = Some (match split_on "|" content with
               | name :: quantity :: _ =>
                   if truthy name && truthy quantity
                   then IngredientTooltip name quantity
                   else Text part
               | _ => Text part
               end).
Proof.
  intros Hpart Hodd.
  destruct (split_odd text i part Hpart Hodd) as (content & Hne & Hl & ->).
  exists content. repeat split; try assumption.
  unfold RichInstruction.
  rewrite (lookup_map render_part). unfold jsstring in *. rewrite Hpart.
  cbn [fmap option_fmap option_map]. f_equal. apply render_part_span.
Qed.

Lemma RichInstruction_span_token_witness :
  exists content,
    str "<<butter|>>" = str "<<" ++ content ++ str ">>"
    /\ content <> [] /\ lacks ">" content = true
    /\ RichInstruction (str "Melt <<butter|>> now") !! 1%nat
       = Some (match split_on "|" content with
               | name :: quantity :: _ =>
                   if truthy name && truthy quantity
                   then IngredientTooltip name quantity
                   else Text (str "<<butter|>>")
               | _ => Text (str "<<butter|>>")
               end).
Proof.
  apply (RichInstruction_span_token (str "Melt <<butter|>> now") 1
           (str "<<butter|>>")); reflexivity.
Defined.

(** The three ways of the specification in which a span is no annotation,
    and the annotation. *)
Example RichInstruction_spans :
  RichInstruction (str "<<pan>> <<|50g>> <<butter|>> <<butter|50g>>")
  = [Text []; Text (str "<<pan>>"); Text (str " "); Text (str "<<|50g>>");
     Text (str " "); Text (str "<<butter|>>"); Text (str " ");
     IngredientTooltip (str "butter") (str "50g"); Text []].
Proof. reflexivity. Qed.

(** C4 as the specification words it fails on a span with two [|]: its
    content does not split into exactly two pieces, and yet it becomes an
    annotation token. *)
Lemma RichInstruction_three_pieces :
  split_on "|" (str "a|b|c") = [str "a"; str "b"; str "c"]
  /\ RichInstruction (str "<<a|b|c>>")
     = [Text []; IngredientTooltip (str "a") (str "b"); Text []]
  /\ RichInstruction (str "<<a|b|c>>") !! 1%nat
     <> Some (Text (str "<<a|b|c>>")).
Proof. repeat split; [reflexivity .. | discriminate]. Qed.

(** ** Texts of stretches and spans *)

(** [split] cuts a text of plain stretches and spans without [>] at the
    spans. *)
Lemma split_loop_marked (items : list (jsstring * jsstring * jsstring)) :
  forallb (fun '(name, quantity, lit) =>
             lacks ">" name && lacks ">" quantity && plain lit) items = true ->
  forall lead acc,
    plain lead = true ->
    split_loop re_render acc (source (lead, items))
    = (rev acc ++ lead)
        :: flat_map (fun '(name, quantity, lit) =>
                       [annotation name quantity; lit]) items.
Proof.
  unfold source. cbn [fst snd].
  induction items as [|[[name quantity] lit] rest IH];
    intros Hitems lead acc Hlead.
  - cbn [flat_map]. rewrite (split_loop_silent re_render lead [])
      by (apply plain_silent; auto).
    rewrite split_loop_equation_1, rev_app_distr, rev_involutive.
    reflexivity.
  - cbn [forallb] in Hitems. apply andb_true_iff in Hitems as [Hhd Htl].
    apply andb_true_iff in Hhd as [Hhd Hlit].
    apply andb_true_iff in Hhd as [Hn Hq].
    cbn [flat_map].
    rewrite (split_loop_silent re_render lead) by (apply plain_silent; auto).
    rewrite <- app_assoc.
    rewrite (split_loop_span re_render (annotation name quantity) _
               [annotation name quantity]).
    + rewrite rev_app_distr, rev_involutive. cbn [app].
      rewrite (IH Htl lit [] Hlit). reflexivity.
    + apply annotation_not_nil.
    + rewrite annotation_content. apply exec_render_span.
      * destruct name; discriminate.
      * rewrite lacks_app, Hn. exact Hq.
Qed.

Lemma render_part_annotation (name quantity : jsstring) :
  lacks "|" name = true -> lacks "|" quantity = true ->
  render_part (annotation name quantity)
  = if truthy name && truthy quantity then IngredientTooltip name quantity
    else Text (annotation name quantity).
Proof.
  intros Hn Hq. rewrite annotation_content, render_part_span.
  rewrite (split_on_sep _ _ _ Hn), (split_on_lacks _ _ Hq). reflexivity.
Qed.

(** *** Well-formed annotations *)

Lemma RichInstruction_well_formed (m : marked) :
  well_formed m = true -> RichInstruction (source m) = tokens_of m.
Proof.
  destruct m as [lead items]. unfold well_formed. cbn [fst snd].
  intros H. apply andb_true_iff in H as [Hlead Hitems].
  unfold RichInstruction, tokens_of. cbn [fst snd].
  rewrite split_from_start by reflexivity.
  rewrite (split_loop_marked items).
  - cbn [rev app map]. rewrite (render_part_no_open lead (plain_starts _ Hlead)).
    f_equal. induction items as [|[[name quantity] lit] rest IH];
      [reflexivity|].
    cbn [forallb] in Hitems. apply andb_true_iff in Hitems as [Hhd Htl].
    apply andb_true_iff in Hhd as [Hhd Hlit].
    apply andb_true_iff in Hhd as [Hname Hquantity].
    apply field_ok_parts in Hname as (Hn1 & Hn2 & Hn3).
    apply field_ok_parts in Hquantity as (Hq1 & Hq2 & Hq3).
    cbn [flat_map app map]. rewrite (IH Htl).
    rewrite (render_part_annotation _ _ Hn2 Hq2), Hn1, Hq1.
    rewrite (render_part_no_open lit (plain_starts _ Hlit)). reflexivity.
  - clear Hlead. induction items as [|[[name quantity] lit] rest IH];
      [reflexivity|].
    cbn [forallb] in *. apply andb_true_iff in Hitems as [Hhd Htl].
    apply andb_true_iff in Hhd as [Hhd Hlit].
    apply andb_true_iff in Hhd as [Hname Hquantity].
    apply field_ok_parts in Hname as (Hn1 & Hn2 & Hn3).
    apply field_ok_parts in Hquantity as (Hq1 & Hq2 & Hq3).
    rewrite Hn3, Hq3, Hlit, (IH Htl). reflexivity.
  - exact Hlead.
Qed.

Lemma visible_text_tokens_of (m : marked) :
  visible_text (tokens_of m) = with_names m.
Proof.
  destruct m as [lead items]. unfold visible_text, tokens_of, with_names.
  cbn [fst snd map concat visible]. f_equal.
  induction items as [|[[name quantity] lit] rest IH]; [reflexivity|].
  cbn [flat_map app map concat visible]. rewrite IH, <- app_assoc.
  reflexivity.
Qed.

Lemma cleanText_well_formed (m : marked) :
  well_formed m = true -> cleanText (source m) = with_names m.
Proof.
  destruct m as [lead items]. unfold well_formed. cbn [fst snd].
  intros H. apply andb_true_iff in H as [Hlead Hitems].
  unfold cleanText, replace, source, with_names. cbn [fst snd].
  revert lead Hlead.
  induction items as [|[[name quantity] lit] rest IH]; intros lead Hlead.
  - cbn [flat_map].
    rewrite (replace_loop_silent re_clean _ lead [])
      by (apply plain_silent; auto).
    rewrite replace_loop_end by reflexivity. reflexivity.
  - cbn [forallb] in Hitems. apply andb_true_iff in Hitems as [Hhd Htl].
    apply andb_true_iff in Hhd as [Hhd Hlit].
    apply andb_true_iff in Hhd as [Hname Hquantity].
    apply field_ok_parts in Hname as (Hn1 & Hn2 & Hn3).
    apply field_ok_parts in Hquantity as (Hq1 & Hq2 & Hq3).
    cbn [flat_map].
    rewrite (replace_loop_silent re_clean _ lead)
      by (apply plain_silent; auto).
    rewrite <- app_assoc.
    rewrite (replace_loop_span re_clean _ (annotation name quantity) _ [name])
      by (apply annotation_not_nil || apply exec_clean_annotation; assumption).
    rewrite substitution_name, (IH Htl lit Hlit), <- app_assoc. reflexivity.
Qed.

Lemma spokenText_well_formed (m : marked) :
  well_formed m = true -> spokenText (source m) = with_phrases m.
Proof.
  destruct m as [lead items]. unfold well_formed. cbn [fst snd].
  intros H. apply andb_true_iff in H as [Hlead Hitems].
  unfold spokenText, replace, source, with_phrases. cbn [fst snd].
  revert lead Hlead.
  induction items as [|[[name quantity] lit] rest IH]; intros lead Hlead.
  - cbn [flat_map].
    rewrite (replace_loop_silent re_speech _ lead [])
      by (apply plain_silent; auto).
    rewrite replace_loop_end by reflexivity. reflexivity.
  - cbn [forallb] in Hitems. apply andb_true_iff in Hitems as [Hhd Htl].
    apply andb_true_iff in Hhd as [Hhd Hlit].
    apply andb_true_iff in Hhd as [Hname Hquantity].
    apply field_ok_parts in Hname as (Hn1 & Hn2 & Hn3).
    apply field_ok_parts in Hquantity as (Hq1 & Hq2 & Hq3).
    cbn [flat_map].
    rewrite (replace_loop_silent re_speech _ lead)
      by (apply plain_silent; auto).
    rewrite <- app_assoc.
    rewrite (replace_loop_span re_speech _ (annotation name quantity) _
               [name; quantity])
      by (apply annotation_not_nil || apply exec_speech_annotation;
          assumption).
    rewrite substitution_phrase, (IH Htl lit Hlit), <- !app_assoc.
    reflexivity.
Qed.

(** C1, as the code has it. Take a text of literal stretches in which every
    [<] is followed by a character other than [<], and of annotations
    [<<name|quantity>>] whose name and quantity are not empty and hold
    neither [|] nor [>]. Then [RichInstruction] yields one token for every
    stretch and one annotation token, with its name and its quantity, for
    every annotation, in order; the visible text of these tokens is the
    text with every annotation replaced by its name; [cleanText] yields
    that same string; and [spokenText] yields the text with every annotation
    replaced by "quantity of name". *)
Theorem markup_round_trip (m : marked) :
  well_formed m = true ->
  RichInstruction (source m) = tokens_of m
  /\ visible_text (RichInstruction (source m)) = with_names m
  /\ cleanText (source m) = with_names m
  /\ spokenText (source m) = with_phrases m.
Proof.
  intros Hm. repeat split.
  - apply RichInstruction_well_formed, Hm.
  - rewrite (RichInstruction_well_formed m Hm). apply visible_text_tokens_of.
  - apply cleanText_well_formed, Hm.
  - apply spokenText_well_formed, Hm.
Qed.

Lemma markup_round_trip_witness :
  let m := (str "Whisk the ",
            [(str "eggs", str "2", str " and ");
             (str "vanilla", str "1 tsp", str " together.")]) in
  source m = str "Whisk the <<eggs|2>> and <<vanilla|1 tsp>> together."
  /\ RichInstruction (source m) = tokens_of m
  /\ visible_text (RichInstruction (source m))
     = str "Whisk the eggs and vanilla together."
  /\ cleanText (source m) = str "Whisk the eggs and vanilla together."
  /\ spokenText (source m)
     = str "Whisk the 2 of eggs and 1 tsp of vanilla together.".
Proof.
  intros m. split; [reflexivity|].
  apply (markup_round_trip m). reflexivity.
Defined.

(** C1 as the specification words it, with names and quantities free of
    [|] and of [>>], fails on a name that holds a single [>]: the
    expression of [RichInstruction] finds no span, so the text is shown as it
    stands, while [cleanText] replaces the annotation by its name. *)
Lemma markup_round_trip_single_gt :
  let m := (str "x", [(str "a>b", str "c", [])]) in
  well_formed_as_specified m = true
  /\ source m = str "x<<a>b|c>>"
  /\ with_names m = str "xa>b"
  /\ RichInstruction (source m) = [Text (str "x<<a>b|c>>")]
  /\ visible_text (RichInstruction (source m)) <> with_names m
  /\ cleanText (source m) = str "xa>b".
Proof.
  intros m. repeat split; try reflexivity. vm_compute. discriminate.
Qed.

(** The same for a quantity: here [cleanText] leaves the text as it is. *)
Example markup_single_gt_in_quantity :
  let m := (str "x", [(str "a", str "b>c", [])]) in
  well_formed_as_specified m = true
  /\ with_names m = str "xa"
  /\ visible_text (RichInstruction (source m)) = str "x<<a|b>c>>"
  /\ cleanText (source m) = str "x<<a|b>c>>"
  /\ spokenText (source m) = str "x<<a|b>c>>".
Proof. intros m. repeat split; reflexivity. Qed.

(** The end-to-end scenario of the specification. *)
Example spicy_chicken :
  RichInstruction (str "Fry the <<chicken|500g>> until golden.")
  = [Text (str "Fry the "); IngredientTooltip (str "chicken") (str "500g");
     Text (str " until golden.")]
  /\ spokenText (str "Fry the <<chicken|500g>> until golden.")
     = str "Fry the 500g of chicken until golden.".
Proof. split; reflexivity. Qed.

(** ** Unterminated openings *)

Lemma unterminated_after (u1 t : jsstring) :
  unterminated (u1 ++ str "<<" ++ t) = true ->
  includes t (str ">>") = false.
Proof.
  induction u1 as [|c u1 IH]; intros H.
  - cbn in H. apply negb_true_iff in H. exact H.
  - cbn [app unterminated] in H.
    destruct (startsWith (c :: u1 ++ str "<<" ++ t) (str "<<")) eqn:Hs.
    + apply negb_true_iff in H.
      destruct u1 as [|d u1]; cbn [app skipn] in H.
      * exact (includes_suffix_false [_] t _ H).
      * rewrite app_assoc in H. exact (includes_suffix_false _ t _ H).
    + apply IH, H.
Qed.

Lemma starts_includes (a rest p : jsstring) :
  startsWith rest p = true -> includes (a ++ rest) p = true.
Proof. intros H. apply includes_later, includes_startsWith, H. Qed.

(** Without a [>>] after it, a [<<] starts no match. *)
Lemma exec_unterminated (r : re) (t : jsstring) :
  r = re_render \/ r = re_clean \/ r = re_speech ->
  includes t (str ">>") = false -> exec r (str "<<" ++ t) = None.
Proof.
  intros [-> | [-> | ->]] Hno.
  - rewrite exec_render_open. pose proof (cut_app ">" t) as Happ.
    destruct (cut ">" t) as [[|b body] rest]; [reflexivity|].
    cbn [fst snd] in Happ.
    destruct (startsWith rest (str ">>")) eqn:Hs; [|reflexivity].
    rewrite <- Happ, (starts_includes _ _ _ Hs) in Hno. discriminate.
  - rewrite exec_clean_open. pose proof (cut_app "|" t) as Happ.
    destruct (cut "|" t) as [[|n name] [|sep t2]]; try reflexivity.
    cbn [fst snd] in Happ. pose proof (cut_app ">" t2) as Happ2.
    destruct (cut ">" t2) as [[|q quantity] rest]; [reflexivity|].
    cbn [fst snd] in Happ2.
    destruct (startsWith rest (str ">>")) eqn:Hs; [|reflexivity].
    rewrite <- Happ, <- Happ2 in Hno.
    rewrite (includes_later (n :: name) (sep :: _)) in Hno; [discriminate|].
    apply (starts_includes (sep :: q :: quantity)), Hs.
  - rewrite exec_speech_open. pose proof (cut_app "|" t) as Happ.
    destruct (cut "|" t) as [[|n name] [|sep t2]]; try reflexivity.
    cbn [fst snd] in Happ. pose proof (cut_app ">" t2) as Happ2.
    destruct (cut ">" t2) as [[|q quantity] rest]; [reflexivity|].
    cbn [fst snd] in Happ2.
    destruct (startsWith rest (str ">>")) eqn:Hs; [|reflexivity].
    rewrite <- Happ, <- Happ2 in Hno.
    rewrite (includes_later (n :: name) (sep :: _)) in Hno; [discriminate|].
    apply (starts_includes (sep :: q :: quantity)), Hs.
Qed.

Lemma unterminated_silent (r : re) (text : jsstring) :
  r = re_render \/ r = re_clean \/ r = re_speech ->
  unterminated text = true -> silent r text [].
Proof.
  intros Hr Hu u1 c u2 ->. rewrite app_nil_r.
  destruct (startsWith (c :: u2) (str "<<")) eqn:Hs.
  - apply startsWith_split in Hs. rewrite Hs in Hu |- *.
    apply (exec_unterminated r _ Hr).
    exact (unterminated_after u1 _ Hu).
  - apply (exec_needs_open r _ Hr Hs).
Qed.

(** A text that opens with an unterminated [<<] does not end with [>>]. *)
Lemma unterminated_not_closed (text : jsstring) :
  unterminated text = true -> startsWith text (str "<<") = true ->
  endsWith text (str ">>") = false.
Proof.
  intros Hu Hs. apply startsWith_split in Hs. rewrite Hs in Hu |- *.
  pose proof (unterminated_after [] _ Hu) as Hno.
  set (t := skipn (List.length (str "<<")) text) in *. clearbody t.
  unfold endsWith. rewrite rev_app_distr.
  destruct (rev t) as [|x [|y r]] eqn:Hrev; cbn.
  - reflexivity.
  - destruct (Ascii.eqb x ">"); reflexivity.
  - destruct (Ascii.eqb x ">") eqn:Hx; [|reflexivity].
    destruct (Ascii.eqb y ">") eqn:Hy; [|reflexivity].
    apply Ascii.eqb_eq in Hx, Hy. subst x y.
    assert (Ht : t = rev r ++ str ">>").
    { rewrite <- (rev_involutive t), Hrev. cbn. rewrite <- app_assoc.
      reflexivity. }
    rewrite Ht, (starts_includes (rev r) (str ">>") (str ">>")) in Hno;
      [discriminate | reflexivity].
Qed.

Lemma render_part_unterminated (text : jsstring) :
  unterminated text = true -> render_part text = Text text.
Proof.
  intros Hu. unfold render_part.
  destruct (startsWith text (str "<<")) eqn:Hs; [|reflexivity].
  rewrite (unterminated_not_closed _ Hu Hs). reflexivity.
Qed.

Lemma unterminated_inert (text : jsstring) :
  unterminated text = true ->
  RichInstruction text = [Text text]
  /\ cleanText text = text /\ spokenText text = text.
Proof.
  intros Hu. repeat split.
  - unfold RichInstruction. rewrite split_from_start by reflexivity.
    rewrite <- (app_nil_r text) at 1.
    rewrite split_loop_silent by (apply unterminated_silent; auto).
    rewrite split_loop_equation_1, app_nil_r, rev_involutive. cbn [map].
    rewrite (render_part_unterminated _ Hu). reflexivity.
  - unfold cleanText, replace. rewrite <- (app_nil_r text) at 1.
    rewrite replace_loop_silent by (apply unterminated_silent; auto).
    rewrite replace_loop_end by reflexivity. apply app_nil_r.
  - unfold spokenText, replace. rewrite <- (app_nil_r text) at 1.
    rewrite replace_loop_silent by (apply unterminated_silent; auto).
    rewrite replace_loop_end by reflexivity. apply app_nil_r.
Qed.

(** ** Spans with an empty name or an empty quantity *)

Lemma falsy_nil (x : jsstring) : truthy x = false -> x = [].
Proof. destruct x; [reflexivity | discriminate]. Qed.

(** Neither [cleanText] nor [spokenText] matches at such a span. *)
Lemma exec_empty_field (r : re) (name quantity rest : jsstring) :
  r = re_clean \/ r = re_speech ->
  truthy name = false \/ truthy quantity = false ->
  lacks "|" name = true ->
  exec r (annotation name quantity ++ rest) = None.
Proof.
  intros Hr Hempty Hn. rewrite annotation_app.
  destruct name as [|n name].
  - destruct Hr as [-> | ->];
      [rewrite exec_clean_open | rewrite exec_speech_open]; reflexivity.
  - destruct Hempty as [Hx | Hq]; [discriminate|].
    apply falsy_nil in Hq. subst quantity.
    destruct Hr as [-> | ->];
      [rewrite exec_clean_open | rewrite exec_speech_open];
      rewrite (cut_stretch _ _ _ Hn); reflexivity.
Qed.

Lemma lacks_head (c d : ascii) (x : jsstring) :
  lacks c (d :: x) = true -> Ascii.eqb d c = false /\ lacks c x = true.
Proof.
  cbn. intros H. apply andb_true_iff in H as [Hd H].
  apply negb_true_iff in Hd. auto.
Qed.

(** After its first character, such a span is a plain stretch. *)
Lemma span_tail_plain (name quantity : jsstring) :
  lacks "<" name = true -> lacks "<" quantity = true ->
  plain ("<"%char :: name ++ "|"%char :: quantity ++ str ">>") = true.
Proof.
  intros Hn Hq.
  assert (Hl : lacks "<" (name ++ "|"%char :: quantity ++ str ">>") = true).
  { rewrite lacks_app, Hn. cbn [andb].
    change (lacks "<" (quantity ++ str ">>") = true).
    rewrite lacks_app, Hq. reflexivity. }
  cbn [plain]. rewrite (lacks_plain _ Hl), andb_true_r.
  destruct name as [|d name]; [reflexivity|].
  apply lacks_head in Hn as [Hd _]. cbn. rewrite Hd. reflexivity.
Qed.

Lemma empty_field_silent (r : re) (name quantity rest : jsstring) :
  r = re_clean \/ r = re_speech ->
  truthy name = false \/ truthy quantity = false ->
  bare name = true -> bare quantity = true ->
  silent r (annotation name quantity) rest.
Proof.
  intros Hr Hempty Hn Hq.
  apply bare_parts in Hn as (Hn1 & Hn2 & Hn3).
  apply bare_parts in Hq as (Hq1 & Hq2 & Hq3).
  intros u1 c u2 Heq. destruct u1 as [|c0 u1].
  - cbn [app] in Heq. change (c :: u2 ++ rest) with ((c :: u2) ++ rest).
    rewrite <- Heq. apply exec_empty_field; assumption.
  - assert (Htail : c0 :: u1 ++ c :: u2
                    = "<"%char :: "<"%char :: name ++ "|"%char :: quantity
                        ++ str ">>").
    { change (c0 :: u1 ++ c :: u2) with ((c0 :: u1) ++ c :: u2).
      rewrite <- Heq. unfold annotation.
      cbn [str list_ascii_of_string app]. reflexivity. }
    injection Htail as _ Htail.
    apply (plain_silent r
             ("<"%char :: name ++ "|"%char :: quantity ++ str ">>") rest)
      with (u1 := u1).
    + destruct Hr as [-> | ->]; auto.
    + exact (span_tail_plain name quantity Hn1 Hq1).
    + symmetry. exact Htail.
Qed.

Lemma malformed_item (name quantity lit : jsstring) :
  (negb (truthy name) || negb (truthy quantity))
  && bare name && bare quantity && plain lit = true ->
  (truthy name = false \/ truthy quantity = false)
  /\ bare name = true /\ bare quantity = true /\ plain lit = true.
Proof.
  intros H. apply andb_true_iff in H as [H Hlit].
  apply andb_true_iff in H as [H Hq]. apply andb_true_iff in H as [He Hn].
  repeat split; try assumption.
  apply orb_true_iff in He as [He | He]; apply negb_true_iff in He; auto.
Qed.

Lemma RichInstruction_malformed (m : marked) :
  malformed m = true -> RichInstruction (source m) = literal_tokens_of m.
Proof.
  destruct m as [lead items]. unfold malformed. cbn [fst snd].
  intros H. apply andb_true_iff in H as [Hlead Hitems].
  unfold RichInstruction, literal_tokens_of. cbn [fst snd].
  rewrite split_from_start by reflexivity.
  rewrite (split_loop_marked items).
  - cbn [rev app map]. rewrite (render_part_no_open lead (plain_starts _ Hlead)).
    f_equal. induction items as [|[[name quantity] lit] rest IH];
      [reflexivity|].
    cbn [forallb] in Hitems. apply andb_true_iff in Hitems as [Hhd Htl].
    apply malformed_item in Hhd as (He & Hn & Hq & Hlit).
    apply bare_parts in Hn as (Hn1 & Hn2 & Hn3).
    apply bare_parts in Hq as (Hq1 & Hq2 & Hq3).
    cbn [flat_map app map]. rewrite (IH Htl).
    rewrite (render_part_annotation _ _ Hn3 Hq3).
    rewrite (render_part_no_open lit (plain_starts _ Hlit)).
    destruct He as [-> | ->]; [|rewrite andb_false_r]; reflexivity.
  - clear Hlead. induction items as [|[[name quantity] lit] rest IH];
      [reflexivity|].
    cbn [forallb] in *. apply andb_true_iff in Hitems as [Hhd Htl].
    apply malformed_item in Hhd as (He & Hn & Hq & Hlit).
    apply bare_parts in Hn as (Hn1 & Hn2 & Hn3).
    apply bare_parts in Hq as (Hq1 & Hq2 & Hq3).
    rewrite Hn2, Hq2, Hlit, (IH Htl). reflexivity.
  - exact Hlead.
Qed.

Lemma visible_text_literal_tokens_of (m : marked) :
  visible_text (literal_tokens_of m) = source m.
Proof.
  destruct m as [lead items]. unfold visible_text, literal_tokens_of, source.
  cbn [fst snd map concat visible]. f_equal.
  induction items as [|[[name quantity] lit] rest IH]; [reflexivity|].
  cbn [flat_map app map concat visible]. rewrite IH, <- app_assoc.
  reflexivity.
Qed.

Lemma replace_loop_malformed (r : re) (tpl : jsstring) (m : marked) :
  r = re_clean \/ r = re_speech ->
  malformed m = true -> replace_loop r tpl (source m) = source m.
Proof.
  intros Hr. destruct m as [lead items]. unfold malformed. cbn [fst snd].
  intros H. apply andb_true_iff in H as [Hlead Hitems].
  unfold source. cbn [fst snd]. revert lead Hlead.
  induction items as [|[[name quantity] lit] rest IH]; intros lead Hlead.
  - cbn [flat_map].
    rewrite (replace_loop_silent r _ lead [])
      by (apply plain_silent; [destruct Hr as [-> | ->]|]; auto).
    rewrite replace_loop_end by (destruct Hr as [-> | ->]; reflexivity).
    reflexivity.
  - cbn [forallb] in Hitems. apply andb_true_iff in Hitems as [Hhd Htl].
    apply malformed_item in Hhd as (He & Hn & Hq & Hlit).
    cbn [flat_map].
    rewrite (replace_loop_silent r _ lead)
      by (apply plain_silent; [destruct Hr as [-> | ->]|]; auto).
    rewrite <- app_assoc.
    rewrite (replace_loop_silent r _ (annotation name quantity))
      by (apply empty_field_silent; assumption).
    rewrite (IH Htl lit Hlit). reflexivity.
Qed.

(** C9, as the code has it. A text in which no [>>] comes after the first
    [<<], so that every [<<] of it is unterminated, is returned as it stands
    by all three transforms: [RichInstruction] shows it as one plain token,
    [cleanText] and [spokenText] return it unchanged. So is a text of
    stretches in which every [<] is followed by a character other than [<]
    and of delimited spans [<<name|quantity>>] whose name or whose quantity
    is empty, the other holding none of [<], [>] and [|]: every span comes
    back as a plain token with its delimiters, and the two replacements
    change nothing. The three transforms are total functions: they return
    on every text. *)
Theorem malformed_markup_is_inert :
  (forall text,
      unterminated text = true ->
      RichInstruction text = [Text text]
      /\ cleanText text = text /\ spokenText text = text)
  /\ (forall m,
        malformed m = true ->
        RichInstruction (source m) = literal_tokens_of m
        /\ visible_text (RichInstruction (source m)) = source m
        /\ cleanText (source m) = source m
        /\ spokenText (source m) = source m)
  /\ (forall text, exists tokens cleaned spoken,
        RichInstruction text = tokens
        /\ cleanText text = cleaned /\ spokenText text = spoken).
Proof.
  split; [|split].
  - apply unterminated_inert.
  - intros m Hm. repeat split.
    + apply RichInstruction_malformed, Hm.
    + rewrite (RichInstruction_malformed m Hm).
      apply visible_text_literal_tokens_of.
    + apply replace_loop_malformed; auto.
    + apply replace_loop_malformed; auto.
  - intros text. do 3 eexists. repeat split.
Qed.

Lemma malformed_markup_is_inert_witness :
  (RichInstruction (str "Add << butter now") = [Text (str "Add << butter now")]
   /\ cleanText (str "Add << butter now") = str "Add << butter now"
   /\ spokenText (str "Add << butter now") = str "Add << butter now")
  /\ (let m := (str "Add ", [([], str "50g", str " then ");
                             (str "salt", [], str ".")]) in
      source m = str "Add <<|50g>> then <<salt|>>."
      /\ RichInstruction (source m) = literal_tokens_of m
      /\ visible_text (RichInstruction (source m)) = source m
      /\ cleanText (source m) = source m
      /\ spokenText (source m) = source m).
Proof.
  split.
  - apply (proj1 malformed_markup_is_inert (str "Add << butter now")).
    reflexivity.
  - intros m. split; [reflexivity|].
    apply (proj1 (proj2 malformed_markup_is_inert) m). reflexivity.
Defined.

(** C9 as the specification words it, for every text that holds an
    unterminated [<<] or a span with an empty name, fails where such markup
    meets other markup. A well-formed annotation before an unterminated
    [<<] is still replaced. A span with an empty name right after a [<<] is
    read, together with that [<<], as an annotation whose name is [<<]. And
    of two spans with an empty name, the first with a [<<] in its quantity,
    [cleanText] takes the stretch from that [<<] to the end of the second
    span for an annotation. *)
Lemma malformed_markup_not_inert :
  (str "<<salt|1 tsp>> and <<" = str "<<salt|1 tsp>> and " ++ str "<<" ++ []
   /\ includes [] (str ">>") = false
   /\ cleanText (str "<<salt|1 tsp>> and <<") = str "salt and <<")
  /\ (str "<<<<|b>>" = str "<<" ++ annotation [] (str "b")
      /\ RichInstruction (str "<<<<|b>>")
         = [Text []; IngredientTooltip (str "<<") (str "b"); Text []]
      /\ cleanText (str "<<<<|b>>") = str "<<"
      /\ spokenText (str "<<<<|b>>") = str "b of <<")
  /\ (str "<<|a<<b>> <<|c>>"
      = annotation [] (str "a<<b") ++ str " " ++ annotation [] (str "c")
      /\ cleanText (str "<<|a<<b>> <<|c>>") = str "<<|ab>> <<").
Proof. repeat split; reflexivity. Qed.

End MarkupFacts.

(* ===================================================================== *)
(** * Properties of the background image loop *)
(* ===================================================================== *)

Module RecipeCardFacts.
Import Retry RetryFacts Markup MarkupFacts Client ClientFacts RecipeCard Samples.

Lemma traffic_app (a b : list event) : traffic (a ++ b) = traffic a ++ traffic b.
Proof. apply List.filter_app. Qed.

Lemma repeat_snoc {A : Type} (X : list A) (k : nat) :
  X ++ concat (repeat X k) = concat (repeat X (S k)).
Proof. reflexivity. Qed.

Lemma repeat_more {A : Type} (X : list A) (k : nat) :
  concat (repeat X k) ++ X = concat (repeat X (S k)).
Proof.
  induction k as [|k IH]; [cbn; rewrite app_nil_r; reflexivity|].
  cbn [repeat concat] in *. rewrite <- app_assoc, IH. reflexivity.
Qed.

Lemma exchanges_traffic (tr : list event) : exchanges (traffic tr) = exchanges tr.
Proof.
  unfold exchanges, traffic. induction tr as [|ev tr IH]; [reflexivity|].
  destruct ev; cbn; rewrite ?IH; reflexivity.
Qed.

Lemma exchanges_app (a b : list event) :
  exchanges (a ++ b) = exchanges a ++ exchanges b.
Proof. apply List.filter_app. Qed.

Lemma exchanges_repeat (prompt : jsstring) (k : nat) :
  exchanges (concat (repeat (exchange prompt) k))
  = concat (repeat (exchange prompt) k).
Proof.
  unfold exchanges. induction k as [|k IH]; [reflexivity|].
  cbn in *. rewrite IH. reflexivity.
Qed.

Lemma exchanges_step_traffic (recipe : Recipe) (stepImages : gmap nat jsstring)
    (i k : nat) :
  exchanges (step_traffic recipe stepImages i k)
  = step_requests recipe stepImages i k.
Proof.
  unfold step_traffic, step_requests.
  destruct (truthy_opt (stepImages !! i)); [reflexivity|].
  rewrite exchanges_app, exchanges_repeat.
  destruct (Z.of_nat i <? _); cbn; apply app_nil_r.
Qed.

Lemma exchanges_blocks (recipe : Recipe) (stepImages : gmap nat jsstring)
    (ixs ks : list nat) :
  exchanges (concat (zip_with (step_traffic recipe stepImages) ixs ks))
  = concat (zip_with (step_requests recipe stepImages) ixs ks).
Proof.
  revert ks. induction ixs as [|i ixs IH]; intros [|k ks]; try reflexivity.
  cbn [zip_with concat]. rewrite exchanges_app, exchanges_step_traffic, IH.
  reflexivity.
Qed.


Section Traffic.
Context {W : Type} `{Endpoint W}.

(** The traffic of [withRetry]: as many times the traffic of the operation
    as there are attempts, at least one and at most [n]. *)
Lemma retry_loop_traffic {T : Type} (fn after : M W T) (X : list event)
    (retries baseDelay : Z) :
  (forall s, traffic (trace (snd (fn s))) = traffic (trace s) ++ X) ->
  (forall s, traffic (trace (snd (after s))) = traffic (trace s)) ->
  forall n i s, exists k,
    (k <= n)%nat /\ ((0 < n)%nat -> (0 < k)%nat)
    /\ traffic (trace (snd (retry_loop after fn retries baseDelay n i s)))
       = traffic (trace s) ++ concat (repeat X k).
Proof.
  intros Hfn Hafter. induction n as [|n IH]; intros i s.
  - exists 0%nat. cbn. rewrite Hafter, app_nil_r. repeat split; lia.
  - pose proof (Hfn (called s)) as Hcall.
    destruct (fn (called s)) as [[v|e] s'] eqn:Hrun; cbn [snd] in Hcall.
    + exists 1%nat. rewrite (retry_loop_returned _ _ _ _ _ _ _ _ _ Hrun).
      cbn [snd]. rewrite Hcall. unfold called. cbn [trace].
      rewrite traffic_app. cbn. rewrite !app_nil_r. repeat split; lia.
    + destruct (caught_cases (T := T) retries i e) as [[r' Hends] | [Hrl Hi]].
      * exists 1%nat.
        rewrite (retry_loop_ends _ _ _ _ _ _ _ _ _ _ Hrun Hends).
        cbn [snd]. rewrite Hcall. unfold called. cbn [trace].
        rewrite traffic_app. cbn. rewrite !app_nil_r. repeat split; lia.
      * rewrite (retry_loop_backoff _ _ _ _ _ _ _ _ _ Hrun Hrl Hi).
        destruct (IH (i + 1) (backed_off (baseDelay * 2 ^ i) s'))
          as (k & Hk1 & Hk2 & Hk3).
        exists (S k). rewrite Hk3. unfold backed_off. cbn [trace].
        rewrite traffic_app. cbn [traffic filter is_traffic].
        rewrite app_nil_r, Hcall. unfold called. cbn [trace].
        rewrite traffic_app. cbn [traffic filter is_traffic].
        rewrite app_nil_r, <- app_assoc, repeat_snoc.
        repeat split; lia.
Qed.

Lemma image_attempt_traffic (prompt : jsstring) (s : state W) :
  traffic (trace (snd (image_attempt prompt s)))
  = traffic (trace s) ++ exchange prompt.
Proof.
  unfold image_attempt, bind. rewrite call_api_run.
  destruct (generateContent _ (world s)) as [[r|e] w']; cbn;
    rewrite traffic_app; reflexivity.
Qed.

(** [generateStepVisual] always returns, and its traffic is one exchange
    for every attempt: one, two or three of the same request. *)
Lemma generateStepVisual_traffic (instruction : jsstring)
    (previousInstructions : list jsstring) (s : state W) :
  exists k v s',
    (1 <= k <= 3)%nat
    /\ generateStepVisual instruction previousInstructions s = (Returned v, s')
    /\ traffic (trace s')
       = traffic (trace s)
           ++ concat (repeat
                        (exchange (step_prompt instruction previousInstructions))
                        k).
Proof.
  unfold generateStepVisual, withRetry. change (Z.to_nat 3) with 3%nat.
  destruct (retry_loop_traffic
              (image_attempt (step_prompt instruction previousInstructions))
              (throw max_retries_exceeded)
              (exchange (step_prompt instruction previousInstructions))
              3 2000 (image_attempt_traffic _) (fun s => eq_refl) 3 0 s)
    as (k & Hk1 & Hk2 & Hk3).
  exists k. unfold try_catch.
  destruct (retry_loop _ _ _ _ _ _ s) as [[v|e] s1]; cbn [snd] in Hk3.
  - exists v, s1. repeat split; [lia | lia | exact Hk3].
  - eexists _, _. split; [lia|]. split; [reflexivity|].
    cbn. rewrite traffic_app, Hk3. cbn. rewrite app_nil_r. reflexivity.
Qed.

Lemma image_attempt_exchanges (prompt : jsstring) (s : state W) :
  exchanges (trace (snd (image_attempt prompt s)))
  = exchanges (trace s) ++ exchange prompt.
Proof.
  rewrite <- exchanges_traffic, image_attempt_traffic, exchanges_app,
    exchanges_traffic.
  reflexivity.
Qed.

(** The requests that a run has sent when it starts attempt [i]: one for
    every earlier attempt. *)
Lemma attempt_exchanges {T : Type} (fn : M W T) (X : list event)
    (baseDelay : Z) (s : state W) (i : Z) (t : state W) :
  (forall u, exchanges (trace (snd (fn u))) = exchanges (trace u) ++ X) ->
  attempt fn baseDelay s i t ->
  exchanges (trace t) = exchanges (trace s) ++ concat (repeat X (Z.to_nat i)).
Proof.
  intros Hfn. induction 1 as [|i t e t' Hat IH Hrun Hrl].
  - cbn. rewrite app_nil_r. reflexivity.
  - pose proof (attempt_index _ _ _ _ _ Hat) as H0.
    pose proof (Hfn (called t)) as Hcall. rewrite Hrun in Hcall.
    cbn [snd] in Hcall. unfold backed_off, called in *. cbn [trace] in *.
    rewrite exchanges_app in Hcall |- *. cbn in Hcall |- *.
    rewrite app_nil_r in Hcall |- *. rewrite Hcall, IH, <- app_assoc.
    replace (Z.to_nat (i + 1)) with (S (Z.to_nat i)) by lia.
    rewrite repeat_more. reflexivity.
Qed.

End Traffic.

Section Loop.
Context {W : Type} `{Endpoint W} `{Component W}.
Variable recipe : Recipe.
Variable stepImages : gmap nat jsstring.

(** The [try] block of one iteration returns, whatever the endpoint does,
    and its traffic is that of the request for the step. *)
Lemma request_step_image_traffic (i : nat) (step : RecipeStep) (s : state W) :
  steps recipe !! i = Some step ->
  exists k s',
    (1 <= k <= 3)%nat
    /\ request_step_image recipe i s = (Returned tt, s')
    /\ traffic (trace s')
       = traffic (trace s)
           ++ concat (repeat (exchange (step_prompt_at recipe i)) k).
Proof.
  intros Hstep. unfold request_step_image, step_prompt_at, instructions_before.
  rewrite Hstep.
  destruct (generateStepVisual_traffic (instruction step)
              (map instruction (firstn i (steps recipe))) s)
    as (k & v & s1 & Hk & Hrun & Htr).
  exists k. unfold try_catch, bind. rewrite Hrun.
  destruct v as [u|]; [destruct (isMounted (world s1) && truthy u)|].
  - eexists. split; [exact Hk|]. split; [reflexivity|].
    cbn. rewrite traffic_app, Htr. cbn. apply app_nil_r.
  - eexists. split; [exact Hk|]. split; [reflexivity|]. exact Htr.
  - eexists. split; [exact Hk|]. split; [reflexivity|]. exact Htr.
Qed.

(** While the component stays mounted, the loop runs to its end, and its
    traffic is, index by index, the traffic of the iterations. *)
Lemma image_loop_traffic :
  stays_mounted ->
  forall n i s,
    (i + n)%nat = List.length (steps recipe) ->
    exists ks s',
      List.length ks = n
      /\ Forall (fun k => (1 <= k <= 3)%nat) ks
      /\ image_loop recipe stepImages n i s = (Returned tt, s')
      /\ traffic (trace s')
         = traffic (trace s)
             ++ concat (zip_with (step_traffic recipe stepImages) (seq i n) ks).
Proof.
  intros Hm. induction n as [|n IH]; intros i s Hlen.
  - exists [], s. cbn. rewrite app_nil_r. repeat split. constructor.
  - destruct (lookup_lt_is_Some_2 (steps recipe) i ltac:(lia)) as [step Hstep].
    cbn [image_loop]. rewrite Hm. cbn [negb].
    destruct (truthy_opt (stepImages !! i)) eqn:Hc.
    + destruct (IH (S i) s ltac:(lia)) as (ks & s' & Hl & Hks & Hrun & Htr).
      exists (1%nat :: ks), s'. cbn [List.length seq zip_with concat].
      unfold step_traffic at 1. rewrite Hc. cbn [app].
      repeat split; [lia | constructor; [lia | exact Hks] | exact Hrun
                    | exact Htr].
    + destruct (request_step_image_traffic i step s Hstep)
        as (k & s1 & Hk & Hrun1 & Htr1).
      unfold bind at 1. rewrite Hrun1. unfold bind at 1. rewrite Hm.
      cbn [andb].
      destruct (Z.of_nat i <? Z.of_nat (List.length (steps recipe)) - 1)
        eqn:Hlast.
      * destruct (IH (S i)
                    (mkState (sleep 4000 (world s1)) (trace s1 ++ [Paced 4000]))
                    ltac:(lia)) as (ks & s' & Hl & Hks & Hrun & Htr).
        exists (k :: ks), s'. cbn [List.length seq zip_with concat].
        unfold step_traffic at 1. rewrite Hc, Hlast.
        repeat split; [lia | constructor; [lia | exact Hks] | exact Hrun |].
        rewrite Htr. cbn [trace]. rewrite traffic_app, Htr1. cbn.
        rewrite <- !app_assoc. reflexivity.
      * destruct (IH (S i) s1 ltac:(lia)) as (ks & s' & Hl & Hks & Hrun & Htr).
        exists (k :: ks), s'. cbn [List.length seq zip_with concat].
        unfold step_traffic at 1. rewrite Hc, Hlast.
        repeat split; [lia | constructor; [lia | exact Hks] | exact Hrun |].
        rewrite Htr, Htr1, app_nil_r, <- !app_assoc. reflexivity.
Qed.

Lemma bind_returned {A B : Type} (m : M W A) (k : A -> M W B)
    (s : state W) (a : A) (s1 : state W) :
  m s = (Returned a, s1) -> bind m k s = k a s1.
Proof. intros Hrun. unfold bind. rewrite Hrun. reflexivity. Qed.

(** The [try] block of an iteration returns. *)
Lemma request_step_image_returns (i : nat) (s : state W) :
  exists s', request_step_image recipe i s = (Returned tt, s').
Proof.
  unfold request_step_image, try_catch.
  match goal with
  | |- context [match ?m s with _ => _ end] =>
      destruct (m s) as [[[]|e] s1]
  end; [eauto | unfold emit; eauto].
Qed.

(** While the component stays mounted, the loop over [n + m] indexes is the
    loop over the first [n] of them and then the loop over the other [m]. *)
Lemma image_loop_split :
  stays_mounted ->
  forall n m i s,
    image_loop recipe stepImages (n + m) i s
    = image_loop recipe stepImages m (i + n)
        (snd (image_loop recipe stepImages n i s)).
Proof.
  intros Hm. induction n as [|n IH]; intros m i s.
  - cbn. rewrite Nat.add_0_r. reflexivity.
  - cbn [Nat.add image_loop]. rewrite Hm. cbn [negb].
    replace (i + S n)%nat with (S i + n)%nat by lia.
    destruct (truthy_opt (stepImages !! i)); [apply IH|].
    destruct (request_step_image_returns i s) as [s1 Hreq].
    rewrite !(bind_returned _ _ _ _ _ Hreq).
    match goal with
    | |- bind ?P _ s1 = _ =>
        assert (HP : exists s2, P s1 = (Returned tt, s2))
          by (cbn beta; destruct (isMounted _ && _);
              [unfold bind, act, emit; cbn; eauto | eauto])
    end.
    destruct HP as [s2 HP]. rewrite !(bind_returned _ _ _ _ _ HP). apply IH.
Qed.

(** The state in which the loop reaches index [i + 1] is the state in which
    it reached index [i], after the iteration of index [i]. *)
Lemma image_loop_next :
  stays_mounted ->
  forall i s,
    snd (image_loop recipe stepImages (S i) 0 s)
    = snd (image_loop recipe stepImages 1 i
             (snd (image_loop recipe stepImages i 0 s))).
Proof.
  intros Hm i s. replace (S i) with (i + 1)%nat by lia.
  rewrite (image_loop_split Hm i 1 0 s). reflexivity.
Qed.

(** The iteration of an index with a cached image changes nothing. *)
Lemma iteration_skipped (i : nat) (s : state W) :
  stays_mounted -> truthy_opt (stepImages !! i) = true ->
  snd (image_loop recipe stepImages 1 i s) = s.
Proof.
  intros Hm Hc. cbn [image_loop]. rewrite Hm, Hc. reflexivity.
Qed.

(** The requests of an iteration are those of the retried call of
    [generateStepVisual]: what else the iteration does sends nothing. *)
Lemma iteration_exchanges (i : nat) (step : RecipeStep) (s : state W) :
  stays_mounted -> steps recipe !! i = Some step ->
  truthy_opt (stepImages !! i) = false ->
  exchanges (trace (snd (image_loop recipe stepImages 1 i s)))
  = exchanges
      (trace (snd (withRetry (image_attempt (step_prompt_at recipe i))
                     3 2000 s))).
Proof.
  intros Hm Hstep Hc. cbn [image_loop]. rewrite Hm, Hc. cbn [negb].
  unfold request_step_image, step_prompt_at, instructions_before.
  rewrite Hstep. unfold generateStepVisual, try_catch, bind, ret, emit.
  destruct (withRetry _ 3 2000 s) as [[[u|]|e] s1]; cbn [snd trace world];
    rewrite ?Hm; cbn [andb];
    repeat match goal with
           | |- context [if ?b then _ else _] => destruct b
           end;
    cbn [snd trace world act emit]; rewrite ?exchanges_app; cbn;
    rewrite ?app_nil_r; reflexivity.
Qed.

(** The iteration of an index without a cached image: the attempts of its
    call, each after a rate limit, the attempt that ends the call, and one
    request for each of them. *)
Lemma iteration_requests (i : nat) (step : RecipeStep) (s : state W) :
  stays_mounted -> steps recipe !! i = Some step ->
  truthy_opt (stepImages !! i) = false ->
  exists (k : nat) t r r' t',
    attempt (image_attempt (step_prompt_at recipe i)) 2000 s (Z.of_nat k) t
    /\ (k < 3)%nat
    /\ image_attempt (step_prompt_at recipe i) (called t) = (r, t')
    /\ ends 3 (Z.of_nat k) r r'
    /\ exchanges (trace (snd (image_loop recipe stepImages 1 i s)))
       = exchanges (trace s)
           ++ concat (repeat (exchange (step_prompt_at recipe i)) (S k)).
Proof.
  intros Hm Hstep Hc. rewrite (iteration_exchanges i step s Hm Hstep Hc).
  destruct (withRetry_run (image_attempt (step_prompt_at recipe i)) 3 2000 s
              ltac:(lia))
    as (j & t & r & r' & t' & Hat & Hj & Hfn & Hends & Hloop).
  unfold withRetry. rewrite Hloop. cbn [snd].
  exists (Z.to_nat j), t, r, r', t'. rewrite Z2Nat.id by lia.
  repeat split; [exact Hat | lia | exact Hfn | exact Hends |].
  pose proof (image_attempt_exchanges (step_prompt_at recipe i) (called t))
    as Hcall.
  rewrite Hfn in Hcall. cbn [snd] in Hcall. rewrite Hcall.
  unfold called. cbn [trace]. rewrite exchanges_app. cbn.
  rewrite app_nil_r.
  rewrite (attempt_exchanges _ _ _ _ _ _ (image_attempt_exchanges _) Hat),
    <- app_assoc, repeat_more.
  reflexivity.
Qed.

End Loop.

(** For instructions whose annotations are well formed, the context of the
    prompt for a step is the clause of the specification. *)
Lemma step_prompt_context (recipe : Recipe) (ms : list marked) (i : nat)
    (step : RecipeStep) :
  map instruction (steps recipe) = map source ms ->
  forallb well_formed ms = true ->
  steps recipe !! i = Some step ->
  exists m,
    ms !! i = Some m /\ instruction step = source m
    /\ step_prompt_at recipe i
       = step_prompt_of (shortInstruction (with_names m)) (context_clause ms i).
Proof.
  intros Hmap Hwf Hstep.
  assert (Hi : (map source ms) !! i = Some (instruction step)).
  { rewrite <- Hmap. change (map instruction (steps recipe))
      with (instruction <$> steps recipe).
    rewrite list_lookup_fmap, Hstep. reflexivity. }
  change (map source ms) with (source <$> ms) in Hi.
  rewrite list_lookup_fmap in Hi.
  destruct (ms !! i) as [m|] eqn:Hm; [|discriminate].
  injection Hi as Hsrc. exists m. repeat split; [auto|].
  rewrite forallb_forall in Hwf.
  assert (Hin : forall x, In x (firstn i ms) -> well_formed x = true).
  { intros x Hx. apply Hwf. rewrite <- (firstn_skipn i ms).
    apply in_or_app. left. exact Hx. }
  assert (Hm_wf : well_formed m = true).
  { apply Hwf. apply list_elem_of_In. eapply list_elem_of_lookup_2, Hm. }
  unfold step_prompt_at, step_prompt, instructions_before. rewrite Hstep.
  rewrite <- Hsrc, (cleanText_well_formed m Hm_wf). f_equal.
  rewrite <- firstn_map, Hmap, firstn_map, map_map.
  rewrite (map_ext_in _ with_names)
    by (intros x Hx; apply cleanText_well_formed, Hin, Hx).
  unfold contextStr, context_clause.
  rewrite length_map, length_firstn.
  apply lookup_lt_Some in Hm.
  replace (i `min` List.length ms)%nat with i by lia.
  destruct i; reflexivity.
Qed.

(** C5, as the code has it. While the component stays mounted, the loop
    runs through the steps in order 0, 1, ..., n-1 and returns. Its requests
    are, index by index, those of the steps: for a step with a cached image
    it sends nothing, and for any other step it makes one call of
    [generateStepVisual], which sends the request of that step once and up
    to two more times, each settled before the next is sent. The request of
    a step is sent again only when the attempt before it has thrown an
    error that is taken for a rate limit, and it is not sent again once an
    attempt has returned, has thrown another error, or was the third: in the
    state [before] in which the loop reaches index [i], the call has [k]
    attempts that are rate limited and one that ends it, and in the state
    [after] in which the loop reaches index [i + 1] it has sent [k + 1]
    requests more. When the instructions are texts whose annotations are
    well formed, the context in the prompt of the request for step [i] is
    the instructions of steps 0 to [i-1], all of them, in order, each with
    its annotations replaced by their names, joined by "; ", and the
    start-of-recipe clause for step 0. *)
Theorem step_images_in_order {W : Type} `{Endpoint W} `{Component W}
    (recipe : Recipe) (stepImages : gmap nat jsstring) (s : state W) :
  stays_mounted ->
  (exists ks s',
      List.length ks = List.length (steps recipe)
      /\ Forall (fun k => (1 <= k <= 3)%nat) ks
      /\ generateAllStepImages recipe stepImages s = (Returned tt, s')
      /\ exchanges (trace s')
         = exchanges (trace s)
             ++ concat (zip_with (step_requests recipe stepImages)
                          (seq 0 (List.length (steps recipe))) ks))
  /\ (forall i step,
        steps recipe !! i = Some step ->
        let before := snd (image_loop recipe stepImages i 0 s) in
        let after := snd (image_loop recipe stepImages (S i) 0 s) in
        generateAllStepImages recipe stepImages s
        = image_loop recipe stepImages (List.length (steps recipe) - i) i
            before
        /\ (truthy_opt (stepImages !! i) = true -> after = before)
        /\ (truthy_opt (stepImages !! i) = false ->
            exists (k : nat) t r r' t',
              attempt (image_attempt (step_prompt_at recipe i)) 2000 before
                (Z.of_nat k) t
              /\ (k < 3)%nat
              /\ image_attempt (step_prompt_at recipe i) (called t) = (r, t')
              /\ ends 3 (Z.of_nat k) r r'
              /\ exchanges (trace after)
                 = exchanges (trace before)
                     ++ concat (repeat (exchange (step_prompt_at recipe i))
                                  (S k))))
  /\ (forall ms,
        map instruction (steps recipe) = map source ms ->
        forallb well_formed ms = true ->
        forall i step,
          steps recipe !! i = Some step ->
          exists m,
            ms !! i = Some m /\ instruction step = source m
            /\ step_prompt_at recipe i
               = step_prompt_of (shortInstruction (with_names m))
                   (context_clause ms i)).
Proof.
  intros Hm. repeat apply conj.
  - destruct (image_loop_traffic recipe stepImages Hm
                (List.length (steps recipe)) 0 s eq_refl)
      as (ks & s' & Hl & Hks & Hrun & Htr).
    exists ks, s'. repeat split; try assumption.
    rewrite <- (exchanges_traffic (trace s')), Htr, exchanges_app.
    rewrite exchanges_traffic, exchanges_blocks. reflexivity.
  - intros i step Hstep before after.
    assert (Hnext : after = snd (image_loop recipe stepImages 1 i before))
      by apply (image_loop_next recipe stepImages Hm).
    repeat apply conj.
    + unfold generateAllStepImages. apply lookup_lt_Some in Hstep.
      replace (List.length (steps recipe))
        with (i + (List.length (steps recipe) - i))%nat at 1 by lia.
      apply (image_loop_split recipe stepImages Hm).
    + intros Hc. rewrite Hnext. apply iteration_skipped; assumption.
    + intros Hc. rewrite Hnext.
      apply (iteration_requests recipe stepImages i step before Hm Hstep Hc).
  - intros ms Hmap Hwf i step Hstep.
    apply (step_prompt_context recipe ms i step Hmap Hwf Hstep).
Qed.

(** C6, as the code has it. While the component stays mounted, every
    iteration that sends a request, whether the request succeeds or fails,
    is followed by the pacing timer of 4000 ms, except the iteration of the
    last index; an iteration that is skipped because an image is cached for
    its index sends nothing and starts no timer. *)
Theorem pacing_follows_requests {W : Type} `{Endpoint W} `{Component W}
    (recipe : Recipe) (stepImages : gmap nat jsstring) (s : state W) :
  stays_mounted ->
  exists ks s',
    List.length ks = List.length (steps recipe)
    /\ Forall (fun k => (1 <= k <= 3)%nat) ks
    /\ generateAllStepImages recipe stepImages s = (Returned tt, s')
    /\ traffic (trace s')
       = traffic (trace s)
           ++ concat (zip_with (step_traffic recipe stepImages)
                        (seq 0 (List.length (steps recipe))) ks).
Proof.
  intros Hm.
  exact (image_loop_traffic recipe stepImages Hm
           (List.length (steps recipe)) 0 s eq_refl).
Qed.

Lemma mounted_stays : @stays_mounted nat mounted.
Proof. intros w. reflexivity. Defined.

Lemma step_images_in_order_witness :
  (exists ks s',
      List.length ks = 2%nat
      /\ Forall (fun k => (1 <= k <= 3)%nat) ks
      /\ @generateAllStepImages nat picturing mounted omelette ∅
           (mkState 0%nat []) = (Returned tt, s')
      /\ exchanges (trace s')
         = concat (zip_with (step_requests omelette ∅) [0; 1]%nat ks))
  /\ (exists (k : nat) t r r' t',
        attempt (@image_attempt nat picturing (step_prompt_at omelette 1)) 2000
          (snd (@image_loop nat picturing mounted omelette ∅ 1 0
                  (mkState 0%nat [])))
          (Z.of_nat k) t
        /\ (k < 3)%nat
        /\ @image_attempt nat picturing (step_prompt_at omelette 1) (called t)
           = (r, t')
        /\ ends 3 (Z.of_nat k) r r'
        /\ exchanges
             (trace (snd (@image_loop nat picturing mounted omelette ∅ 2 0
                            (mkState 0%nat []))))
           = exchanges
               (trace (snd (@image_loop nat picturing mounted omelette ∅ 1 0
                              (mkState 0%nat []))))
               ++ concat (repeat (exchange (step_prompt_at omelette 1)) (S k)))
  /\ (exists m,
        omelette_marked !! 1%nat = Some m
        /\ str "Fry in <<butter|10g>>." = source m
        /\ step_prompt_at omelette 1
           = step_prompt_of (shortInstruction (with_names m))
               (context_clause omelette_marked 1)).
Proof.
  destruct (@step_images_in_order nat picturing mounted omelette ∅
              (mkState 0%nat []) mounted_stays) as (Hrun & Hstep & Hctx).
  split; [exact Hrun|]. split.
  - exact (proj2 (proj2 (Hstep 1%nat
                           (mkStep (str "Fry in <<butter|10g>>.") COOK None)
                           eq_refl)) eq_refl).
  - exact (Hctx omelette_marked eq_refl eq_refl 1%nat
             (mkStep (str "Fry in <<butter|10g>>.") COOK None) eq_refl).
Defined.

Lemma pacing_follows_requests_witness :
  exists ks s',
    List.length ks = 2%nat
    /\ Forall (fun k => (1 <= k <= 3)%nat) ks
    /\ @generateAllStepImages nat picturing mounted omelette ∅
         (mkState 0%nat []) = (Returned tt, s')
    /\ traffic (trace s')
       = concat (zip_with (step_traffic omelette ∅) [0; 1]%nat ks).
Proof.
  exact (@pacing_follows_requests nat picturing mounted omelette ∅
           (mkState 0%nat []) mounted_stays).
Defined.

(** What the loop does for the omelette: a request, its image, the pacing
    timer, and the second request with the first step as its context. *)
Example omelette_run :
  trace (snd (@generateAllStepImages nat picturing mounted omelette ∅
                (mkState 0%nat [])))
  = [Called;
     Requested (str "gemini-2.5-flash-image") (step_prompt_at omelette 0);
     Responded; StepImageSet 0 (str "data:image/png;base64,iVBORw0KGgo=");
     Paced 4000; Called;
     Requested (str "gemini-2.5-flash-image") (step_prompt_at omelette 1);
     Responded; StepImageSet 1 (str "data:image/png;base64,iVBORw0KGgo=")]
  /\ context_clause omelette_marked 1
     = str "PREVIOUS STEPS CONTEXT (The dish state so far): Whisk the eggs..".
Proof. split; reflexivity. Qed.

(** C5 as the specification words it fails when the component is unmounted
    while the first request is pending: the loop breaks, and the second of
    the two steps gets no request. It fails too when an image is cached for
    the first step: the loop skips it and sends the second request only.
    And it fails on an instruction whose quantity holds a single [>], which
    the specification allows: [cleanText] finds no annotation in it, and the
    context of the next prompt carries the instruction with its markup, not
    with the annotation replaced by its name. *)
Lemma step_images_abandoned :
  List.length (steps omelette) = 2%nat
  /\ exchanges
       (trace (snd (@generateAllStepImages nat picturing (unmounted_after 1)
                      omelette ∅ (mkState 0%nat []))))
     = exchange (step_prompt_at omelette 0)
  /\ exchanges
       (trace (snd (@generateAllStepImages nat picturing mounted omelette
                      {[ 0%nat := str "data:image/png;base64,iVBORw0KGgo=" ]}
                      (mkState 0%nat []))))
     = exchange (step_prompt_at omelette 1)
  /\ map instruction (steps salted) = map source salted_marked
  /\ forallb well_formed_as_specified salted_marked = true
  /\ context_clause salted_marked 1
     = str "PREVIOUS STEPS CONTEXT (The dish state so far): Add salt now.."
  /\ step_prompt_at salted 1
     = step_prompt_of (str "Stir.")
         (str "PREVIOUS STEPS CONTEXT (The dish state so far): Add <<salt|1>2 tsp>> now..").
Proof. repeat split; reflexivity. Qed.

(** C6 as the specification words it fails on an index with a cached image:
    the iteration of index 0 of two is skipped, and no pacing timer runs
    before the request of index 1. Nor does one run after the request of
    index 0 when the component is unmounted while that request is
    pending. *)
Lemma no_pacing_after_cached_step :
  List.length (steps omelette) = 2%nat
  /\ traffic
       (trace (snd (@generateAllStepImages nat picturing mounted omelette
                      {[ 0%nat := str "data:image/png;base64,iVBORw0KGgo=" ]}
                      (mkState 0%nat []))))
     = exchange (step_prompt_at omelette 1)
  /\ traffic
       (trace (snd (@generateAllStepImages nat picturing (unmounted_after 1)
                      omelette ∅ (mkState 0%nat []))))
     = exchange (step_prompt_at omelette 0).
Proof. repeat split; reflexivity. Qed.

End RecipeCardFacts.

(* ===================================================================== *)
(** * The schedule of the retry policy *)
(* ===================================================================== *)

Module ScheduleFacts.
Import Retry RetryFacts Schedule Samples MoreSamples.

Lemma waited_app (a b : list event) : waited (a ++ b) = waited a + waited b.
Proof.
  induction a as [|ev a IH]; [reflexivity|].
  destruct ev; cbn; rewrite ?IH; lia.
Qed.

(** [k] backoffs in a row from attempt [i] on take
    [baseDelay * 2 ^ i * (2 ^ k - 1)] ms. *)
Lemma waited_backoffs (X : list event) (baseDelay : Z) (k : nat) :
  waited X = 0 ->
  forall i, 0 <= i ->
    waited (backoffs X baseDelay i k)
    = baseDelay * 2 ^ i * (2 ^ Z.of_nat k - 1).
Proof.
  intros HX. induction k as [|k IH]; intros i Hi.
  - cbn. lia.
  - cbn [backoffs]. change (Called :: ?l) with ([Called] ++ l).
    rewrite !waited_app, HX, (IH (i + 1)) by lia. cbn [waited].
    rewrite Nat2Z.inj_succ, !Z.pow_succ_r by lia. rewrite Z.pow_add_r by lia.
    lia.
Qed.

Section Shape.
Context {W : Type} `{Clock W} {T : Type}.
Variable fn : M W T.
Variable X : list event.
Hypothesis fn_trace : forall s, trace (snd (fn s)) = trace s ++ X.

(** The loop from attempt [i] on: some [k] attempts hit a rate limit and
    are backed off, and one more ends the loop. *)
Lemma retry_loop_schedule (retries baseDelay : Z) (n : nat) :
  forall i s,
    n = Z.to_nat (retries - i) -> (0 < n)%nat ->
    exists k : nat,
      (k < n)%nat
      /\ trace (snd (retry_loop (throw max_retries_exceeded) fn retries
                       baseDelay n i s))
         = trace s ++ backoffs X baseDelay i k ++ Called :: X.
Proof.
  induction n as [|n IH]; intros i s Hn Hpos; [lia|].
  pose proof (fn_trace (called s)) as Htr.
  destruct (fn (called s)) as [[v|e] s'] eqn:Hfn; cbn [snd] in Htr.
  - exists 0%nat. rewrite (retry_loop_returned _ _ _ _ _ _ _ _ _ Hfn).
    cbn [snd backoffs app]. rewrite Htr. unfold called. cbn [trace].
    rewrite <- app_assoc. split; [lia | reflexivity].
  - destruct (caught_cases (T := T) retries i e) as [[r' Hends] | [Hrl Hi]].
    + exists 0%nat. rewrite (retry_loop_ends _ _ _ _ _ _ _ _ _ _ Hfn Hends).
      cbn [snd backoffs app]. rewrite Htr. unfold called. cbn [trace].
      rewrite <- app_assoc. split; [lia | reflexivity].
    + rewrite (retry_loop_backoff _ _ _ _ _ _ _ _ _ Hfn Hrl Hi).
      destruct (IH (i + 1) (backed_off (baseDelay * 2 ^ i) s'))
        as (k & Hk & Hrun); [lia | lia |].
      exists (S k). split; [lia|]. rewrite Hrun. unfold backed_off.
      cbn [trace backoffs]. rewrite Htr. unfold called. cbn [trace].
      cbn [app]. rewrite <- ?app_assoc. cbn [app]. rewrite <- ?app_assoc.
      reflexivity.
Qed.

(** When every attempt hits a rate limit, every attempt but the last is
    backed off, and the last rethrows what it caught. *)
Lemma retry_loop_exhausted (retries baseDelay : Z) (n : nat) :
  (forall s, exists e s', fn s = (Threw e, s') /\ isRateLimit e = Returned true) ->
  forall i s,
    n = Z.to_nat (retries - i) -> (0 < n)%nat ->
    exists e s',
      retry_loop (throw max_retries_exceeded) fn retries baseDelay n i s
      = (Threw e, s')
      /\ isRateLimit e = Returned true
      /\ trace s' = trace s ++ backoffs X baseDelay i (n - 1) ++ Called :: X.
Proof.
  intros Hfail. induction n as [|n IH]; intros i s Hn Hpos; [lia|].
  pose proof (fn_trace (called s)) as Htr.
  destruct (Hfail (called s)) as (e & s1 & Hfn & Hrl).
  rewrite Hfn in Htr. cbn [snd] in Htr.
  destruct (Z.ltb_spec i (retries - 1)) as [Hi | Hi].
  - rewrite (retry_loop_backoff _ _ _ _ _ _ _ _ _ Hfn Hrl Hi).
    destruct (IH (i + 1) (backed_off (baseDelay * 2 ^ i) s1))
      as (e' & s' & Hrun & Hrl' & Htr'); [lia | lia |].
    exists e', s'. repeat split; [exact Hrun | exact Hrl' |].
    rewrite Htr'. unfold backed_off. cbn [trace]. rewrite Htr. unfold called.
    cbn [trace]. replace (S n - 1)%nat with (S (n - 1)) by lia.
    cbn [backoffs]. cbn [app]. rewrite <- ?app_assoc. cbn [app].
    rewrite <- ?app_assoc. reflexivity.
  - exists e, s1. replace n with 0%nat by lia.
    rewrite (retry_loop_rethrown _ _ _ _ _ _ _ _ _ Hfn Hrl)
      by (cbn; apply Z.ltb_ge; lia).
    repeat split; [exact Hrl|]. rewrite Htr. unfold called. cbn.
    rewrite <- app_assoc. reflexivity.
Qed.

End Shape.

Lemma perform_trace {W T : Type} (op : W -> outcome T * W) (s : state W) :
  trace (snd (perform op s)) = trace s ++ [].
Proof.
  unfold perform. destruct (op (world s)). cbn. symmetry. apply app_nil_r.
Qed.

(** X1. For every operation, every [retries >= 1] and every base delay
    above 0 whose largest backoff, [baseDelay * 2 ^ (retries - 2)], stays
    within the 2^31 - 1 ms that a timer takes, [withRetry] invokes the
    operation at least once and at most [retries] times, and it sleeps only
    between two invocations, for [baseDelay * 2 ^ i] ms after the failure of
    attempt [i]: what it adds to the trace is [k] backoffs, for some
    [k < retries], and one more invocation; every delay of these backoffs is
    within the range of the timer, where the product is exact, and the time
    it spends asleep is [baseDelay * (2 ^ k - 1)] ms. *)
Theorem withRetry_schedule {W : Type} `{Clock W} {T : Type}
    (op : W -> outcome T * W) (retries baseDelay : Z) (s : state W) :
  1 <= retries -> 0 < baseDelay ->
  baseDelay * 2 ^ (retries - 2) <= 2147483647 ->
  exists k : nat,
    Z.of_nat k < retries
    /\ trace (snd (withRetry (perform op) retries baseDelay s))
       = trace s ++ backoffs [] baseDelay 0 k ++ [Called]
    /\ (forall i, 0 <= i < Z.of_nat k ->
          0 < baseDelay * 2 ^ i <= 2147483647)
    /\ waited (backoffs [] baseDelay 0 k ++ [Called])
       = baseDelay * (2 ^ Z.of_nat k - 1).
Proof.
  intros Hr Hbase Hmax. unfold withRetry.
  destruct (retry_loop_schedule (perform op) [] (perform_trace op)
              retries baseDelay (Z.to_nat retries) 0 s)
    as (k & Hk & Htr); [f_equal; lia | lia |].
  exists k. repeat split; [lia | exact Htr | | |].
  - apply Z.mul_pos_pos; [exact Hbase | apply Z.pow_pos_nonneg; lia].
  - apply Z.le_trans with (baseDelay * 2 ^ (retries - 2)); [|exact Hmax].
    apply Z.mul_le_mono_nonneg_l; [lia|].
    apply Z.pow_le_mono_r; lia.
  - rewrite waited_app, (waited_backoffs [] baseDelay k eq_refl 0) by lia.
    cbn. lia.
Qed.

Lemma withRetry_schedule_witness :
  exists k : nat,
    Z.of_nat k < 3
    /\ trace (snd (withRetry (perform third_time_lucky) 3 2000
                     (mkState 0%nat [])))
       = backoffs [] 2000 0 k ++ [Called]
    /\ (forall i, 0 <= i < Z.of_nat k -> 0 < 2000 * 2 ^ i <= 2147483647)
    /\ waited (backoffs [] 2000 0 k ++ [Called])
       = 2000 * (2 ^ Z.of_nat k - 1).
Proof.
  apply (withRetry_schedule third_time_lucky 3 2000 (mkState 0%nat []));
    [lia | lia | cbn; lia].
Defined.

(** X2. When the operation fails with a rate limit every time, [withRetry]
    with [retries >= 1] invokes it exactly [retries] times, backs off after
    every attempt but the last, and throws the rate-limit error of the last
    attempt, not "Max retries exceeded". *)
Theorem withRetry_exhausted {W : Type} `{Clock W} {T : Type}
    (op : W -> outcome T * W) (retries baseDelay : Z) (s : state W) :
  1 <= retries -> always_rate_limited op ->
  exists e s',
    withRetry (perform op) retries baseDelay s = (Threw e, s')
    /\ isRateLimit e = Returned true
    /\ trace s'
       = trace s ++ backoffs [] baseDelay 0 (Z.to_nat (retries - 1)) ++ [Called].
Proof.
  intros Hr Hop. unfold withRetry.
  destruct (retry_loop_exhausted (perform op) [] (perform_trace op)
              retries baseDelay (Z.to_nat retries)) with (i := 0) (s := s)
    as (e & s' & Hrun & Hrl & Htr); [| f_equal; lia | lia |].
  - intros s0. unfold perform. destruct (Hop (world s0)) as (e & w' & -> & Hrl).
    eauto.
  - exists e, s'. repeat split; [exact Hrun | exact Hrl |].
    rewrite Htr. repeat f_equal. lia.
Qed.

Lemma withRetry_exhausted_witness :
  exists e s',
    withRetry (perform throttled) 4 500 (mkState 0%nat [])
    = (Threw e, s')
    /\ isRateLimit e = Returned true
    /\ trace s' = backoffs [] 500 0 3 ++ [Called].
Proof.
  apply (withRetry_exhausted throttled 4 500 (mkState 0%nat []));
    [lia|].
  intros w. eexists _, _. split; reflexivity.
Defined.

(** X3. With [retries <= 0] the loop of [withRetry] has no iteration: the
    operation is not invoked, nothing is awaited, and the statement after
    the loop throws "Max retries exceeded". *)
Theorem withRetry_without_attempts {W : Type} `{Clock W} {T : Type}
    (fn : M W T) (retries baseDelay : Z) (s : state W) :
  retries <= 0 ->
  withRetry fn retries baseDelay s = (Threw max_retries_exceeded, s).
Proof.
  intros Hr. unfold withRetry. replace (Z.to_nat retries) with 0%nat by lia.
  reflexivity.
Qed.

Lemma withRetry_without_attempts_witness :
  withRetry (perform third_time_lucky) 0 2000 (mkState 0%nat [])
  = (Threw max_retries_exceeded, mkState 0%nat []).
Proof.
  apply (withRetry_without_attempts (perform third_time_lucky) 0 2000
           (mkState 0%nat [])).
  lia.
Defined.

End ScheduleFacts.

(* ===================================================================== *)
(** * The schedule of the five operations *)
(* ===================================================================== *)

Module OperationFacts.
Import Retry RetryFacts Markup Wav Json Client ClientFacts Schedule
  ScheduleFacts Samples MoreSamples.

Section Operations.
Context {W : Type} `{Endpoint W} `{JsonParser} `{Browser W}.

(** ** What one attempt puts on the trace *)

Lemma recipe_attempt_trace (query : jsstring) (s : state W) :
  trace (snd (recipe_attempt query s))
  = trace s ++ exchange_of (recipe_request query).
Proof.
  rewrite recipe_attempt_run.
  destruct (generateContent (recipe_request query) (world s)) as [[r|e] w'];
    [|reflexivity].
  destruct (text r) as [t|]; [destruct (truthy t)|]; reflexivity.
Qed.

Lemma leftover_attempt_trace (ingredients : list jsstring)
    (currentTitle : jsstring) (s : state W) :
  trace (snd (leftover_attempt ingredients currentTitle s))
  = trace s ++ exchange_of (leftover_request ingredients currentTitle).
Proof.
  unfold leftover_attempt, bind. rewrite call_api_run.
  fold (leftover_request ingredients currentTitle).
  destruct (generateContent _ (world s)) as [[r|e] w']; [|reflexivity].
  cbn [fst snd]. destruct (text r) as [t|]; [destruct (truthy t)|];
    reflexivity.
Qed.

Lemma image_attempt_trace (prompt : jsstring) (s : state W) :
  trace (snd (image_attempt prompt s))
  = trace s ++ exchange_of (image_request prompt).
Proof.
  unfold image_attempt, bind. rewrite call_api_run.
  fold (image_request prompt).
  destruct (generateContent _ (world s)) as [[r|e] w']; reflexivity.
Qed.

Lemma audio_attempt_run (spoken : jsstring) (s : state W) :
  audio_attempt spoken s
  = let s' w := mkState w (trace s ++ exchange_of (audio_request spoken)) in
    match generateContent (audio_request spoken) (world s) with
    | (Returned r, w1) =>
        match first_audio r with
        | Some d =>
            if truthy d then
              match atob d with
              | Returned bin =>
                  let (url, w2) :=
                    createObjectURL
                      (mkBlob (header 24000 (Z.of_nat (List.length bin))
                                 ++ map charCode bin)
                         (str "audio/wav")) w1 in
                  (Returned (Some url), s' w2)
              | Threw e => (Threw e, s' w1)
              end
            else (Returned None, s' w1)
        | None => (Returned None, s' w1)
        end
    | (Threw e, w1) => (Threw e, s' w1)
    end.
Proof.
  unfold audio_attempt, bind. rewrite call_api_run.
  fold (audio_request spoken).
  destruct (generateContent _ (world s)) as [[r|e] w1]; [|reflexivity].
  cbn [fst snd]. destruct (first_audio r) as [d|]; [|reflexivity].
  cbn [truthy_opt from_option id]. destruct (truthy d); [|reflexivity].
  destruct (atob d) as [bin|e]; [|reflexivity].
  rewrite WavFacts.pcmToWav_layout, length_map. unfold perform, ret. cbn.
  destruct (createObjectURL _ w1) as [url w2]. reflexivity.
Qed.

Lemma audio_attempt_trace (spoken : jsstring) (s : state W) :
  trace (snd (audio_attempt spoken s))
  = trace s ++ exchange_of (audio_request spoken).
Proof.
  rewrite audio_attempt_run. cbv zeta.
  destruct (generateContent _ (world s)) as [[r|e] w1]; [|reflexivity].
  destruct (first_audio r) as [d|]; [|reflexivity].
  destruct (truthy d); [|reflexivity].
  destruct (atob d) as [bin|e]; [|reflexivity].
  destruct (createObjectURL _ w1) as [url w2]. reflexivity.
Qed.

(** The trace of a best-effort operation: that of the retried call, and
    the line of the [catch] when the call threw. *)
Lemma best_effort_trace {T : Type} (inner : M W T)
    (line : js_error -> console_line) (fallback : T) (s : state W) :
  exists log,
    trace (snd (try_catch inner
                  (fun error => emit (Console (line error)) ;;; ret fallback) s))
    = trace (snd (inner s)) ++ log
    /\ (log = [] \/ exists e, log = [Console (line e)]).
Proof.
  unfold try_catch. destruct (inner s) as [[v|e] s1].
  - exists []. cbn. rewrite app_nil_r. auto.
  - exists [Console (line e)]. split; [reflexivity | eauto].
Qed.

Lemma withRetry_attempts {T : Type} (fn : M W T) (req : request)
    (s : state W) :
  (forall s0, trace (snd (fn s0)) = trace s0 ++ exchange_of req) ->
  exists k,
    (k < 3)%nat
    /\ trace (snd (withRetry fn 3 2000 s)) = trace s ++ attempts req k.
Proof.
  intros Hfn. unfold withRetry, attempts.
  destruct (retry_loop_schedule fn (exchange_of req) Hfn 3 2000 (Z.to_nat 3)
              0 s eq_refl) as (k & Hk & Htr); [cbn; lia|].
  exists k. split; [exact Hk | exact Htr].
Qed.

Lemma best_effort_attempts {T : Type} (fn : M W T) (req : request)
    (line : js_error -> console_line) (fallback : T) (s : state W) :
  (forall s0, trace (snd (fn s0)) = trace s0 ++ exchange_of req) ->
  exists k log,
    (k < 3)%nat
    /\ trace (snd (try_catch (withRetry fn 3 2000)
                     (fun error => emit (Console (line error)) ;;; ret fallback)
                     s))
       = trace s ++ attempts req k ++ log
    /\ (log = [] \/ exists e, log = [Console (line e)]).
Proof.
  intros Hfn.
  destruct (withRetry_attempts fn req s Hfn) as (k & Hk & Htr).
  destruct (best_effort_trace (withRetry fn 3 2000) line fallback s)
    as (log & Hlog & Hshape).
  exists k, log. repeat split; [exact Hk | | exact Hshape].
  rewrite Hlog, Htr, <- app_assoc. reflexivity.
Qed.

Lemma requests_app (a b : list event) :
  requests (a ++ b) = (requests a + requests b)%nat.
Proof. unfold requests. rewrite List.filter_app, length_app. reflexivity. Qed.

(** X4. Each of the five operations sends one and the same request, at
    least once and at most three times, each attempt settled before the
    next is sent; between two attempts it warns and backs off, 2000 ms
    after the first and 4000 ms after the second; the best-effort
    operations add one console line when the retried call threw, and
    nothing else is put on the trace. So no operation sends more than
    three requests or sleeps more than 6000 ms. *)
Theorem operations_schedule (query : jsstring) (ingredients : list jsstring)
    (currentTitle title description instruction : jsstring)
    (previousInstructions : list jsstring) (text : jsstring) (s : state W) :
  (exists k,
      (k < 3)%nat
      /\ trace (snd (generateRecipe query s))
         = trace s ++ attempts (recipe_request query) k)
  /\ (exists k log,
        (k < 3)%nat
        /\ trace (snd (generateLeftoverSuggestions ingredients currentTitle s))
           = trace s
               ++ attempts (leftover_request ingredients currentTitle) k ++ log
        /\ (log = [] \/ exists e, log = [Console (ErrorLeftovers e)]))
  /\ (exists k log,
        (k < 3)%nat
        /\ trace (snd (generateRecipeVisual title description s))
           = trace s
               ++ attempts (image_request (visual_prompt title description)) k
               ++ log
        /\ (log = [] \/ exists e, log = [Console (ErrorImage e)]))
  /\ (exists k log,
        (k < 3)%nat
        /\ trace (snd (generateStepVisual instruction previousInstructions s))
           = trace s
               ++ attempts
                    (image_request
                       (step_prompt instruction previousInstructions)) k
               ++ log
        /\ (log = [] \/ exists e, log = [Console (ErrorStepImage e)]))
  /\ (exists k log,
        (k < 3)%nat
        /\ trace (snd (generateStepAudio text s))
           = trace s ++ attempts (audio_request (spokenText text)) k ++ log
        /\ (log = [] \/ exists e, log = [Console (ErrorAudio e)]))
  /\ (forall req k,
        (k < 3)%nat ->
        (requests (attempts req k) <= 3)%nat
        /\ waited (attempts req k) <= 6000).
Proof.
  repeat apply conj.
  - apply withRetry_attempts, recipe_attempt_trace.
  - apply best_effort_attempts, leftover_attempt_trace.
  - apply best_effort_attempts, image_attempt_trace.
  - apply best_effort_attempts, image_attempt_trace.
  - apply best_effort_attempts, audio_attempt_trace.
  - intros req k Hk.
    destruct k as [|[|[|k]]]; [| | | lia]; split; cbn; lia.
Qed.

(** ** Under a rate limit that does not lift *)

Lemma attempt_throttled {B : Type} (req : request) (k : response -> M W B) :
  throttling ->
  forall s0, exists e s1,
    bind (call_api req) k s0 = (Threw e, s1) /\ isRateLimit e = Returned true.
Proof.
  intros Hth s0. unfold bind. rewrite call_api_run.
  destruct (Hth req (world s0)) as (e & w' & -> & Hrl). cbn. eauto.
Qed.

Lemma withRetry_throttled {T : Type} (fn : M W T) (req : request)
    (s : state W) :
  (forall s0, exists e s1, fn s0 = (Threw e, s1) /\ isRateLimit e = Returned true) ->
  (forall s0, trace (snd (fn s0)) = trace s0 ++ exchange_of req) ->
  exists e s',
    withRetry fn 3 2000 s = (Threw e, s')
    /\ isRateLimit e = Returned true
    /\ trace s' = trace s ++ attempts req 2.
Proof.
  intros Hfail Hfn. unfold withRetry, attempts.
  exact (retry_loop_exhausted fn (exchange_of req) Hfn 3 2000 (Z.to_nat 3)
           Hfail 0 s eq_refl ltac:(cbn; lia)).
Qed.

Lemma best_effort_throttled {T : Type} (fn : M W T) (req : request)
    (line : js_error -> console_line) (fallback : T) (s : state W) :
  (forall s0, exists e s1, fn s0 = (Threw e, s1) /\ isRateLimit e = Returned true) ->
  (forall s0, trace (snd (fn s0)) = trace s0 ++ exchange_of req) ->
  exists e s',
    try_catch (withRetry fn 3 2000)
      (fun error => emit (Console (line error)) ;;; ret fallback) s
    = (Returned fallback, s')
    /\ isRateLimit e = Returned true
    /\ trace s' = trace s ++ attempts req 2 ++ [Console (line e)].
Proof.
  intros Hfail Hfn.
  destruct (withRetry_throttled fn req s Hfail Hfn)
    as (e & s1 & Hrun & Hrl & Htr).
  exists e. unfold try_catch. rewrite Hrun. eexists. split; [reflexivity|].
  split; [exact Hrl|]. cbn. rewrite Htr, <- app_assoc. reflexivity.
Qed.

(** X5. Against an endpoint that answers every request with a rate limit,
    each operation makes exactly three attempts, with a backoff of 2000 ms
    after the first and of 4000 ms after the second and none after the
    third. [generateRecipe] then throws the rate-limit error of the third
    attempt (not "Max retries exceeded"); the other four log that error
    and return their fallback, the empty array or [null]. *)
Theorem rate_limited_out (query : jsstring) (ingredients : list jsstring)
    (currentTitle title description instruction : jsstring)
    (previousInstructions : list jsstring) (text : jsstring) (s : state W) :
  throttling ->
  (exists e s',
      generateRecipe query s = (Threw e, s')
      /\ isRateLimit e = Returned true
      /\ trace s' = trace s ++ attempts (recipe_request query) 2)
  /\ (exists e s',
        generateLeftoverSuggestions ingredients currentTitle s
        = (Returned (JArray []), s')
        /\ isRateLimit e = Returned true
        /\ trace s'
           = trace s
               ++ attempts (leftover_request ingredients currentTitle) 2
               ++ [Console (ErrorLeftovers e)])
  /\ (exists e s',
        generateRecipeVisual title description s = (Returned None, s')
        /\ isRateLimit e = Returned true
        /\ trace s'
           = trace s
               ++ attempts (image_request (visual_prompt title description)) 2
               ++ [Console (ErrorImage e)])
  /\ (exists e s',
        generateStepVisual instruction previousInstructions s
        = (Returned None, s')
        /\ isRateLimit e = Returned true
        /\ trace s'
           = trace s
               ++ attempts
                    (image_request
                       (step_prompt instruction previousInstructions)) 2
               ++ [Console (ErrorStepImage e)])
  /\ (exists e s',
        generateStepAudio text s = (Returned None, s')
        /\ isRateLimit e = Returned true
        /\ trace s'
           = trace s ++ attempts (audio_request (spokenText text)) 2
               ++ [Console (ErrorAudio e)]).
Proof.
  intros Hth. repeat apply conj.
  - apply withRetry_throttled;
      [apply attempt_throttled, Hth | apply recipe_attempt_trace].
  - apply best_effort_throttled;
      [apply attempt_throttled, Hth | apply leftover_attempt_trace].
  - apply best_effort_throttled;
      [apply attempt_throttled, Hth | apply image_attempt_trace].
  - apply best_effort_throttled;
      [apply attempt_throttled, Hth | apply image_attempt_trace].
  - apply best_effort_throttled;
      [apply attempt_throttled, Hth | apply audio_attempt_trace].
Qed.

(** ** The images *)

(** X6. The loop over the parts of a response returns the data URI of the
    first part that carries inline data, whatever comes after it, and
    [null] exactly when no part carries any. *)
Theorem first_inline_image_first (ps : list part) :
  match first_inline_image ps with
  | Some url =>
      exists pre d post,
        ps = pre ++ mkPart (Some d) :: post
        /\ Forall (fun p => part_inlineData p = None) pre
        /\ url = data_uri (mimeType d) (data d)
  | None => Forall (fun p => part_inlineData p = None) ps
  end.
Proof.
  induction ps as [|[[d|]] ps IH]; cbn.
  - constructor.
  - exists [], d, ps. repeat split. constructor.
  - destruct (first_inline_image ps) as [url|].
    + destruct IH as (pre & d & post & -> & Hpre & ->).
      exists (mkPart None :: pre), d, post. repeat split.
      constructor; [reflexivity | exact Hpre].
    + constructor; [reflexivity | exact IH].
Qed.

(** What the loop returns is a data URI. *)
Lemma first_inline_image_uri (ps : list part) (url : jsstring) :
  first_inline_image ps = Some url ->
  exists mimeType data, url = data_uri mimeType data.
Proof.
  induction ps as [|[[d|]] ps IH]; cbn; [discriminate | | exact IH].
  intros [= <-]. eauto.
Qed.

Lemma data_uri_truthy (mimeType data : jsstring) :
  truthy (data_uri mimeType data) = true.
Proof. reflexivity. Qed.

Lemma image_attempt_result (prompt : jsstring) (s0 : state W) :
  forall v s1,
    image_attempt prompt s0 = (Returned v, s1) ->
    forall url, v = Some url -> exists mimeType data, url = data_uri mimeType data.
Proof.
  intros v s1 Hrun url ->. unfold image_attempt, bind in Hrun.
  rewrite call_api_run in Hrun.
  destruct (generateContent _ (world s0)) as [[r|e] w1]; [|discriminate].
  cbn [fst snd] in Hrun. unfold ret in Hrun. injection Hrun as Hv _.
  exact (first_inline_image_uri _ _ Hv).
Qed.

Lemma best_effort_image (prompt : jsstring) (line : js_error -> console_line)
    (s : state W) :
  exists v s',
    try_catch (withRetry (image_attempt prompt) 3 2000)
      (fun error => emit (Console (line error)) ;;; ret None) s
    = (Returned v, s')
    /\ (forall url, v = Some url ->
          truthy url = true
          /\ exists mimeType data, url = data_uri mimeType data).
Proof.
  unfold try_catch.
  destruct (withRetry (image_attempt prompt) 3 2000 s) as [[v|e] s2] eqn:Hrun.
  - exists v, s2. split; [reflexivity|]. intros url Hv.
    destruct (withRetry_returned (image_attempt prompt) 3 2000 s v s2
                ltac:(lia) Hrun) as [s1 Hs1].
    destruct (image_attempt_result prompt s1 v s2 Hs1 url Hv) as (m & d & ->).
    split; [apply data_uri_truthy | eauto].
  - eexists _, _. split; [reflexivity|]. intros url Hv. discriminate.
Qed.

(** An image operation in full: it returns, a URL it returns is a data
    URI, and its trace is that of its attempts and of the line of its
    [catch]. *)
Lemma image_operation_run (prompt : jsstring)
    (line : js_error -> console_line) (s : state W) :
  exists k log v s',
    (k < 3)%nat
    /\ try_catch (withRetry (image_attempt prompt) 3 2000)
         (fun error => emit (Console (line error)) ;;; ret None) s
       = (Returned v, s')
    /\ trace s' = trace s ++ attempts (image_request prompt) k ++ log
    /\ (log = [] \/ exists e, log = [Console (line e)])
    /\ (v = None \/ exists mimeType data, v = Some (data_uri mimeType data)).
Proof.
  destruct (best_effort_attempts (image_attempt prompt) (image_request prompt)
              line None s (image_attempt_trace _))
    as (k & log & Hk & Htr & Hlog).
  destruct (best_effort_image prompt line s) as (v & s' & Hrun & Hv).
  exists k, log, v, s'. rewrite Hrun in Htr. cbn [snd] in Htr.
  repeat split; [exact Hk | exact Hrun | exact Htr | exact Hlog |].
  destruct v as [url|]; [right | left; reflexivity].
  destruct (Hv url eq_refl) as (_ & m & d & ->). eauto.
Qed.

(** [generateStepAudio] in full: it returns, and its trace is that of its
    attempts and of the line of its [catch]. *)
Lemma audio_operation_run (text : jsstring) (s : state W) :
  exists k log v s',
    (k < 3)%nat
    /\ generateStepAudio text s = (Returned v, s')
    /\ trace s' = trace s ++ attempts (audio_request (spokenText text)) k ++ log
    /\ (log = [] \/ exists e, log = [Console (ErrorAudio e)]).
Proof.
  destruct (best_effort_attempts (audio_attempt (spokenText text))
              (audio_request (spokenText text)) ErrorAudio None s
              (audio_attempt_trace _))
    as (k & log & Hk & Htr & Hlog).
  destruct (best_effort (withRetry (audio_attempt (spokenText text)) 3 2000)
              ErrorAudio None s) as (v & s' & Hrun & _).
  exists k, log, v, s'. rewrite Hrun in Htr. cbn [snd] in Htr.
  repeat split; [exact Hk | exact Hrun | exact Htr | exact Hlog].
Qed.

(** X7. The two image operations never throw, and a URL they return is a
    data URI, [data:<mimeType>;base64,<data>]; it is never the empty
    string, so the test [url &&] of their callers only ever filters
    [null]. *)
Theorem image_operations_return_data_uris (title description : jsstring)
    (instruction : jsstring) (previousInstructions : list jsstring)
    (s : state W) :
  (exists v s',
      generateRecipeVisual title description s = (Returned v, s')
      /\ (forall url, v = Some url ->
            truthy url = true
            /\ exists mimeType data, url = data_uri mimeType data))
  /\ (exists v s',
        generateStepVisual instruction previousInstructions s
        = (Returned v, s')
        /\ (forall url, v = Some url ->
              truthy url = true
              /\ exists mimeType data, url = data_uri mimeType data)).
Proof. split; apply best_effort_image. Qed.

(** X8. The action quoted in the prompt of a step image is the cleaned
    instruction when that has at most 150 code units, and otherwise its
    first 150 code units followed by three dots: never more than 153 code
    units. *)
Theorem shortInstruction_bound (cleanInstruction : jsstring) :
  (List.length (shortInstruction cleanInstruction) <= 153)%nat
  /\ ((List.length cleanInstruction <= 150)%nat ->
      shortInstruction cleanInstruction = cleanInstruction)
  /\ ((150 < List.length cleanInstruction)%nat ->
      shortInstruction cleanInstruction
      = firstn 150 cleanInstruction ++ str "..."
      /\ List.length (shortInstruction cleanInstruction) = 153%nat).
Proof.
  unfold shortInstruction, substring0.
  destruct (Z.ltb_spec 150 (Z.of_nat (List.length cleanInstruction)))
    as [Hlong | Hshort].
  - rewrite length_app, length_firstn. cbn [List.length str list_ascii_of_string].
    repeat split; lia.
  - repeat split; lia.
Qed.

Lemma join_snoc (sep : jsstring) (xs : list jsstring) (x : jsstring) :
  xs <> [] -> join sep (xs ++ [x]) = join sep xs ++ sep ++ x.
Proof.
  induction xs as [|y xs IH]; [congruence|]. intros _.
  destruct xs as [|z xs]; [reflexivity|].
  change (join sep ((y :: z :: xs) ++ [x]))
    with (y ++ sep ++ join sep ((z :: xs) ++ [x])).
  rewrite IH by discriminate.
  change (join sep (y :: z :: xs)) with (y ++ sep ++ join sep (z :: xs)).
  rewrite <- !app_assoc. reflexivity.
Qed.

(** X9. The context of the prompts accumulates. For the first step it is
    the start-of-recipe clause; with one earlier instruction it is the
    heading and that instruction, cleaned, and a full stop; and with every
    further instruction the context is the one before with "; " and the
    cleaned instruction put in before the full stop. Nothing of it is ever
    cut: only the current action is shortened. *)
Theorem contextStr_accumulates (previousInstructions : list jsstring)
    (instruction : jsstring) :
  let heading := str "PREVIOUS STEPS CONTEXT (The dish state so far): " in
  contextStr (map cleanText []) = str "Start of recipe."
  /\ contextStr (map cleanText [instruction])
     = heading ++ cleanText instruction ++ str "."
  /\ (previousInstructions <> [] ->
      exists body,
        contextStr (map cleanText previousInstructions) = body ++ str "."
        /\ contextStr (map cleanText (previousInstructions ++ [instruction]))
           = body ++ str "; " ++ cleanText instruction ++ str ".").
Proof.
  intros heading. split; [reflexivity|]. split; [reflexivity|].
  intros Hne.
  exists (heading ++ join (str "; ") (map cleanText previousInstructions)).
  unfold contextStr. rewrite map_app, !length_map, length_app.
  destruct previousInstructions as [|p ps]; [congruence|].
  cbn [List.length Nat.add Z.of_nat Z.ltb Z.compare].
  change (0 <? Z.of_nat (S ?n)) with true. cbv iota.
  split; [rewrite <- app_assoc; reflexivity|].
  cbn [map]. rewrite (join_snoc _ (cleanText p :: map cleanText ps))
    by discriminate.
  subst heading. rewrite <- !app_assoc. reflexivity.
Qed.

(** ** The outcomes of the audio and of the leftovers operation *)

(** X10. [generateStepAudio] on the first answer of the endpoint. When the
    first part of the first candidate carries inline data that is not the
    empty string and that [atob] decodes, the result is the object URL of a
    blob of type [audio/wav] that holds the 44 bytes of the header for
    24000 Hz and then the decoded bytes; the request carried the text with
    every annotation spoken as "quantity of name". When the answer has no
    such data, or the empty string, the result is [null] and [atob] is not
    consulted. When [atob] throws an error that is not taken for a rate
    limit, the result is [null] and the error is logged. In each case one
    request was sent. *)
Theorem generateStepAudio_outcomes (text : jsstring) (s : state W) :
  let req := audio_request (spokenText text) in
  let s_after w := mkState w (trace s ++ Called :: exchange_of req) in
  (forall r w1 d bin url w2,
      generateContent req (world s) = (Returned r, w1) ->
      first_audio r = Some d -> truthy d = true ->
      atob d = Returned bin ->
      createObjectURL
        (mkBlob (header 24000 (Z.of_nat (List.length bin)) ++ map charCode bin)
           (str "audio/wav")) w1 = (url, w2) ->
      generateStepAudio text s = (Returned (Some url), s_after w2))
  /\ (forall r w1,
        generateContent req (world s) = (Returned r, w1) ->
        truthy_opt (first_audio r) = false ->
        generateStepAudio text s = (Returned None, s_after w1))
  /\ (forall r w1 d e,
        generateContent req (world s) = (Returned r, w1) ->
        first_audio r = Some d -> truthy d = true ->
        atob d = Threw e -> isRateLimit e = Returned false ->
        generateStepAudio text s
        = (Returned None,
           mkState w1 (trace s ++ Called :: exchange_of req
                         ++ [Console (ErrorAudio e)]))).
Proof.
  intros req s_after. unfold generateStepAudio, withRetry, try_catch.
  change (Z.to_nat 3) with 3%nat. fold req. repeat apply conj.
  - intros r w1 d bin url w2 Hg Hd Ht Hb Hu.
    erewrite retry_loop_returned; [reflexivity|].
    rewrite audio_attempt_run. cbv zeta. cbn [called world trace].
    fold req. rewrite Hg, Hd, Ht, Hb, Hu. subst s_after. cbn.
    rewrite <- app_assoc. reflexivity.
  - intros r w1 Hg Hd.
    erewrite retry_loop_returned; [reflexivity|].
    rewrite audio_attempt_run. cbv zeta. cbn [called world trace].
    fold req. rewrite Hg. subst s_after. cbn. rewrite <- app_assoc.
    destruct (first_audio r) as [d|]; cbn in *; [rewrite Hd|]; reflexivity.
  - intros r w1 d e Hg Hd Ht Hb Hrl.
    erewrite retry_loop_rethrown;
      [ | rewrite audio_attempt_run; cbv zeta; cbn [called world trace];
          fold req; rewrite Hg, Hd, Ht, Hb; reflexivity
        | exact Hrl
        | reflexivity ].
    cbn. rewrite <- !app_assoc. reflexivity.
Qed.

(** X11. [generateLeftoverSuggestions] on the first answer of the endpoint:
    a body that is a JSON text is returned as [JSON.parse] gives it, of
    whatever shape; an empty body gives the empty array; in both cases one
    request was sent and nothing is logged. A body that is no JSON text
    gives the empty array too, after one request and with the error of
    [JSON.parse] logged, when that error is not taken for a rate limit;
    when it is, the request is sent again after the backoff, so that the
    call sends two or three requests; and when the error cannot be
    classified, the call gives the empty array after one request and logs
    the error of the classification. *)
Theorem generateLeftoverSuggestions_outcomes (ingredients : list jsstring)
    (currentTitle : jsstring) (s : state W) :
  let req := leftover_request ingredients currentTitle in
  let s_after w := mkState w (trace s ++ Called :: exchange_of req) in
  (forall r w1 t v,
      generateContent req (world s) = (Returned r, w1) ->
      text r = Some t -> truthy t = true -> JSON_parse t = Returned v ->
      generateLeftoverSuggestions ingredients currentTitle s
      = (Returned v, s_after w1))
  /\ (forall r w1,
        generateContent req (world s) = (Returned r, w1) ->
        truthy_opt (text r) = false ->
        generateLeftoverSuggestions ingredients currentTitle s
        = (Returned (JArray []), s_after w1))
  /\ (forall r w1 t e,
        generateContent req (world s) = (Returned r, w1) ->
        text r = Some t -> truthy t = true ->
        JSON_parse t = Threw e -> isRateLimit e = Returned false ->
        generateLeftoverSuggestions ingredients currentTitle s
        = (Returned (JArray []),
           mkState w1 (trace s ++ Called :: exchange_of req
                         ++ [Console (ErrorLeftovers e)])))
  /\ (forall r w1 t e,
        generateContent req (world s) = (Returned r, w1) ->
        text r = Some t -> truthy t = true ->
        JSON_parse t = Threw e -> isRateLimit e = Returned true ->
        exists k log,
          (1 <= k < 3)%nat
          /\ trace (snd (generateLeftoverSuggestions ingredients currentTitle s))
             = trace s ++ attempts req k ++ log
          /\ (log = [] \/ exists e', log = [Console (ErrorLeftovers e')]))
  /\ (forall r w1 t e typeError,
        generateContent req (world s) = (Returned r, w1) ->
        text r = Some t -> truthy t = true ->
        JSON_parse t = Threw e -> isRateLimit e = Threw typeError ->
        generateLeftoverSuggestions ingredients currentTitle s
        = (Returned (JArray []),
           mkState w1 (trace s ++ Called :: exchange_of req
                         ++ [Console (ErrorLeftovers typeError)]))).
Proof.
  intros req s_after.
  assert (Hrun : forall s0,
             leftover_attempt ingredients currentTitle s0
             = let s' w := mkState w (trace s0 ++ exchange_of req) in
               match generateContent req (world s0) with
               | (Returned r, w1) =>
                   match text r with
                   | Some t =>
                       if truthy t then (JSON_parse t, s' w1)
                       else (Returned (JArray []), s' w1)
                   | None => (Returned (JArray []), s' w1)
                   end
               | (Threw e, w1) => (Threw e, s' w1)
               end).
  { intros s0. unfold leftover_attempt, bind. rewrite call_api_run.
    fold (leftover_request ingredients currentTitle). fold req.
    destruct (generateContent req (world s0)) as [[r|e] w1]; [|reflexivity].
    cbn [fst snd]. destruct (text r) as [t|]; [destruct (truthy t)|];
      reflexivity. }
  pose proof (leftover_attempt_trace ingredients currentTitle) as Htrace.
  fold req in Htrace. clearbody req.
  unfold generateLeftoverSuggestions.
  assert (Hthrew : forall r w1 t e,
             generateContent req (world s) = (Returned r, w1) ->
             text r = Some t -> truthy t = true -> JSON_parse t = Threw e ->
             leftover_attempt ingredients currentTitle (called s)
             = (Threw e,
                mkState w1 (trace s ++ [Called] ++ exchange_of req))).
  { intros r w1 t e Hg Ht Htr He. rewrite Hrun. cbv zeta.
    cbn [called world trace]. rewrite Hg, Ht, Htr, He, <- app_assoc.
    reflexivity. }
  repeat apply conj.
  - intros r w1 t v Hg Ht Htr Hv. unfold withRetry, try_catch.
    change (Z.to_nat 3) with 3%nat.
    erewrite retry_loop_returned; [reflexivity|].
    rewrite Hrun. cbv zeta. cbn [called world trace].
    rewrite Hg, Ht, Htr, Hv. subst s_after. cbn. rewrite <- app_assoc.
    reflexivity.
  - intros r w1 Hg Hempty. unfold withRetry, try_catch.
    change (Z.to_nat 3) with 3%nat.
    erewrite retry_loop_returned; [reflexivity|].
    rewrite Hrun. cbv zeta. cbn [called world trace]. rewrite Hg.
    subst s_after. cbn. rewrite <- app_assoc.
    destruct (text r) as [t|]; cbn in *; [rewrite Hempty|]; reflexivity.
  - intros r w1 t e Hg Ht Htr He Hrl. unfold withRetry, try_catch.
    change (Z.to_nat 3) with 3%nat.
    rewrite (retry_loop_rethrown _ _ _ _ _ _ _ _ _
               (Hthrew _ _ _ _ Hg Ht Htr He) Hrl eq_refl).
    cbn. rewrite <- !app_assoc. reflexivity.
  - intros r w1 t e Hg Ht Htr He Hrl.
    destruct (best_effort_trace
                (withRetry (leftover_attempt ingredients currentTitle) 3 2000)
                ErrorLeftovers (JArray []) s) as (log & Hlog & Hshape).
    rewrite Hlog. unfold withRetry. change (Z.to_nat 3) with 3%nat.
    rewrite (retry_loop_backoff _ _ 3 _ _ 0 _ _ _
               (Hthrew _ _ _ _ Hg Ht Htr He) Hrl ltac:(lia)).
    destruct (retry_loop_schedule (leftover_attempt ingredients currentTitle)
                (exchange_of req) Htrace 3 2000 2 (0 + 1)
                (backed_off (2000 * 2 ^ 0)
                   (mkState w1 (trace s ++ [Called] ++ exchange_of req)))
                eq_refl ltac:(lia)) as (k & Hk & Hsched).
    exists (S k), log. split; [lia|]. split; [|exact Hshape].
    rewrite Hsched. unfold attempts, backed_off. cbn [trace backoffs app].
    rewrite <- ?app_assoc. cbn [app]. rewrite <- ?app_assoc. cbn [app].
    reflexivity.
  - intros r w1 t e typeError Hg Ht Htr He Hrl. unfold withRetry, try_catch.
    change (Z.to_nat 3) with 3%nat.
    rewrite (retry_loop_condition_throws _ _ _ _ _ _ _ _ _ _
               (Hthrew _ _ _ _ Hg Ht Htr He) Hrl).
    cbn. rewrite <- !app_assoc. reflexivity.
Qed.

End Operations.

Lemma shortInstruction_bound_witness :
  shortInstruction (repeat "a"%char 151)
  = firstn 150 (repeat "a"%char 151) ++ str "..."
  /\ List.length (shortInstruction (repeat "a"%char 151)) = 153%nat.
Proof.
  apply (proj2 (proj2 (shortInstruction_bound (repeat "a"%char 151)))).
  rewrite repeat_length. lia.
Defined.

Lemma contextStr_accumulates_witness :
  exists body,
    contextStr (map cleanText [str "Whisk the <<eggs|2>>."]) = body ++ str "."
    /\ contextStr (map cleanText [str "Whisk the <<eggs|2>>.";
                                  str "Fry in <<butter|10g>>."])
       = body ++ str "; " ++ str "Fry in butter." ++ str ".".
Proof.
  apply (proj2 (proj2 (contextStr_accumulates [str "Whisk the <<eggs|2>>."]
                         (str "Fry in <<butter|10g>>.")))).
  discriminate.
Defined.

Lemma generateStepAudio_outcomes_witness :
  @generateStepAudio nat speaking browser (str "Whisk the <<eggs|2>>.")
    (mkState 0%nat [])
  = (Returned (Some (str "blob:royal-recipes/audio")),
     mkState 2%nat
       (Called :: exchange_of (audio_request (str "Whisk the 2 of eggs.")))).
Proof.
  apply (proj1 (@generateStepAudio_outcomes nat speaking browser
                  (str "Whisk the <<eggs|2>>.") (mkState 0%nat []))
           (mkResponse None
              (Some [mkCandidate
                       (Some (mkContent
                                (Some [mkPart
                                         (Some (mkInlineData (str "audio/L16")
                                                  (str "AQID")))])))]))
           1%nat (str "AQID")
           [ascii_of_nat 1; ascii_of_nat 2; ascii_of_nat 3]
           (str "blob:royal-recipes/audio") 2%nat); reflexivity.
Defined.

Lemma generateLeftoverSuggestions_outcomes_witness :
  @generateLeftoverSuggestions nat (answering "[1, 2]") ecma404
    [str "eggs"] (str "Omelette") (mkState 0%nat [])
  = (Returned (JArray [JNumber (str "1"); JNumber (str "2")]),
     mkState 1%nat
       (Called
          :: exchange_of (leftover_request [str "eggs"] (str "Omelette")))).
Proof.
  apply (proj1 (@generateLeftoverSuggestions_outcomes nat (answering "[1, 2]")
                  ecma404 [str "eggs"] (str "Omelette") (mkState 0%nat []))
           (mkResponse (Some (str "[1, 2]")) None) 1%nat (str "[1, 2]"));
    reflexivity.
Defined.

Lemma throttle_throttling : @throttling nat throttle.
Proof. intros req w. eexists _, _. split; reflexivity. Defined.

Lemma rate_limited_out_witness :
  (exists e s',
      @generateRecipe nat throttle ecma404 (str "spicy chicken")
        (mkState 0%nat []) = (Threw e, s')
      /\ isRateLimit e = Returned true
      /\ trace s' = attempts (recipe_request (str "spicy chicken")) 2)
  /\ (exists e s',
        @generateStepVisual nat throttle (str "Whisk the <<eggs|2>>.") []
          (mkState 0%nat []) = (Returned None, s')
        /\ isRateLimit e = Returned true
        /\ trace s'
           = attempts
               (image_request (step_prompt (str "Whisk the <<eggs|2>>.") []))
               2
               ++ [Console (ErrorStepImage e)]).
Proof.
  pose proof (@rate_limited_out nat throttle ecma404 browser
                (str "spicy chicken") [] [] [] [] (str "Whisk the <<eggs|2>>.")
                [] [] (mkState 0%nat []) throttle_throttling)
    as (Hrecipe & _ & _ & Hstep & _).
  exact (conj Hrecipe Hstep).
Defined.

Lemma operations_schedule_witness :
  (requests (attempts (recipe_request (str "spicy chicken")) 2) <= 3)%nat
  /\ waited (attempts (recipe_request (str "spicy chicken")) 2) <= 6000.
Proof.
  apply (proj2 (proj2 (proj2 (proj2 (proj2
           (@operations_schedule nat throttle ecma404 browser
              [] [] [] [] [] [] [] [] (mkState 0%nat []))))))
           (recipe_request (str "spicy chicken")) 2%nat).
  lia.
Defined.

End OperationFacts.

(* ===================================================================== *)
(** * The header that [pcmToWav] writes *)
(* ===================================================================== *)

Module HeaderFacts.
Import Wav WavFacts.

Lemma byte_of_Z_of_byte (b : byte) : byte_of_Z (Z_of_byte b) = b.
Proof. destruct b; reflexivity. Qed.

Lemma setUint8_charCode (view : list byte) (offset : nat) (c : ascii) :
  setUint8 view offset (Z_of_byte (charCode c))
  = if (offset + 1 <=? List.length view)%nat
    then Some (<[offset := charCode c]> view)
    else None.
Proof. unfold setUint8. rewrite byte_of_Z_of_byte. reflexivity. Qed.

(** X12. [writeString] writes the character codes of the string from the
    offset on and leaves every other byte of the view as it was, when the
    string fits; when the string is not empty and does not fit, a
    [setUint8] throws a [RangeError]. *)
Theorem writeString_frame (string : jsstring) :
  forall (view : list byte) (offset : nat),
    ((offset + List.length string <= List.length view)%nat ->
     writeString view offset string
     = Some (firstn offset view ++ map charCode string
               ++ skipn (offset + List.length string) view))
    /\ (string <> [] ->
        (List.length view < offset + List.length string)%nat ->
        writeString view offset string = None).
Proof.
  induction string as [|c rest IH]; intros view offset.
  - split; [|congruence]. intros _.
    cbn [writeString List.length map app]. rewrite Nat.add_0_r, firstn_skipn.
    reflexivity.
  - cbn [writeString List.length map]. rewrite setUint8_charCode. split.
    + intros Hfit.
      replace (offset + 1 <=? List.length view)%nat with true
        by (symmetry; apply Nat.leb_le; lia).
      cbn [mbind option_bind].
      destruct (IH (<[offset := charCode c]> view) (S offset)) as [Hok _].
      rewrite Hok by (rewrite length_insert; lia).
      f_equal.
      rewrite (drop_insert_lt view (S offset + List.length rest) offset) by lia.
      rewrite (insert_take_drop view offset) by lia.
      rewrite firstn_app, length_take.
      replace (S offset - offset `min` List.length view)%nat with 1%nat by lia.
      rewrite (firstn_all2 (n := S offset)) by (rewrite length_take; lia).
      cbn [firstn]. rewrite <- app_assoc. cbn [app].
      replace (offset + S (List.length rest))%nat
        with (S offset + List.length rest)%nat by lia.
      reflexivity.
    + intros _ Hlong.
      destruct (Nat.leb_spec (offset + 1) (List.length view)) as [Hin | Hout];
        [|reflexivity].
      cbn [mbind option_bind].
      destruct (IH (<[offset := charCode c]> view) (S offset)) as [_ Hno].
      apply Hno; [|rewrite length_insert; lia].
      destruct rest; [cbn in Hlong; lia | discriminate].
Qed.

Lemma writeString_frame_witness :
  writeString (ArrayBuffer 8) 2 (str "WAVE")
  = Some (firstn 2 (ArrayBuffer 8) ++ map charCode (str "WAVE")
            ++ skipn (2 + List.length (str "WAVE")) (ArrayBuffer 8))
  /\ writeString (ArrayBuffer 8) 6 (str "WAVE") = None.
Proof.
  split.
  - apply (proj1 (writeString_frame (str "WAVE") (ArrayBuffer 8) 2)).
    cbn. lia.
  - apply (proj2 (writeString_frame (str "WAVE") (ArrayBuffer 8) 6));
      [discriminate | cbn; lia].
Defined.

(** The magic words and the constant fields of the header. *)
Lemma header_constants (sampleRate dataSize : Z) (payload : list byte) :
  let bytes := header sampleRate dataSize ++ payload in
  firstn 4 bytes = map charCode (str "RIFF")
  /\ firstn 8 (skipn 8 bytes) = map charCode (str "WAVEfmt ")
  /\ getUint32 bytes 16 = Some 16
  /\ getUint16 bytes 20 = Some 1
  /\ getUint16 bytes 22 = Some 1
  /\ firstn 4 (skipn 36 bytes) = map charCode (str "data")
  /\ getUint32 bytes 4 = Some ((36 + dataSize) mod 4294967296).
Proof.
  cbv zeta. unfold header. cbn [map str list_ascii_of_string app le16 le32].
  unfold getUint32, getUint16.
  cbn [lookup list_lookup mbind option_bind firstn skipn].
  rewrite !le32_value. repeat split; reflexivity.
Qed.

(** X13. The container that [pcmToWav] returns for a payload of fewer than
    2^32 - 36 bytes and a sample rate below 2^31 has a header that reads
    back as canonical mono 16-bit PCM: the words RIFF, WAVE, fmt and data
    at offsets 0, 8, 12 and 36; a RIFF size that is the length of the
    container less 8; a format chunk of 16 bytes with format tag 1 and 1
    channel; the sample rate as given; a byte rate of sample rate times
    block align; block align 2 and 16 bits per sample; and a data size that
    is the length of the payload. Its type is [audio/wav]. *)
Theorem pcmToWav_header_reads_back (pcmData : list byte) (sampleRate : Z) :
  Z.of_nat (List.length pcmData) < 4294967296 - 36 ->
  0 <= sampleRate < 2147483648 ->
  exists wav,
    pcmToWav pcmData sampleRate = Some wav
    /\ blob_type wav = str "audio/wav"
    /\ firstn 4 (blob_bytes wav) = map charCode (str "RIFF")
    /\ getUint32 (blob_bytes wav) 4
       = Some (Z.of_nat (List.length (blob_bytes wav)) - 8)
    /\ firstn 8 (skipn 8 (blob_bytes wav)) = map charCode (str "WAVEfmt ")
    /\ getUint32 (blob_bytes wav) 16 = Some 16
    /\ getUint16 (blob_bytes wav) 20 = Some 1
    /\ getUint16 (blob_bytes wav) 22 = Some 1
    /\ getUint32 (blob_bytes wav) 24 = Some sampleRate
    /\ getUint32 (blob_bytes wav) 28 = Some (sampleRate * 2)
    /\ getUint16 (blob_bytes wav) 32 = Some 2
    /\ getUint16 (blob_bytes wav) 34 = Some 16
    /\ firstn 4 (skipn 36 (blob_bytes wav)) = map charCode (str "data")
    /\ getUint32 (blob_bytes wav) 40 = Some (Z.of_nat (List.length pcmData)).
Proof.
  intros Hsize Hrate. eexists. split; [apply pcmToWav_layout|].
  cbn [blob_bytes blob_type].
  destruct (header_fields sampleRate (Z.of_nat (List.length pcmData)) pcmData)
    as (H24 & H28 & H32 & H34 & H40).
  destruct (header_constants sampleRate (Z.of_nat (List.length pcmData))
              pcmData) as (H0 & H8 & H16 & H20 & H22 & H36 & H4).
  repeat split; try assumption.
  - rewrite H4, length_app, header_length. f_equal.
    rewrite Z.mod_small by lia. lia.
  - rewrite H24. f_equal. apply Z.mod_small. lia.
  - rewrite H28. f_equal.
    replace (sampleRate * 1 * 16 / 8) with (sampleRate * 2)
      by (rewrite Z.mul_1_r; replace (sampleRate * 16) with (sampleRate * 2 * 8) by lia;
          rewrite Z.div_mul by lia; reflexivity).
    apply Z.mod_small. lia.
  - rewrite H40. f_equal. apply Z.mod_small. lia.
Qed.

Lemma pcmToWav_header_reads_back_witness :
  exists wav,
    pcmToWav [Byte.x01; Byte.x02; Byte.x03] 24000 = Some wav
    /\ blob_type wav = str "audio/wav"
    /\ firstn 4 (blob_bytes wav) = map charCode (str "RIFF")
    /\ getUint32 (blob_bytes wav) 4
       = Some (Z.of_nat (List.length (blob_bytes wav)) - 8)
    /\ firstn 8 (skipn 8 (blob_bytes wav)) = map charCode (str "WAVEfmt ")
    /\ getUint32 (blob_bytes wav) 16 = Some 16
    /\ getUint16 (blob_bytes wav) 20 = Some 1
    /\ getUint16 (blob_bytes wav) 22 = Some 1
    /\ getUint32 (blob_bytes wav) 24 = Some 24000
    /\ getUint32 (blob_bytes wav) 28 = Some (24000 * 2)
    /\ getUint16 (blob_bytes wav) 32 = Some 2
    /\ getUint16 (blob_bytes wav) 34 = Some 16
    /\ firstn 4 (skipn 36 (blob_bytes wav)) = map charCode (str "data")
    /\ getUint32 (blob_bytes wav) 40
       = Some (Z.of_nat (List.length [Byte.x01; Byte.x02; Byte.x03])).
Proof.
  apply (pcmToWav_header_reads_back [Byte.x01; Byte.x02; Byte.x03] 24000);
    cbn; lia.
Defined.

End HeaderFacts.

(* ===================================================================== *)
(** * The markup in any text *)
(* ===================================================================== *)

Module AnnotationFacts.
Import Regex Markup Annotations StringFacts RegexFacts MarkupFacts.

(** A match of the expression of [RichInstruction] is a prefix of the
    text, and its one capture is that prefix. *)
Lemma exec_render_prefix (s : jsstring) (n : nat) (caps : list jsstring) :
  exec re_render s = Some (n, caps) ->
  exists span rest,
    s = span ++ rest /\ caps = [span] /\ n = List.length span
    /\ (4 < List.length span)%nat.
Proof.
  intros He. destruct (startsWith s (str "<<")) eqn:Hs.
  - apply startsWith_split in Hs. rewrite Hs, exec_render_open in He.
    pose proof (cut_app ">" (skipn (List.length (str "<<")) s)) as Happ.
    destruct (cut ">" _) as [[|b body] rest]; [discriminate|].
    destruct (startsWith rest (str ">>")) eqn:Hr; [|discriminate].
    apply startsWith_split in Hr. injection He as <- <-.
    exists (str "<<" ++ (b :: body) ++ str ">>"),
      (skipn (List.length (str ">>")) rest).
    repeat split.
    + rewrite Hs at 1. rewrite <- Happ. cbn [fst snd]. rewrite Hr at 1.
      rewrite <- !app_assoc. reflexivity.
    + rewrite !length_app. cbn. lia.
    + rewrite !length_app. cbn. lia.
  - rewrite (exec_needs_open re_render s) in He by auto. discriminate.
Qed.

Lemma split_loop_concat (s : jsstring) :
  forall acc,
    concat (split_loop re_render acc s) = rev acc ++ s
    /\ Nat.odd (List.length (split_loop re_render acc s)) = true.
Proof.
  remember (List.length s) as len eqn:Hlen. revert s Hlen.
  induction len as [len IH] using lt_wf_ind. intros s Hlen acc.
  destruct s as [|c s'].
  - rewrite split_loop_equation_1. cbn. rewrite app_nil_r. auto.
  - destruct (exec re_render (c :: s')) as [[n caps]|] eqn:He.
    + destruct (exec_render_prefix _ _ _ He)
        as (span & rest & Hs & -> & -> & Hlong).
      destruct span as [|c0 span]; [cbn in Hlong; lia|].
      cbn [app] in Hs. injection Hs as <- ->. cbn [List.length] in He.
      rewrite (split_loop_hit _ _ _ _ _ _ He).
      rewrite skipn_app, skipn_all, Nat.sub_diag, skipn_O. cbn [app].
      destruct (IH (List.length rest)
                  ltac:(cbn in Hlen; rewrite length_app in Hlen; lia)
                  rest eq_refl []) as [Hcat Hodd].
      split.
      * cbn [concat app]. rewrite Hcat. reflexivity.
      * cbn [List.length app]. exact Hodd.
    + rewrite (split_loop_miss _ _ _ _ He).
      destruct (IH (List.length s') ltac:(cbn in Hlen; lia) s' eq_refl
                  (c :: acc)) as [Hcat Hodd].
      split; [|exact Hodd]. rewrite Hcat. cbn [rev].
      rewrite <- app_assoc. reflexivity.
Qed.

(** X14. For every text, the parts into which [RichInstruction] splits it,
    put together in order, are the text again: the split drops and adds no
    code unit. The parts are odd in number, a literal one at either end
    and between any two spans, so there is one token more of literal text
    than of spans. *)
Theorem RichInstruction_split_keeps_text (text : jsstring) :
  concat (split re_render text) = text
  /\ Nat.odd (List.length (RichInstruction text)) = true.
Proof.
  unfold RichInstruction. rewrite length_map.
  rewrite split_from_start by reflexivity.
  exact (split_loop_concat text []).
Qed.

(** What the two replacing expressions do at one position: both fail, or
    both match the same annotation. *)
Lemma exec_clean_speech (s : jsstring) :
  (exec re_clean s = None /\ exec re_speech s = None)
  \/ exists name quantity rest,
       s = annotation name quantity ++ rest
       /\ truthy name && lacks "|" name
          && truthy quantity && lacks ">" quantity = true
       /\ exec re_clean s
          = Some (List.length (annotation name quantity), [name])
       /\ exec re_speech s
          = Some (List.length (annotation name quantity), [name; quantity]).
Proof.
  destruct (startsWith s (str "<<")) eqn:Hs.
  - apply startsWith_split in Hs. rewrite Hs.
    rewrite exec_clean_open, exec_speech_open.
    set (t := skipn (List.length (str "<<")) s).
    pose proof (cut_app "|" t) as Happ.
    pose proof (cut_lacks "|" t) as Hl1.
    destruct (cut "|" t) as [[|n name] [|sep t2]] eqn:Hcut; auto.
    pose proof (cut_sep _ _ _ _ _ Hcut) as ->.
    pose proof (cut_app ">" t2) as Happ2.
    pose proof (cut_lacks ">" t2) as Hl2.
    destruct (cut ">" t2) as [[|q quantity] rest]; auto.
    destruct (startsWith rest (str ">>")) eqn:Hr; auto.
    apply startsWith_split in Hr. cbn [fst snd] in *.
    right. exists (n :: name), (q :: quantity),
      (skipn (List.length (str ">>")) rest).
    rewrite annotation_length. repeat split.
    + rewrite annotation_app. rewrite <- Happ, <- Happ2. rewrite Hr at 1.
      cbn [str list_ascii_of_string app]. reflexivity.
    + cbn [truthy andb]. rewrite Hl1, Hl2. reflexivity.
  - left. split; apply exec_needs_open; auto.
Qed.

(** X15. In every text, [cleanText] and the replacement of
    [generateStepAudio] find the same annotations: the text is a sequence
    of literal stretches and of annotations [<<name|quantity>>], each with
    a name that is not empty and holds no [|] and a quantity that is not
    empty and holds no [>], such that [cleanText] returns the text with
    each of these annotations replaced by its name, and the spoken text is
    the text with each replaced by "quantity of name". *)
Theorem replacements_agree (text : jsstring) :
  exists m : marked,
    source m = text /\ captured m = true
    /\ cleanText text = with_names m
    /\ spokenText text = with_phrases m.
Proof.
  unfold cleanText, spokenText, replace. rename text into s.
  remember (List.length s) as len eqn:Hlen. revert s Hlen.
  induction len as [len IH] using lt_wf_ind. intros s Hlen.
  destruct s as [|c s'].
  - exists ([], []). rewrite !replace_loop_end by reflexivity.
    repeat split.
  - destruct (exec_clean_speech (c :: s'))
      as [[Hc Hs] | (name & quantity & rest & Hsrc & Hok & Hc & Hs)].
    + destruct (IH (List.length s') ltac:(cbn in Hlen; lia) s' eq_refl)
        as ([lead items] & Hsrc & Hcap & Hclean & Hspeech).
      exists (c :: lead, items).
      rewrite (replace_loop_miss _ _ _ _ Hc), (replace_loop_miss _ _ _ _ Hs).
      rewrite Hclean, Hspeech. unfold source, with_names, with_phrases in *.
      cbn [fst snd app] in *. rewrite Hsrc. repeat split. exact Hcap.
    + destruct (IH (List.length rest)
                  ltac:(rewrite Hsrc, length_app, annotation_length in Hlen;
                        lia) rest eq_refl)
        as ([lead items] & Hrest & Hcap & Hclean & Hspeech).
      exists ([], (name, quantity, lead) :: items).
      rewrite Hsrc in Hc, Hs |- *.
      rewrite (replace_loop_span _ _ _ _ _ (annotation_not_nil _ _) Hc).
      rewrite (replace_loop_span _ _ _ _ _ (annotation_not_nil _ _) Hs).
      rewrite substitution_name, substitution_phrase, Hclean, Hspeech.
      unfold source, with_names, with_phrases, captured in *.
      cbn [fst snd app flat_map forallb] in *.
      rewrite Hok, Hcap, <- Hrest, <- !app_assoc. repeat split.
Qed.

End AnnotationFacts.

(* ===================================================================== *)
(** * The background image loop in any environment *)
(* ===================================================================== *)

Module LoopFacts.
Import Retry RetryFacts Json Client ClientFacts RecipeCard Schedule
  ScheduleFacts OperationFacts Samples MoreSamples.

(** ** The views of a trace, piece by piece *)

Lemma pacings_app (a b : list event) :
  pacings (a ++ b) = (pacings a + pacings b)%nat.
Proof. unfold pacings. rewrite List.filter_app, length_app. reflexivity. Qed.

Lemma images_set_app (a b : list event) :
  images_set (a ++ b) = images_set a ++ images_set b.
Proof.
  induction a as [|ev a IH]; [reflexivity|].
  destruct ev; cbn; rewrite ?IH; reflexivity.
Qed.

Lemma background_errors_app (a b : list event) :
  background_errors (a ++ b) = background_errors a ++ background_errors b.
Proof. apply List.filter_app. Qed.

Lemma backoffs_views (req : request) (baseDelay : Z) (k : nat) :
  forall i,
    requests (backoffs (exchange_of req) baseDelay i k) = k
    /\ pacings (backoffs (exchange_of req) baseDelay i k) = 0%nat
    /\ images_set (backoffs (exchange_of req) baseDelay i k) = []
    /\ background_errors (backoffs (exchange_of req) baseDelay i k) = [].
Proof.
  induction k as [|k IH]; intros i; [repeat split|].
  destruct (IH (i + 1)) as (Hr & Hp & Hi & Hb).
  cbn [backoffs exchange_of app].
  unfold requests, pacings, background_errors in *.
  cbn [List.filter is_request is_pacing is_background_error images_set
       List.length].
  rewrite Hr, Hp, Hi, Hb. repeat split.
Qed.

Lemma attempts_views (req : request) (k : nat) :
  requests (attempts req k) = S k
  /\ pacings (attempts req k) = 0%nat
  /\ images_set (attempts req k) = []
  /\ background_errors (attempts req k) = [].
Proof.
  unfold attempts.
  destruct (backoffs_views req 2000 k 0) as (Hr & Hp & Hi & Hb).
  rewrite requests_app, pacings_app, images_set_app, background_errors_app.
  rewrite Hr, Hp, Hi, Hb. repeat split. cbn. lia.
Qed.

Section Loop.
Context {W : Type} `{Endpoint W} `{Component W}.
Variable recipe : Recipe.
Variable stepImages : gmap nat jsstring.

(** One turn of the [try] block: it returns, and what it adds to the trace
    is the attempts of the request for the step, the line of the [catch]
    of [generateStepVisual] if that caught, and the merge of the image if
    one came back while the component was mounted. *)
Lemma request_step_image_run (i : nat) (step : RecipeStep) (s : state W) :
  steps recipe !! i = Some step ->
  exists k log imgs s',
    (k < 3)%nat
    /\ request_step_image recipe i s = (Returned tt, s')
    /\ trace s'
       = trace s
           ++ attempts (image_request (step_prompt_at recipe i)) k
           ++ log ++ imgs
    /\ (log = [] \/ exists e, log = [Console (ErrorStepImage e)])
    /\ (imgs = []
        \/ exists mimeType data,
             imgs = [StepImageSet i (data_uri mimeType data)]).
Proof.
  intros Hstep. unfold request_step_image, step_prompt_at, instructions_before.
  rewrite Hstep.
  destruct (image_operation_run
              (step_prompt (instruction step)
                 (map instruction (firstn i (steps recipe))))
              ErrorStepImage s)
    as (k & log & v & s1 & Hk & Hrun & Htr & Hlog & Hv).
  fold (generateStepVisual (instruction step)
          (map instruction (firstn i (steps recipe)))) in Hrun.
  exists k, log. unfold try_catch, bind. rewrite Hrun.
  destruct Hv as [-> | (m & d & ->)].
  1:{ exists [], s1.
      repeat split; [exact Hk | | exact Hlog | left; reflexivity].
      rewrite Htr, app_nil_r. reflexivity. }
  - destruct (isMounted (world s1)); cbn [andb].
    + rewrite data_uri_truthy. eexists _, _.
      repeat split; [exact Hk | | exact Hlog | right; eauto].
      cbn [emit trace]. rewrite Htr, <- !app_assoc. reflexivity.
    + exists [], s1.
      repeat split; [exact Hk | | exact Hlog | left; reflexivity].
      rewrite Htr, app_nil_r. reflexivity.
Qed.

(** The loop from index [i] on, in any environment. *)
Lemma image_loop_summary :
  forall n i s,
    (i + n)%nat = List.length (steps recipe) ->
    exists s' images,
      image_loop recipe stepImages n i s = (Returned tt, s')
      /\ background_errors (trace s') = background_errors (trace s)
      /\ (requests (trace s') <= requests (trace s) + 3 * n)%nat
      /\ (pacings (trace s') <= pacings (trace s) + (n - 1))%nat
      /\ images_set (trace s') = images_set (trace s) ++ images
      /\ ascending_from i images
      /\ Forall (fun '(j, url) =>
                   (j < List.length (steps recipe))%nat
                   /\ truthy_opt (stepImages !! j) = false
                   /\ exists mimeType data, url = data_uri mimeType data)
           images.
Proof.
  induction n as [|n IH]; intros i s Hlen.
  - exists s, []. cbn. rewrite app_nil_r. repeat split; try lia. constructor.
  - destruct (lookup_lt_is_Some_2 (steps recipe) i ltac:(lia)) as [step Hstep].
    cbn [image_loop].
    destruct (isMounted (world s)) eqn:Hm; cbn [negb].
    2:{ exists s, []. rewrite app_nil_r. repeat split; try lia. constructor. }
    destruct (truthy_opt (stepImages !! i)) eqn:Hc.
    + destruct (IH (S i) s ltac:(lia))
        as (s' & images & Hrun & Hbg & Hreq & Hpac & Himg & Hasc & Hall).
      exists s', images. repeat split; try assumption; try lia.
      destruct images as [|[j u] images]; [exact I|].
      cbn in Hasc |- *. split; [lia | tauto].
    + destruct (request_step_image_run i step s Hstep)
        as (k & log & imgs & s1 & Hk & Hrun1 & Htr1 & Hlog & Himgs).
      destruct (attempts_views (image_request (step_prompt_at recipe i)) k)
        as (Ar & Ap & Ai & Ab).
      assert (Hviews :
        background_errors (trace s1) = background_errors (trace s)
        /\ (requests (trace s1) <= requests (trace s) + 3)%nat
        /\ pacings (trace s1) = pacings (trace s)
        /\ images_set (trace s1) = images_set (trace s) ++ images_set imgs).
      { rewrite Htr1.
        rewrite !background_errors_app, !requests_app, !pacings_app,
          !images_set_app, Ar, Ap, Ai, Ab.
        destruct Hlog as [-> | [e ->]]; destruct Himgs as [-> | (m & d & ->)];
          cbn; rewrite ?app_nil_r; repeat split; lia. }
      destruct Hviews as (Hbg1 & Hreq1 & Hpac1 & Himg1).
      unfold bind at 1. rewrite Hrun1. unfold bind at 1.
      set (pace := isMounted (world s1)
                   && (Z.of_nat i
                       <? Z.of_nat (List.length (steps recipe)) - 1)).
      assert (Hpace : exists s2 timer,
                 (if pace
                  then (act (sleep 4000) ;;; emit (Paced 4000)) s1
                  else (Returned tt, s1)) = (Returned tt, s2)
                 /\ trace s2 = trace s1 ++ timer
                 /\ (timer = [] \/ timer = [Paced 4000] /\ (0 < n)%nat)).
      { destruct pace eqn:Hp.
        - eexists _, [Paced 4000]. repeat split. right. split; [reflexivity|].
          subst pace. apply andb_true_iff in Hp as [_ Hp].
          apply Z.ltb_lt in Hp. lia.
        - exists s1, []. rewrite app_nil_r. auto. }
      destruct Hpace as (s2 & timer & Hrun2 & Htr2 & Htimer).
      rewrite Hrun2.
      destruct (IH (S i) s2 ltac:(lia))
        as (s' & images & Hrun & Hbg & Hreq & Hpac & Himg & Hasc & Hall).
      exists s', (images_set imgs ++ images). rewrite Hrun.
      rewrite Hbg, Himg, Htr2.
      rewrite background_errors_app, images_set_app, Hbg1, Himg1.
      rewrite Htr2, requests_app in Hreq. rewrite Htr2, pacings_app in Hpac.
      assert (Htviews :
        background_errors timer = [] /\ images_set timer = []
        /\ requests timer = 0%nat /\ (pacings timer <= 1)%nat
        /\ (pacings timer = 1%nat -> (0 < n)%nat)).
      { destruct Htimer as [-> | [-> Hn]]; cbn; repeat split; lia. }
      destruct Htviews as (Tb & Ti & Tr & Tp & Tn).
      rewrite Tb, Ti, !app_nil_r, <- app_assoc.
      repeat split; try lia.
      * destruct Himgs as [-> | (m & d & ->)]; cbn [images_set app].
        -- destruct images as [|[j u] images]; [exact I|].
           cbn in Hasc |- *. split; [lia | tauto].
        -- cbn. split; [lia | exact Hasc].
      * apply Forall_app. split; [|exact Hall].
        destruct Himgs as [-> | (m & d & ->)]; cbn [images_set];
          constructor; [|constructor].
        repeat split; [lia | exact Hc | eauto].
Qed.

(** X16. In any environment, whatever the endpoint answers and whenever
    the component is unmounted, [generateAllStepImages] returns for a
    recipe of the declared type: its promise is never rejected. The [catch]
    of its loop never runs, since [generateStepVisual] catches what it
    throws and every index below [recipe.steps.length] has a step: no line
    "Failed to generate background visual" is written. *)
Theorem generateAllStepImages_never_throws (s : state W) :
  exists s',
    generateAllStepImages recipe stepImages s = (Returned tt, s')
    /\ background_errors (trace s') = background_errors (trace s).
Proof.
  destruct (image_loop_summary (List.length (steps recipe)) 0 s eq_refl)
    as (s' & images & Hrun & Hbg & _).
  exists s'. split; [exact Hrun | exact Hbg].
Qed.

(** X17. In any environment, the images that the loop merges into
    [stepImages] come in strictly increasing order of their index, so at
    most one for an index; each index is the index of a step, and one for
    which the loop saw no cached image; and each image is a data URI. *)
Theorem step_images_merged_in_order (s : state W) :
  exists images,
    images_set (trace (snd (generateAllStepImages recipe stepImages s)))
    = images_set (trace s) ++ images
    /\ ascending_from 0 images
    /\ Forall (fun '(j, url) =>
                 (j < List.length (steps recipe))%nat
                 /\ truthy_opt (stepImages !! j) = false
                 /\ exists mimeType data, url = data_uri mimeType data)
         images.
Proof.
  destruct (image_loop_summary (List.length (steps recipe)) 0 s eq_refl)
    as (s' & images & Hrun & _ & _ & _ & Himg & Hasc & Hall).
  exists images. unfold generateAllStepImages. rewrite Hrun.
  repeat split; assumption.
Qed.

(** X18. In any environment, the loop over [n] steps sends at most [3 n]
    requests and starts at most [n - 1] pacing timers. *)
Theorem generateAllStepImages_budget (s : state W) :
  let s' := snd (generateAllStepImages recipe stepImages s) in
  (requests (trace s')
   <= requests (trace s) + 3 * List.length (steps recipe))%nat
  /\ (pacings (trace s')
      <= pacings (trace s) + (List.length (steps recipe) - 1))%nat.
Proof.
  destruct (image_loop_summary (List.length (steps recipe)) 0 s eq_refl)
    as (s' & images & Hrun & _ & Hreq & Hpac & _).
  unfold generateAllStepImages. rewrite Hrun. split; assumption.
Qed.

End Loop.

(** The omelette while the endpoint is rate limited, and while the
    component is unmounted during the first request. *)
Example omelette_throttled :
  let tr := trace (snd (@generateAllStepImages nat throttle mounted omelette ∅
                          (mkState 0%nat []))) in
  requests tr = 6%nat /\ pacings tr = 1%nat /\ images_set tr = []
  /\ waited tr = 12000.
Proof. repeat split. Qed.

Example omelette_unmounted :
  images_set
    (trace (snd (@generateAllStepImages nat picturing (unmounted_after 1)
                   omelette ∅ (mkState 0%nat []))))
  = [].
Proof. reflexivity. Qed.

End LoopFacts.

(* ===================================================================== *)
(** * The components *)
(* ===================================================================== *)

Module AppFacts.
Import Retry RetryFacts Json Client ClientFacts Schedule ScheduleFacts
  OperationFacts Views App Samples MoreSamples.

Lemma trimStart_blank (s : jsstring) :
  Forall (fun c => isWhiteSpace c = true) s -> trimStart s = [].
Proof.
  induction 1 as [|c s Hc _ IH]; [reflexivity|]. cbn. rewrite Hc. exact IH.
Qed.

Lemma trimStart_keeps (s : jsstring) :
  (exists c, In c s /\ isWhiteSpace c = false) ->
  trimStart s <> [] /\ exists c, In c (trimStart s) /\ isWhiteSpace c = false.
Proof.
  intros (c & Hin & Hc). induction s as [|d s IH]; [destruct Hin|].
  cbn. destruct (isWhiteSpace d) eqn:Hd.
  - destruct Hin as [-> | Hin]; [congruence | exact (IH Hin)].
  - split; [discriminate|]. exists d. split; [left; reflexivity | exact Hd].
Qed.

Lemma trim_blank (s : jsstring) :
  Forall (fun c => isWhiteSpace c = true) s -> trim s = [].
Proof.
  intros Hs. unfold trim, trimEnd. rewrite (trimStart_blank s Hs).
  reflexivity.
Qed.

Lemma trim_truthy (s : jsstring) :
  (exists c, In c s /\ isWhiteSpace c = false) -> truthy (trim s) = true.
Proof.
  intros Hs. unfold trim, trimEnd.
  destruct (trimStart_keeps s Hs) as (_ & c & Hin & Hc).
  destruct (trimStart_keeps (rev (trimStart s))) as (Hne & _).
  { exists c. split; [apply in_rev; rewrite rev_involutive; exact Hin
                     | exact Hc]. }
  destruct (trimStart (rev (trimStart s))) as [|d t]; [congruence|].
  cbn [rev]. destruct (rev t); reflexivity.
Qed.

Section Handlers.
Context {W : Type} `{Endpoint W} `{JsonParser} `{DevConsole W}.

(** X19. A search for a query that is empty or all white space does
    nothing: no request is sent and the state stays as it is, the flag
    [hasSearched] included. *)
Theorem handleSearch_blank (st : AppState) (s : state W) :
  Forall (fun c => isWhiteSpace c = true) (query st) ->
  handleSearch st s = (Returned st, s).
Proof.
  intros Hblank. unfold handleSearch. rewrite (trim_blank _ Hblank).
  reflexivity.
Qed.

(** X20. A search for a query with a character that is no white space
    settles, whatever [generateRecipe] does: [handleSearch] never throws,
    the query is sent as typed, untrimmed, in one to three attempts, and
    at the end [loading] is off and [hasSearched] on. When
    [generateRecipe] returned, whatever it returned is the recipe and
    there is no error; when it threw, the error goes to the console, the
    recipe is [null] and the message of apology is the error. *)
Theorem handleSearch_settles (st : AppState) (s : state W) :
  (exists c, In c (query st) /\ isWhiteSpace c = false) ->
  exists st' s' k,
    handleSearch st s = (Returned st', s')
    /\ (k < 3)%nat
    /\ trace s' = trace s ++ attempts (recipe_request (query st)) k
    /\ query st' = query st /\ loading st' = false /\ hasSearched st' = true
    /\ ((generateRecipe (query st) s = (Returned (recipe st'), s')
         /\ error st' = None)
        \/ exists e s1,
             generateRecipe (query st) s = (Threw e, s1)
             /\ recipe st' = JNull /\ error st' = Some search_failed
             /\ world s' = console_write (SearchError e) (world s1)).
Proof.
  intros Hq. unfold handleSearch. rewrite (trim_truthy _ Hq). cbn [negb].
  cbn [query recipe loading error hasSearched].
  destruct (withRetry_attempts (recipe_attempt (query st))
              (recipe_request (query st)) s (recipe_attempt_trace _))
    as (k & Hk & Htr).
  fold (generateRecipe (query st)) in Htr.
  unfold bind at 1. unfold try_catch. unfold bind at 1.
  destruct (generateRecipe (query st) s) as [[v|e] s1] eqn:Hrun;
    cbn [snd] in Htr.
  - eexists _, s1, k. split; [reflexivity|].
    cbn [query recipe loading error hasSearched]. repeat split; try assumption.
    left. split; reflexivity.
  - eexists _, _, k. split; [reflexivity|].
    cbn [query recipe loading error hasSearched world trace act bind ret].
    repeat split; try assumption.
    right. exists e, s1. repeat split.
Qed.

End Handlers.

Lemma handleSearch_blank_witness :
  @handleSearch nat (answering "{}") ecma404 silent_console
    (mkApp (str "  ") JNull false None false) (mkState 0%nat [])
  = (Returned (mkApp (str "  ") JNull false None false), mkState 0%nat []).
Proof.
  apply (@handleSearch_blank nat (answering "{}") ecma404 silent_console
           (mkApp (str "  ") JNull false None false) (mkState 0%nat [])).
  repeat constructor.
Defined.

Lemma handleSearch_settles_witness :
  exists st' s' k,
    @handleSearch nat (answering "{}") ecma404 silent_console
      (mkApp (str " Vegan curry") JNull false None false) (mkState 0%nat [])
    = (Returned st', s')
    /\ (k < 3)%nat
    /\ trace s' = attempts (recipe_request (str " Vegan curry")) k
    /\ query st' = str " Vegan curry" /\ loading st' = false
    /\ hasSearched st' = true
    /\ ((@generateRecipe nat (answering "{}") ecma404 (str " Vegan curry")
           (mkState 0%nat []) = (Returned (recipe st'), s')
         /\ error st' = None)
        \/ exists e s1,
             @generateRecipe nat (answering "{}") ecma404 (str " Vegan curry")
               (mkState 0%nat []) = (Threw e, s1)
             /\ recipe st' = JNull /\ error st' = Some search_failed
             /\ world s' = console_write (SearchError e) (world s1)).
Proof.
  apply (@handleSearch_settles nat (answering "{}") ecma404 silent_console
           (mkApp (str " Vegan curry") JNull false None false)
           (mkState 0%nat [])).
  exists "V"%char. split; [right; left; reflexivity | reflexivity].
Defined.

End AppFacts.

Module ViewFacts.
Import Retry RetryFacts Markup Json Client ClientFacts RecipeCard Schedule
  ScheduleFacts OperationFacts Views Samples MoreSamples.

Section Dish.
Import DishVisualizer.
Context {W : Type} `{Endpoint W} `{Component W}.

(** X21. The effect of [DishVisualizer]. For an empty title it does
    nothing. For any other title it settles without throwing after one to
    three attempts of the request for the picture of the dish. If its flag
    [isMounted] is still set then (no cleanup has run), [loading] is off
    and the render shows one block: the picture, a data URI, when one came
    back, and otherwise the placeholder with the first letter of the
    title; never the spinner. If the flag was cleared meanwhile, no state
    is set after the request. *)
Theorem image_effect_settles (title description : jsstring) (st : DishState)
    (s : state W) :
  (truthy title = false ->
   image_effect title description st s = (Returned st, s))
  /\ (truthy title = true ->
      exists st' s' k log,
        image_effect title description st s = (Returned st', s')
        /\ (k < 3)%nat
        /\ trace s'
           = trace s
               ++ attempts (image_request (visual_prompt title description)) k
               ++ log
        /\ (log = [] \/ exists e, log = [Console (ErrorImage e)])
        /\ (isMounted (world s') = true ->
            loading st' = false
            /\ (render title st' = [Placeholder (firstn 1 title)]
                \/ exists mimeType data,
                     render title st'
                     = [Picture (data_uri mimeType data) title]))
        /\ (isMounted (world s') = false -> st' = mkDish None true)).
Proof.
  unfold image_effect. split; intros Ht; rewrite Ht; [reflexivity|].
  destruct (image_operation_run (visual_prompt title description) ErrorImage s)
    as (k & log & v & s1 & Hk & Hrun & Htr & Hlog & Hv).
  fold (generateRecipeVisual title description) in Hrun.
  unfold fetchImage, bind, mounted_now, ret. rewrite Hrun.
  cbn [imageUrl loading].
  eexists _, s1, k, log. split; [reflexivity|].
  split; [exact Hk|]. split; [exact Htr|]. split; [exact Hlog|].
  split; intros Hm; rewrite Hm; [|reflexivity].
  cbn [andb]. destruct Hv as [-> | (m & d & ->)].
  - split; [reflexivity | left; reflexivity].
  - split; [reflexivity | right; exists m, d; reflexivity].
Qed.

End Dish.

Section Leftovers.
Import LeftoverSuggestions.
Context {W : Type} `{Endpoint W} `{JsonParser} `{Component W} `{DevConsole W}.

(** X22. The effect of [LeftoverSuggestions]. Without ingredients it does
    nothing. With ingredients it settles without throwing, and its own
    [catch] never runs, since [generateLeftoverSuggestions] does not
    throw: the world is left as that call left it. If the flag [isMounted]
    is still set then (no cleanup has run), the suggestions are what the
    call returned and [loading] is off; if not, no state is set after the
    call. *)
Theorem suggestions_effect_settles (ingredients : list jsstring)
    (recipeTitle : jsstring) (st : LeftoverState) (s : state W) :
  (ingredients = [] ->
   suggestions_effect ingredients recipeTitle st s = (Returned st, s))
  /\ (ingredients <> [] ->
      exists v s1,
        generateLeftoverSuggestions ingredients recipeTitle s
        = (Returned v, s1)
        /\ suggestions_effect ingredients recipeTitle st s
           = (Returned (if isMounted (world s1)
                        then mkLeftovers v false
                        else mkLeftovers (suggestions st) true), s1)).
Proof.
  unfold suggestions_effect. split.
  - intros ->. reflexivity.
  - intros Hne. destruct ingredients as [|x xs]; [congruence|].
    replace (0 <? Z.of_nat (List.length (x :: xs))) with true
      by (symmetry; apply Z.ltb_lt; cbn [List.length]; lia).
    destruct (best_effort
                (withRetry (leftover_attempt (x :: xs) recipeTitle) 3 2000)
                ErrorLeftovers (JArray []) s) as (v & s1 & Hrun & _).
    fold (generateLeftoverSuggestions (x :: xs) recipeTitle) in Hrun.
    exists v, s1. split; [exact Hrun|].
    unfold fetchSuggestions, bind, try_catch, mounted_now, ret.
    unfold bind. rewrite Hrun. cbn [suggestions loading].
    destruct (isMounted (world s1)); reflexivity.
Qed.

End Leftovers.

Lemma image_effect_settles_witness :
  exists st' s' k log,
    @DishVisualizer.image_effect nat picturing mounted (str "Omelette")
      (str "A plain omelette.") (DishVisualizer.mkDish None false)
      (mkState 0%nat [])
    = (Returned st', s')
    /\ (k < 3)%nat
    /\ trace s'
       = attempts
           (image_request
              (visual_prompt (str "Omelette") (str "A plain omelette.")))
           k
           ++ log
    /\ (log = [] \/ exists e, log = [Console (ErrorImage e)])
    /\ (@isMounted nat mounted (world s') = true ->
        DishVisualizer.loading st' = false
        /\ (DishVisualizer.render (str "Omelette") st'
            = [DishVisualizer.Placeholder (firstn 1 (str "Omelette"))]
            \/ exists mimeType data,
                 DishVisualizer.render (str "Omelette") st'
                 = [DishVisualizer.Picture (data_uri mimeType data)
                      (str "Omelette")]))
    /\ (@isMounted nat mounted (world s') = false ->
        st' = DishVisualizer.mkDish None true).
Proof.
  apply (proj2 (@image_effect_settles nat picturing mounted (str "Omelette")
                  (str "A plain omelette.") (DishVisualizer.mkDish None false)
                  (mkState 0%nat []))).
  reflexivity.
Defined.

Lemma suggestions_effect_settles_witness :
  exists v s1,
    @generateLeftoverSuggestions nat (answering "[1, 2]") ecma404
      [str "2 eggs"] (str "Omelette") (mkState 0%nat [])
    = (Returned v, s1)
    /\ @LeftoverSuggestions.suggestions_effect nat (answering "[1, 2]")
         ecma404 mounted silent_console [str "2 eggs"] (str "Omelette")
         (LeftoverSuggestions.mkLeftovers (JArray []) false)
         (mkState 0%nat [])
       = (Returned (if @isMounted nat mounted (world s1)
                    then LeftoverSuggestions.mkLeftovers v false
                    else LeftoverSuggestions.mkLeftovers (JArray []) true),
          s1).
Proof.
  apply (proj2 (@suggestions_effect_settles nat (answering "[1, 2]") ecma404
                  mounted silent_console [str "2 eggs"] (str "Omelette")
                  (LeftoverSuggestions.mkLeftovers (JArray []) false)
                  (mkState 0%nat []))).
  discriminate.
Defined.

End ViewFacts.

Module CookModeFacts.
Import Retry RetryFacts Markup Json Client ClientFacts RecipeCard Schedule
  ScheduleFacts OperationFacts Views CookMode ViewFacts Samples MoreSamples.

Lemma at_index_Some {A : Type} (xs : list A) (i : Z) (x : A) :
  at_index xs i = Some x ->
  0 <= i < Z.of_nat (List.length xs) /\ xs !! Z.to_nat i = Some x
  /\ slice0 xs i = firstn (Z.to_nat i) xs.
Proof.
  unfold at_index, slice0. destruct (Z.ltb_spec i 0) as [Hneg | Hpos];
    [discriminate|].
  intros Hx. pose proof (lookup_lt_Some _ _ _ Hx). repeat split; try lia.
  exact Hx.
Qed.

Lemma at_index_in_range {A : Type} (xs : list A) (i : Z) :
  0 <= i < Z.of_nat (List.length xs) -> is_Some (at_index xs i).
Proof.
  intros Hi. unfold at_index. destruct (Z.ltb_spec i 0); [lia|].
  apply lookup_lt_is_Some_2. lia.
Qed.

(** The request of a step is the one that [RecipeCard] sends for it. *)
Lemma step_prompt_at_index (recipe : Recipe) (i : Z) (step : RecipeStep) :
  at_index (steps recipe) i = Some step ->
  step_prompt (instruction step) (map instruction (slice0 (steps recipe) i))
  = step_prompt_at recipe (Z.to_nat i).
Proof.
  intros Hi. destruct (at_index_Some _ _ _ Hi) as (_ & Hstep & ->).
  unfold step_prompt_at, instructions_before. rewrite Hstep. reflexivity.
Qed.

(** X23. In [CookMode], from an index that is the index of a step,
    whatever sequence of Next and Previous is pressed, each press handled
    in the render after the one before, the index stays the index of a
    step, so [currentStep] is never [undefined]; Next on the last step and
    Previous on the first change nothing, and no press touches the
    images. *)
Theorem navigation_stays_in_range (steps : list RecipeStep)
    (presses : list press) :
  forall st : CookState,
    0 <= currentIndex st < Z.of_nat (List.length steps) ->
    let st' := fold_left (pressed steps) presses st in
    0 <= currentIndex st' < Z.of_nat (List.length steps)
    /\ is_Some (at_index steps (currentIndex st'))
    /\ localImages st' = localImages st
    /\ loadingImage st' = loadingImage st.
Proof.
  induction presses as [|p presses IH]; intros st Hst; cbn [fold_left].
  - repeat split; try lia. apply at_index_in_range, Hst.
  - assert (Hp : 0 <= currentIndex (pressed steps st p)
                      < Z.of_nat (List.length steps)
                 /\ localImages (pressed steps st p) = localImages st
                 /\ loadingImage (pressed steps st p) = loadingImage st).
    { destruct p; cbn [pressed]; unfold handleNext, handlePrev, isLastStep,
        isFirstStep.
      - destruct (Z.eqb_spec (currentIndex st)
                    (Z.of_nat (List.length steps) - 1)); cbn; repeat split; lia.
      - destruct (Z.eqb_spec (currentIndex st) 0); cbn; repeat split; lia. }
    destruct Hp as (Hr & Hl & Hb).
    destruct (IH (pressed steps st p) Hr) as (Hr' & Hs' & Hl' & Hb').
    repeat split; try lia; try assumption; congruence.
Qed.

Lemma navigation_stays_in_range_witness :
  let st' := fold_left (pressed (steps omelette)) [Next; Next; Next; Prev]
               (mkCook 0 ∅ false) in
  0 <= currentIndex st' < Z.of_nat (List.length (steps omelette))
  /\ is_Some (at_index (steps omelette) (currentIndex st'))
  /\ localImages st' = ∅
  /\ loadingImage st' = false.
Proof.
  apply (navigation_stays_in_range (steps omelette) [Next; Next; Next; Prev]
           (mkCook 0 ∅ false)).
  cbn. lia.
Defined.

Section Effect.
Context {W : Type} `{Endpoint W} `{Component W}.

(** X24. The fallback of [CookMode]. When an image is known for the
    current step, preloaded or local, [loadImages] sends nothing and
    sets nothing. When none is known, it sends, in one to three attempts,
    the very request that the loop of [RecipeCard] sends for that step,
    with the instructions of all the steps before it as context, and it
    does not throw. If its flag [isMounted] is still set then (no cleanup
    has run), [loadingImage] is off and the local images are as before or
    hold, at the current index, the data URI that came back; if the flag
    was cleared meanwhile, nothing is set after the request. *)
Theorem loadImages_settles (recipe : Recipe)
    (preloadedImages : gmap nat jsstring) (currentStep : RecipeStep)
    (st : CookState) (s : state W) :
  (truthy_opt (images preloadedImages st (currentIndex st)) = true ->
   loadImages (steps recipe) preloadedImages currentStep st s
   = (Returned st, s))
  /\ (truthy_opt (images preloadedImages st (currentIndex st)) = false ->
      at_index (steps recipe) (currentIndex st) = Some currentStep ->
      exists st' s' k log,
        loadImages (steps recipe) preloadedImages currentStep st s
        = (Returned st', s')
        /\ (k < 3)%nat
        /\ trace s'
           = trace s
               ++ attempts
                    (image_request
                       (step_prompt_at recipe (Z.to_nat (currentIndex st)))) k
               ++ log
        /\ (log = [] \/ exists e, log = [Console (ErrorStepImage e)])
        /\ currentIndex st' = currentIndex st
        /\ (isMounted (world s') = true ->
            loadingImage st' = false
            /\ (localImages st' = localImages st
                \/ exists mimeType data,
                     localImages st'
                     = <[currentIndex st := data_uri mimeType data]>
                         (localImages st)))
        /\ (isMounted (world s') = false ->
            st' = mkCook (currentIndex st) (localImages st) true)).
Proof.
  unfold loadImages. split.
  - intros ->. reflexivity.
  - intros -> Hstep. cbn [negb currentIndex localImages loadingImage].
    destruct (image_operation_run
                (step_prompt (instruction currentStep)
                   (map instruction (slice0 (steps recipe) (currentIndex st))))
                ErrorStepImage s)
      as (k & log & v & s1 & Hk & Hrun & Htr & Hlog & Hv).
    fold (generateStepVisual (instruction currentStep)
            (map instruction (slice0 (steps recipe) (currentIndex st))))
      in Hrun.
    rewrite (step_prompt_at_index recipe _ _ Hstep) in Htr.
    unfold bind, mounted_now, ret. rewrite Hrun.
    eexists _, s1, k, log. split; [reflexivity|].
    split; [exact Hk|]. split; [exact Htr|]. split; [exact Hlog|].
    split; [destruct (isMounted (world s1) && truthy_opt v),
              (isMounted (world s1)); reflexivity|].
    split; intros Hm; rewrite Hm; [|reflexivity].
    cbn [andb]. destruct Hv as [-> | (m & d & ->)].
    + split; [reflexivity | left; reflexivity].
    + split; [reflexivity | right; exists m, d; reflexivity].
Qed.

End Effect.

Lemma loadImages_settles_witness :
  exists st' s' k log,
    @loadImages nat picturing mounted (steps omelette) ∅
      (mkStep (str "Fry in <<butter|10g>>.") COOK None) (mkCook 1 ∅ false)
      (mkState 0%nat [])
    = (Returned st', s')
    /\ (k < 3)%nat
    /\ trace s'
       = attempts (image_request (step_prompt_at omelette 1)) k ++ log
    /\ (log = [] \/ exists e, log = [Console (ErrorStepImage e)])
    /\ currentIndex st' = 1
    /\ (@isMounted nat mounted (world s') = true ->
        loadingImage st' = false
        /\ (localImages st' = ∅
            \/ exists mimeType data,
                 localImages st' = <[1 := data_uri mimeType data]> ∅))
    /\ (@isMounted nat mounted (world s') = false -> st' = mkCook 1 ∅ true).
Proof.
  apply (proj2 (@loadImages_settles nat picturing mounted omelette ∅
                  (mkStep (str "Fry in <<butter|10g>>.") COOK None)
                  (mkCook 1 ∅ false) (mkState 0%nat [])));
    reflexivity.
Defined.

End CookModeFacts.

Module TutorialFacts.
Import Retry RetryFacts Markup Json Client ClientFacts RecipeCard Schedule
  ScheduleFacts OperationFacts Views TutorialPlayer ViewFacts CookModeFacts
  Samples MoreSamples.

Section Effects.
Context {W : Type} `{Endpoint W} `{Browser W} `{Component W}
  `{DevConsole W} `{AudioElement W}.

(** X25. The effect of [TutorialPlayer] that loads a step, run on the
    index of a step: it settles without throwing. When an image is known
    for the step, preloaded or in the local cache, no image is requested;
    when none is known, the request that the loop of [RecipeCard] sends for
    that step is sent, in one to three attempts. Only when that is settled
    is the audio requested, in one to three attempts, for the instruction
    with every annotation spoken as "quantity of name". If the effect is
    still active at the end, [isLoading] is off; if not, it set nothing
    after the audio came back. The index, the cache and [isPlaying] stay
    as they were. *)
Theorem content_effect_settles (recipe : Recipe)
    (preloadedImages : gmap nat jsstring) (st : TutorialState)
    (step : RecipeStep) (s : state W) :
  at_index (steps recipe) (currentIndex st) = Some step ->
  let cached :=
    or_else (preloaded_at preloadedImages (currentIndex st))
      (localImageCache st !! currentIndex st) in
  exists st' s' fetch k log,
    content_effect (steps recipe) preloadedImages st s = (Returned st', s')
    /\ (k < 3)%nat
    /\ trace s'
       = trace s ++ fetch
           ++ attempts (audio_request (spokenText (instruction step))) k
           ++ log
    /\ (log = [] \/ exists e, log = [Console (ErrorAudio e)])
    /\ (truthy_opt cached = true -> fetch = [])
    /\ (truthy_opt cached = false ->
        exists k1 log1,
          (k1 < 3)%nat
          /\ fetch
             = attempts
                 (image_request
                    (step_prompt_at recipe (Z.to_nat (currentIndex st)))) k1
                 ++ log1
          /\ (log1 = [] \/ exists e, log1 = [Console (ErrorStepImage e)]))
    /\ (isMounted (world s') = true -> isLoading st' = false)
    /\ (isMounted (world s') = false ->
        isLoading st' = true /\ audioUrl st' = None)
    /\ currentIndex st' = currentIndex st
    /\ localImageCache st' = localImageCache st
    /\ isPlaying st' = isPlaying st.
Proof.
  intros Hstep cached. unfold content_effect.
  cbn [currentIndex audioUrl imageUrl isPlaying isLoading localImageCache].
  rewrite Hstep. fold cached. cbn [instruction_of].
  unfold bind at 1. unfold act at 1.
  set (s0 := mkState (pause (world s)) (trace s)).
  assert (Himage : exists fetch url s1,
             (if negb (truthy_opt cached)
              then
                bind (ret (instruction step))
                  (fun text =>
                     bind (generateStepVisual text
                             (map instruction
                                (slice0 (steps recipe) (currentIndex st))))
                       (fun fetched =>
                          ret (default [] (or_else fetched (Some [])))))
              else ret (default [] cached)) s0
             = (Returned url, s1)
             /\ trace s1 = trace s ++ fetch
             /\ (truthy_opt cached = true -> fetch = [])
             /\ (truthy_opt cached = false ->
                 exists k1 log1,
                   (k1 < 3)%nat
                   /\ fetch
                      = attempts
                          (image_request
                             (step_prompt_at recipe
                                (Z.to_nat (currentIndex st)))) k1
                          ++ log1
                   /\ (log1 = []
                       \/ exists e, log1 = [Console (ErrorStepImage e)]))).
  { destruct (truthy_opt cached) eqn:Hc; cbn [negb].
    - exists [], (default [] cached), s0. rewrite app_nil_r.
      repeat split; [discriminate].
    - destruct (image_operation_run
                  (step_prompt (instruction step)
                     (map instruction
                        (slice0 (steps recipe) (currentIndex st))))
                  ErrorStepImage s0)
        as (k1 & log1 & v & s1 & Hk1 & Hrun1 & Htr1 & Hlog1 & _).
      fold (generateStepVisual (instruction step)
              (map instruction (slice0 (steps recipe) (currentIndex st))))
        in Hrun1.
      rewrite (step_prompt_at_index recipe _ _ Hstep) in Htr1.
      unfold bind, ret. rewrite Hrun1.
      eexists _, _, s1. split; [reflexivity|].
      split; [exact Htr1|]. split; [discriminate|].
      intros _. exists k1, log1. auto. }
  destruct Himage as (fetch & url & s1 & Hrun1 & Htr1 & Hhit & Hmiss).
  unfold bind at 1. rewrite Hrun1.
  unfold bind at 1. unfold mounted_now at 1.
  unfold bind at 1. unfold ret at 1.
  destruct (audio_operation_run (instruction step) s1)
    as (k & log & audio & s2 & Hk & Hrun2 & Htr2 & Hlog).
  unfold bind at 1. rewrite Hrun2. unfold bind, mounted_now, ret.
  eexists _, s2, fetch, k, log. split; [reflexivity|].
  split; [exact Hk|].
  split; [rewrite Htr2, Htr1, <- !app_assoc; reflexivity|].
  split; [exact Hlog|]. split; [exact Hhit|]. split; [exact Hmiss|].
  split; [intros Hm; rewrite Hm; reflexivity|].
  split; [intros Hm; rewrite Hm; destruct (isMounted (world s1)); auto|].
  destruct (isMounted (world s2)), (isMounted (world s1)); auto.
Qed.

(** X26. The preloading of the next image in [TutorialPlayer] never
    throws. On the last step it does nothing, and nothing when an image
    is known for the next step. Otherwise it sends, in one to three
    attempts, the request that the loop of [RecipeCard] sends for the next
    step, with the instructions of all the steps up to the current one as
    context; the only state it may set is the local cache at the next
    index, to the data URI that came back. *)
Theorem preloadNext_settles (recipe : Recipe)
    (preloadedImages : gmap nat jsstring) (st : TutorialState)
    (s : state W) :
  let nextIndex := currentIndex st + 1 in
  (exists st' s',
      preloadNext (steps recipe) preloadedImages st s = (Returned st', s'))
  /\ (Z.of_nat (List.length (steps recipe)) <= nextIndex ->
      preloadNext (steps recipe) preloadedImages st s = (Returned st, s))
  /\ (truthy_opt (preloaded_at preloadedImages nextIndex)
      || truthy_opt (localImageCache st !! nextIndex) = true ->
      preloadNext (steps recipe) preloadedImages st s = (Returned st, s))
  /\ (0 <= nextIndex < Z.of_nat (List.length (steps recipe)) ->
      truthy_opt (preloaded_at preloadedImages nextIndex)
      || truthy_opt (localImageCache st !! nextIndex) = false ->
      exists st' s' k log,
        preloadNext (steps recipe) preloadedImages st s = (Returned st', s')
        /\ (k < 3)%nat
        /\ trace s'
           = trace s
               ++ attempts
                    (image_request
                       (step_prompt_at recipe (Z.to_nat nextIndex))) k
               ++ log
        /\ (log = [] \/ exists e, log = [Console (ErrorStepImage e)])
        /\ (st' = st
            \/ exists mimeType data,
                 st' = mkTutorial (currentIndex st) (audioUrl st)
                         (imageUrl st) (isPlaying st) (isLoading st)
                         (<[nextIndex := data_uri mimeType data]>
                            (localImageCache st)))).
Proof.
  intros nextIndex.
  assert (Hfetch : forall step,
             at_index (steps recipe) nextIndex = Some step ->
             exists st' s' k log,
               bind (generateStepVisual (instruction step)
                       (map instruction (slice0 (steps recipe) nextIndex)))
                 (fun url =>
                    bind mounted_now
                      (fun mounted =>
                         ret (if truthy_opt url && mounted
                              then mkTutorial (currentIndex st) (audioUrl st)
                                     (imageUrl st) (isPlaying st)
                                     (isLoading st)
                                     (<[nextIndex := default [] url]>
                                        (localImageCache st))
                              else st))) s
               = (Returned st', s')
               /\ (k < 3)%nat
               /\ trace s'
                  = trace s
                      ++ attempts
                           (image_request
                              (step_prompt_at recipe (Z.to_nat nextIndex))) k
                      ++ log
               /\ (log = [] \/ exists e, log = [Console (ErrorStepImage e)])
               /\ (st' = st
                   \/ exists mimeType data,
                        st' = mkTutorial (currentIndex st) (audioUrl st)
                                (imageUrl st) (isPlaying st) (isLoading st)
                                (<[nextIndex := data_uri mimeType data]>
                                   (localImageCache st)))).
  { intros step Hstep.
    destruct (image_operation_run
                (step_prompt (instruction step)
                   (map instruction (slice0 (steps recipe) nextIndex)))
                ErrorStepImage s)
      as (k & log & v & s1 & Hk & Hrun & Htr & Hlog & Hv).
    fold (generateStepVisual (instruction step)
            (map instruction (slice0 (steps recipe) nextIndex))) in Hrun.
    rewrite (step_prompt_at_index recipe _ _ Hstep) in Htr.
    unfold bind, mounted_now, ret. rewrite Hrun.
    eexists _, s1, k, log. split; [reflexivity|].
    split; [exact Hk|]. split; [exact Htr|]. split; [exact Hlog|].
    destruct Hv as [-> | (m & d & ->)]; [left; reflexivity|].
    cbn [truthy_opt]. rewrite data_uri_truthy. cbn [andb].
    destruct (isMounted (world s1)); [right; exists m, d | left]; reflexivity. }
  unfold preloadNext. fold nextIndex. repeat apply conj.
  - destruct (nextIndex <? Z.of_nat (List.length (steps recipe)));
      [|eauto].
    destruct (truthy_opt (preloaded_at preloadedImages nextIndex)
              || truthy_opt (localImageCache st !! nextIndex)); [eauto|].
    unfold try_catch.
    destruct (at_index (steps recipe) nextIndex) as [step|] eqn:Hstep.
    + destruct (Hfetch step eq_refl) as (st' & s' & k & log & -> & _). eauto.
    + cbn. eauto.
  - intros Hlast.
    replace (nextIndex <? Z.of_nat (List.length (steps recipe))) with false
      by (symmetry; apply Z.ltb_ge; exact Hlast).
    reflexivity.
  - intros ->. destruct (nextIndex <? _); reflexivity.
  - intros Hin ->.
    replace (nextIndex <? Z.of_nat (List.length (steps recipe))) with true
      by (symmetry; apply Z.ltb_lt; lia).
    destruct (at_index_in_range (steps recipe) nextIndex Hin) as [step Hstep].
    rewrite Hstep. unfold try_catch.
    destruct (Hfetch step Hstep) as (st' & s' & k & log & -> & Hrest).
    exists st', s', k, log. split; [reflexivity | exact Hrest].
Qed.

(** X27. [handleAudioEnded] in [TutorialPlayer]. On the last step, or
    when paused, it starts no timer and only turns [isPlaying] off.
    Otherwise it waits 1500 ms and then, if the component is still
    mounted, adds one to the index as it is at that moment and touches
    nothing else; if the component was unmounted, it changes nothing.
    Applied to the state that set the handler, the new index is again the
    index of a step; applied to a state whose index has meanwhile moved to
    the last step, it is not: the guard is the one of the render that set
    the handler. *)
Theorem handleAudioEnded_advances (steps : list RecipeStep)
    (st : TutorialState) (s : state W) :
  exists update s',
    handleAudioEnded steps st s = (Returned update, s')
    /\ trace s' = trace s
    /\ (isLastStep steps st = true \/ isPlaying st = false ->
        s' = s
        /\ forall prev,
             update prev
             = mkTutorial (currentIndex prev) (audioUrl prev) (imageUrl prev)
                 false (isLoading prev) (localImageCache prev))
    /\ (isLastStep steps st = false -> isPlaying st = true ->
        world s' = sleep 1500 (world s)
        /\ (isMounted (world s') = false -> forall prev, update prev = prev)
        /\ (isMounted (world s') = true ->
            (forall prev,
                update prev
                = mkTutorial (currentIndex prev + 1) (audioUrl prev)
                    (imageUrl prev) (isPlaying prev) (isLoading prev)
                    (localImageCache prev))
            /\ (0 <= currentIndex st < Z.of_nat (List.length steps) ->
                is_Some (at_index steps (currentIndex (update st))))
            /\ (forall prev,
                  currentIndex prev = Z.of_nat (List.length steps) - 1 ->
                  at_index steps (currentIndex (update prev)) = None))).
Proof.
  unfold handleAudioEnded.
  destruct (isLastStep steps st) eqn:Hlast; cbn [negb andb].
  - eexists _, s. split; [reflexivity|]. split; [reflexivity|].
    split; [auto | discriminate].
  - destruct (isPlaying st) eqn:Hplay.
    + unfold bind, act, mounted_now, ret. cbn [world trace].
      eexists _, _. split; [reflexivity|]. cbn [world trace].
      split; [reflexivity|]. split; [intros [? | ?]; discriminate|].
      intros _ _. split; [reflexivity|].
      split; intros Hm; rewrite Hm; [reflexivity|].
      split; [reflexivity|]. cbn [currentIndex].
      unfold isLastStep in Hlast. apply Z.eqb_neq in Hlast. split.
      * intros Hin. apply CookModeFacts.at_index_in_range. lia.
      * intros prev Hprev. unfold at_index.
        destruct (Z.ltb_spec (currentIndex prev + 1) 0); [reflexivity|].
        apply lookup_ge_None. lia.
    + eexists _, s. split; [reflexivity|]. split; [reflexivity|].
      split; [auto|]. discriminate.
Qed.

End Effects.

Lemma content_effect_settles_witness :
  exists st' s' fetch k log,
    @content_effect nat speaking browser mounted no_audio (steps omelette)
      {[ 0%nat := str "data:image/png;base64,iVBORw0KGgo=" ]}
      (mkTutorial 0 None None true true ∅) (mkState 0%nat [])
    = (Returned st', s')
    /\ (k < 3)%nat
    /\ trace s'
       = fetch
           ++ attempts (audio_request (spokenText (str "Whisk the <<eggs|2>>.")))
                k
           ++ log
    /\ (log = [] \/ exists e, log = [Console (ErrorAudio e)])
    /\ (truthy_opt
          (or_else
             (preloaded_at
                {[ 0%nat := str "data:image/png;base64,iVBORw0KGgo=" ]} 0)
             ((∅ : gmap Z jsstring) !! 0)) = true -> fetch = [])
    /\ (truthy_opt
          (or_else
             (preloaded_at
                {[ 0%nat := str "data:image/png;base64,iVBORw0KGgo=" ]} 0)
             ((∅ : gmap Z jsstring) !! 0)) = false ->
        exists k1 log1,
          (k1 < 3)%nat
          /\ fetch
             = attempts (image_request (step_prompt_at omelette 0)) k1 ++ log1
          /\ (log1 = [] \/ exists e, log1 = [Console (ErrorStepImage e)]))
    /\ (@isMounted nat mounted (world s') = true -> isLoading st' = false)
    /\ (@isMounted nat mounted (world s') = false ->
        isLoading st' = true /\ audioUrl st' = None)
    /\ currentIndex st' = 0
    /\ localImageCache st' = ∅
    /\ isPlaying st' = true.
Proof.
  apply (@content_effect_settles nat speaking browser mounted no_audio omelette
           {[ 0%nat := str "data:image/png;base64,iVBORw0KGgo=" ]}
           (mkTutorial 0 None None true true ∅)
           (mkStep (str "Whisk the <<eggs|2>>.") PREP None)
           (mkState 0%nat [])).
  reflexivity.
Defined.

Lemma handleAudioEnded_advances_witness :
  exists update s',
    @handleAudioEnded nat picturing mounted (steps omelette)
      (mkTutorial 0 None None true false ∅) (mkState 0%nat [])
    = (Returned update, s')
    /\ world s' = @sleep nat counting_clock 1500 0%nat
    /\ (forall prev,
          update prev
          = mkTutorial (currentIndex prev + 1) (audioUrl prev) (imageUrl prev)
              (isPlaying prev) (isLoading prev) (localImageCache prev))
    /\ is_Some (at_index (steps omelette)
                  (currentIndex (update (mkTutorial 0 None None true false ∅))))
    /\ at_index (steps omelette)
         (currentIndex (update (mkTutorial 1 None None true false ∅)))
       = None.
Proof.
  destruct (@handleAudioEnded_advances nat picturing mounted (steps omelette)
              (mkTutorial 0 None None true false ∅) (mkState 0%nat []))
    as (update & s' & Hrun & _ & _ & Hgo).
  destruct (Hgo eq_refl eq_refl) as (Hw & _ & Hm).
  destruct (Hm eq_refl) as (Hup & Hin & Hout).
  exists update, s'. split; [exact Hrun|]. split; [exact Hw|].
  split; [exact Hup|]. split; [apply Hin; cbn; lia|].
  apply (Hout (mkTutorial 1 None None true false ∅)). reflexivity.
Defined.

Lemma preloadNext_settles_witness :
  exists st' s' k log,
    @preloadNext nat picturing mounted silent_console (steps omelette) ∅
      (mkTutorial 0 None None true true ∅) (mkState 0%nat [])
    = (Returned st', s')
    /\ (k < 3)%nat
    /\ trace s'
       = attempts (image_request (step_prompt_at omelette 1)) k ++ log
    /\ (log = [] \/ exists e, log = [Console (ErrorStepImage e)])
    /\ (st' = mkTutorial 0 None None true true ∅
        \/ exists mimeType data,
             st' = mkTutorial 0 None None true true
                     (<[1 := data_uri mimeType data]> ∅)).
Proof.
  apply (proj2 (proj2 (proj2
           (@preloadNext_settles nat picturing mounted silent_console omelette ∅
              (mkTutorial 0 None None true true ∅) (mkState 0%nat [])))));
    [cbn; lia | reflexivity].
Defined.

End TutorialFacts.
